(** * Lead tracking: the store and the history engine

    A shallow embedding of [backend/models.py], [backend/database.py],
    the export of [backend/utils.py] and the route functions of
    [backend/main.py].

    - A Python [str] is a Rocq [string]; a character is a code point below 256.
    - [datetime] is an interface ([isoformat], [fromisoformat]) with the two
      laws the standard library documents: [fromisoformat] inverts
      [isoformat], and [isoformat] never gives the empty string.
    - A Python [set] of strings is a [gset string]; the order in which a [for]
      loop visits it is an interface too ([set_iter]), constrained only to
      enumerate every element once.
    - Exceptions are values of [exn]; a call that may raise returns a [result].
    - [leads.json] is the JSON value it holds; [json.dump] followed by
      [json.load] is taken to give that value back.
    - [csv.writer] is the writer of the default dialect, and [strftime]
      with the format of the export is an interface again. *)

From Stdlib Require Import Ascii.
From Stdlib Require String.
From stdpp Require Import base tactics option list sets gmap strings sorting.

(** ** Exceptions *)

Inductive exn :=
| ValidationError | ValueError | TypeError | AttributeError | KeyError.

Inductive result (A : Type) :=
| Ok (a : A)
| Raise (e : exn).
Arguments Ok {A} a.
Arguments Raise {A} e.

#[global] Instance result_ret : MRet result := λ A a, Ok a.
#[global] Instance result_bind : MBind result := λ A B f m,
  match m with
  | Ok a => f a
  | Raise e => Raise e
  end.

(** ** Strings *)

Module Str.

Definition code (c : ascii) : nat := nat_of_ascii c.

Definition between (lo hi : nat) (c : ascii) : bool :=
  (lo <=? code c)%nat && (code c <=? hi)%nat.

(** [str.isspace] on the code points below 256. *)
Definition isspace (c : ascii) : bool :=
  between 9 13 c || between 28 32 c
  || Nat.eqb (code c) 133 || Nat.eqb (code c) 160.

Definition isupper (c : ascii) : bool :=
  between 65 90 c
  || (between 192 222 c && negb (Nat.eqb (code c) 215)).

Definition lower_char (c : ascii) : ascii :=
  if isupper c then ascii_of_nat (code c + 32) else c.

Fixpoint lower (s : string) : string :=
  match s with
  | EmptyString => EmptyString
  | String c s' => String (lower_char c) (lower s')
  end.

Fixpoint lstrip (s : string) : string :=
  match s with
  | EmptyString => EmptyString
  | String c s' => if isspace c then lstrip s' else s
  end.

Fixpoint rstrip (s : string) : string :=
  match s with
  | EmptyString => EmptyString
  | String c s' =>
      match rstrip s' with
      | EmptyString => if isspace c then EmptyString else String c EmptyString
      | r => String c r
      end
  end.

Definition strip (s : string) : string := rstrip (lstrip s).

Definition startswith (p s : string) : bool := String.prefix p s.

(** [s[:n]] *)
Definition slice_to (n : nat) (s : string) : string := String.substring 0 n s.

(** [needle in s] *)
Definition contains (needle s : string) : Prop :=
  ∃ pre post, s = pre +:+ needle +:+ post.

Definition truthy (s : string) : bool :=
  match s with EmptyString => false | _ => true end.

Definition chars (s : string) : list ascii := String.list_ascii_of_string s.

End Str.

(** ** The email pattern

    [^[a-zA-Z0-9._-]+@[a-zA-Z0-9.-]+\.[a-zA-Z]{2,}$] under [re.match].
    No class contains ["@"], so the ["@"] of a match is the first one of the
    string; the last class contains no ["."], so the escaped dot is the last
    one. [$] also matches just before a final newline. *)

Module EmailPattern.
Import Str.

Definition alpha (c : ascii) : bool := between 65 90 c || between 97 122 c.
Definition alnum (c : ascii) : bool := alpha c || between 48 57 c.
Definition local_class (c : ascii) : bool :=
  alnum c || Ascii.eqb c "."%char || Ascii.eqb c "_"%char || Ascii.eqb c "-"%char.
Definition domain_class (c : ascii) : bool :=
  alnum c || Ascii.eqb c "."%char || Ascii.eqb c "-"%char.

(** Split at the first occurrence of [sep]. *)
Fixpoint split_first (sep : ascii) (l : list ascii)
  : option (list ascii * list ascii) :=
  match l with
  | [] => None
  | c :: l' =>
      if Ascii.eqb c sep then Some ([], l')
      else '(a, b) ← split_first sep l'; Some (c :: a, b)
  end.

(** Split at the last occurrence of [sep]. *)
Definition split_last (sep : ascii) (l : list ascii)
  : option (list ascii * list ascii) :=
  '(b, a) ← split_first sep (reverse l); Some (reverse a, reverse b).

Definition nonempty {A} (l : list A) : bool :=
  match l with [] => false | _ => true end.

(** The pattern with both ends anchored at the ends of the string. *)
Definition fullmatch (l : list ascii) : bool :=
  match split_first "@"%char l with
  | None => false
  | Some (local, rest) =>
      nonempty local && forallb local_class local &&
      match split_last "."%char rest with
      | None => false
      | Some (dom, tld) =>
          nonempty dom && forallb domain_class dom &&
          (2 <=? length tld)%nat && forallb alpha tld
      end
  end.

Definition newline : ascii := ascii_of_nat 10.

Definition re_match (v : string) : bool :=
  fullmatch (chars v) ||
  match reverse (chars v) with
  | c :: body => Ascii.eqb c newline && fullmatch (reverse body)
  | [] => false
  end.

End EmailPattern.

(** ** Interfaces of the standard library *)

Class Datetime := {
  datetime : Type;
  isoformat : datetime → string;
  fromisoformat : string → option datetime;
  fromisoformat_isoformat : ∀ d, fromisoformat (isoformat d) = Some d;
  isoformat_nonempty : ∀ d, isoformat d ≠ ""
}.

Class SetIteration := {
  set_iter : gset string → list string;
  set_iter_perm : ∀ X, set_iter X ≡ₚ elements X
}.

(** ** models.py *)

Inductive ActivityType :=
| CREATED | UPDATED | STATUS_CHANGED | NOTE_ADDED | TAG_ADDED | TAG_REMOVED.

#[global] Instance ActivityType_eq_dec : EqDecision ActivityType.
Proof. solve_decision. Defined.

Inductive LeadStatus := NOT_CONTACTED | CONTACTED | RESPONDED.

#[global] Instance LeadStatus_eq_dec : EqDecision LeadStatus.
Proof. solve_decision. Defined.

Module ActivityType_.
Definition value (t : ActivityType) : string :=
  match t with
  | CREATED => "created"
  | UPDATED => "updated"
  | STATUS_CHANGED => "status_changed"
  | NOTE_ADDED => "note_added"
  | TAG_ADDED => "tag_added"
  | TAG_REMOVED => "tag_removed"
  end.

Definition members : list ActivityType :=
  [CREATED; UPDATED; STATUS_CHANGED; NOTE_ADDED; TAG_ADDED; TAG_REMOVED].

(** [ActivityType(s)]: the member whose value is [s]. *)
Definition of_value (s : string) : option ActivityType :=
  List.find (λ t, bool_decide (value t = s)) members.
End ActivityType_.

Module LeadStatus_.
Definition value (s : LeadStatus) : string :=
  match s with
  | NOT_CONTACTED => "not_contacted"
  | CONTACTED => "contacted"
  | RESPONDED => "responded"
  end.

Definition members : list LeadStatus := [NOT_CONTACTED; CONTACTED; RESPONDED].

Definition of_value (s : string) : option LeadStatus :=
  List.find (λ t, bool_decide (value t = s)) members.
End LeadStatus_.

Record LeadBase := {
  company_name : string;
  contact_name : string;
  title : string;
  email : string;
  linkedin_url : option string;
  status : LeadStatus;
  notes : option string;
  tags : list string
}.

(** [Field(..., min_length=lo, max_length=hi)] on a [str]. *)
Definition check_length (lo hi : nat) (v : string) : result string :=
  if (lo <=? String.length v)%nat && (String.length v <=? hi)%nat
  then Ok v else Raise ValidationError.

(** The same constraint on an [Optional[str]]: [None] passes. *)
Definition check_length_opt (hi : nat) (v : option string)
  : result (option string) :=
  match v with
  | None => Ok None
  | Some s => s' ← check_length 0 hi s; Ok (Some s')
  end.

Definition validate_email (v : string) : result string :=
  if EmailPattern.re_match v then Ok (Str.lower v)
  else Raise ValidationError.

Definition validate_linkedin_url (v : option string) : string :=
  match v with
  | Some v =>
      if Str.truthy v && Str.truthy (Str.strip v) then
        let v := Str.strip v in
        if negb (Str.startswith "http://" v || Str.startswith "https://" v)
        then "https://" +:+ v
        else v
      else ""
  | None => ""
  end.

(** What constructing a [LeadBase] (or a subclass) does to the eight
    fields it is given: every [Field] constraint is checked on the input, then
    the field's validator runs on the value that passed. *)
Definition LeadBase_validate (d : LeadBase) : result LeadBase :=
  company ← check_length 1 200 (company_name d);
  contact ← check_length 1 200 (contact_name d);
  ttl ← check_length 1 200 (title d);
  mail ← check_length 5 200 (email d);
  mail ← validate_email mail;
  url ← check_length_opt 500 (linkedin_url d);
  nts ← check_length_opt 2000 (notes d);
  Ok {| company_name := company; contact_name := contact; title := ttl;
        email := mail; linkedin_url := Some (validate_linkedin_url url);
        status := status d; notes := nts; tags := tags d |}.

(** A field set that satisfies the model: validating it again changes
    nothing. *)
Definition validated (d : LeadBase) : Prop := LeadBase_validate d = Ok d.

(** ** The file

    A JSON value is [null], a string, an array or an object; numbers and
    booleans never occur in a file the application writes and are left
    out. *)

#[warnings="-register-all"]
Inductive json :=
| JNull
| JStr (s : string)
| JArr (l : list json)
| JObj (m : gmap string json).

(** [leads_file] is the value held by [leads.json], [None] while the file
    does not exist. [saves] counts the replacements [save_leads] has made.
    The temporary file of [save_leads] is gone once the rename has happened
    and is not kept in the state; no write fails. *)
Record Store := {
  leads_file : option json;
  saves : nat
}.

(** A call that reads or writes the store and may raise. The store is
    returned in both cases: what was written before an exception stays
    written. *)
Definition M (A : Type) : Type := Store → result A * Store.

#[global] Instance M_ret : MRet M := λ A a st, (Ok a, st).
#[global] Instance M_bind : MBind M := λ A B f m st,
  match m st with
  | (Ok a, st') => f a st'
  | (Raise e, st') => (Raise e, st')
  end.

Definition lift {A} (r : result A) : M A := λ st, (r, st).

Definition empty_document : json := JObj {[ "leads" := JArr [] ]}.

(** The store once the file is known to exist: an absent file has become
    the empty document. *)
Definition with_file (st : Store) : Store :=
  {| leads_file := Some (default empty_document (leads_file st));
     saves := saves st |}.

Definition get_file : M (option json) := λ st, (Ok (leads_file st), st).

Definition put_file (v : json) : M () := λ st,
  (Ok (), {| leads_file := Some v; saves := saves st |}).

Definition count_save : M () := λ st,
  (Ok (), {| leads_file := leads_file st; saves := S (saves st) |}).

Section history.
Context `{!Datetime} `{!SetIteration}.

Record Activity := {
  timestamp : datetime;
  type : ActivityType;
  description : string;
  details : option string
}.

(** [Lead] extends [LeadBase]: the coercion gives a lead its eight
    inherited fields. *)
Record Lead := {
  base :> LeadBase;
  id : string;
  date_added : datetime;
  last_contacted : option datetime;
  activity_history : list Activity
}.

(** [Lead(id=..., date_added=..., last_contacted=...,
    activity_history=..., **fields)]: the inherited fields are validated
    again; the four others are accepted as they are. *)
Definition Lead_new (id : string) (date_added : datetime)
    (last_contacted : option datetime) (activity_history : list Activity)
    (fields : LeadBase) : result Lead :=
  fields ← LeadBase_validate fields;
  Ok {| base := fields; id := id; date_added := date_added;
        last_contacted := last_contacted;
        activity_history := activity_history |}.

(** ** database.py: updating one lead *)

(** [lead_data.notes and lead_data.notes != lead.notes] *)
Definition notes_changed (lead_data : LeadBase) (lead : Lead) : bool :=
  match notes lead_data with
  | Some s => Str.truthy s && bool_decide (notes lead_data ≠ notes lead)
  | None => false
  end.

Definition tracked_types : list ActivityType :=
  [STATUS_CHANGED; NOTE_ADDED; TAG_ADDED; TAG_REMOVED].

(** [activities[-1:] and activities[-1].type in [...]] *)
Definition last_is_tracked (activities : list Activity) : bool :=
  match last activities with
  | Some a => bool_decide (type a ∈ tracked_types)
  | None => false
  end.

Definition status_changed_activity (now : datetime)
    (lead : Lead) (lead_data : LeadBase) : Activity :=
  {| timestamp := now; type := STATUS_CHANGED;
     description := "Status changed from " +:+ LeadStatus_.value (status lead)
                    +:+ " to " +:+ LeadStatus_.value (status lead_data);
     details := None |}.

Definition note_added_activity (now : datetime) (new_notes : string)
  : Activity :=
  {| timestamp := now; type := NOTE_ADDED; description := "Note updated";
     details := Some (Str.slice_to 100 new_notes) |}.

Definition tag_added_activity (now : datetime) (tag : string) : Activity :=
  {| timestamp := now; type := TAG_ADDED;
     description := "Tag added: " +:+ tag; details := None |}.

Definition tag_removed_activity (now : datetime) (tag : string) : Activity :=
  {| timestamp := now; type := TAG_REMOVED;
     description := "Tag removed: " +:+ tag; details := None |}.

Definition updated_activity (now : datetime) : Activity :=
  {| timestamp := now; type := UPDATED;
     description := "Lead information updated"; details := None |}.

(** [for x in xs: activities.append(f(x))] *)
Definition append_each {A} (f : A → Activity) (xs : list A)
    (activities : list Activity) : list Activity :=
  foldl (λ acc x, acc ++ [f x]) activities xs.

(** The body of the loop of [update_lead] for the lead whose identifier
    matches, [now] being the reading of [datetime.now()]. *)
Definition update_entry (lead : Lead) (lead_data : LeadBase)
    (now : datetime) : result Lead :=
  let activities := activity_history lead in
  let '(activities, last_contacted) :=
    if bool_decide (status lead_data ≠ status lead) then
      (activities ++ [status_changed_activity now lead lead_data],
       if bool_decide (LeadStatus_.value (status lead_data)
                       ∈ ["contacted"; "responded"])
       then Some now
       else last_contacted lead)
    else (activities, last_contacted lead) in
  let activities :=
    match notes lead_data with
    | Some new_notes =>
        if notes_changed lead_data lead
        then activities ++ [note_added_activity now new_notes]
        else activities
    | None => activities
    end in
  let old_tags : gset string := list_to_set (tags lead) in
  let new_tags : gset string := list_to_set (tags lead_data) in
  let added_tags := new_tags ∖ old_tags in
  let removed_tags := old_tags ∖ new_tags in
  let activities :=
    append_each (tag_added_activity now) (set_iter added_tags) activities in
  let activities :=
    append_each (tag_removed_activity now) (set_iter removed_tags)
      activities in
  let activities :=
    if negb (last_is_tracked activities)
    then activities ++ [updated_activity now]
    else activities in
  Lead_new (id lead) (date_added lead) last_contacted activities lead_data.

(** *** The appended activities, step by step

    What each step of [update_entry] contributes to the history, to state
    the properties of the list it builds. *)

Definition status_part (lead : Lead) (lead_data : LeadBase)
    (now : datetime) : list Activity :=
  if bool_decide (status lead_data ≠ status lead)
  then [status_changed_activity now lead lead_data] else [].

Definition note_part (lead : Lead) (lead_data : LeadBase)
    (now : datetime) : list Activity :=
  match notes lead_data with
  | Some new_notes =>
      if notes_changed lead_data lead
      then [note_added_activity now new_notes] else []
  | None => []
  end.

Definition added_tags (lead : Lead) (lead_data : LeadBase) : gset string :=
  list_to_set (tags lead_data) ∖ list_to_set (tags lead).

Definition removed_tags (lead : Lead) (lead_data : LeadBase) : gset string :=
  list_to_set (tags lead) ∖ list_to_set (tags lead_data).

Definition tag_added_part (lead : Lead) (lead_data : LeadBase)
    (now : datetime) : list Activity :=
  tag_added_activity now <$> set_iter (added_tags lead lead_data).

Definition tag_removed_part (lead : Lead) (lead_data : LeadBase)
    (now : datetime) : list Activity :=
  tag_removed_activity now <$> set_iter (removed_tags lead lead_data).

Definition specific_part (lead : Lead) (lead_data : LeadBase)
    (now : datetime) : list Activity :=
  status_part lead lead_data now ++ note_part lead lead_data now
  ++ tag_added_part lead lead_data now
  ++ tag_removed_part lead lead_data now.

Definition fallback_part (lead : Lead) (lead_data : LeadBase)
    (now : datetime) : list Activity :=
  if last_is_tracked (activity_history lead ++ specific_part lead lead_data now)
  then [] else [updated_activity now].

Definition has_type (t : ActivityType) (a : Activity) : Prop := type a = t.

#[global] Instance has_type_dec t a : Decision (has_type t a).
Proof. unfold has_type. apply _. Defined.

(** The activities an update appended: what the new history holds beyond
    the length of the old one. *)
Definition appended (old new : Lead) : list Activity :=
  drop (length (activity_history old)) (activity_history new).

(** ** database.py: loading and saving *)

Definition ensure_data_file_exists : M () :=
  f ← get_file;
  match f with
  | Some _ => mret ()
  | None => put_file empty_document
  end.

(** [for x in v]: the items a loop over a JSON value visits. *)
Definition py_iter (v : json) : result (list json) :=
  match v with
  | JArr l => Ok l
  | JStr s => Ok ((λ c, JStr (String c EmptyString)) <$> Str.chars s)
  | JObj m => Ok (JStr <$> (map_to_list m).*1)
  | JNull => Raise TypeError
  end.

(** [v.get]: only a dict has the method. *)
Definition as_dict (v : json) : result (gmap string json) :=
  match v with
  | JObj m => Ok m
  | _ => Raise AttributeError
  end.

(** An entry of a dict that the loading code may have replaced by a
    [datetime]. *)
Inductive converted :=
| Parsed (d : datetime)
| Untouched (v : option json).

(** [if isinstance(d.get(k), str): d[k] = datetime.fromisoformat(d[k])] *)
Definition convert_datetime (d : gmap string json) (k : string)
  : result converted :=
  match d !! k with
  | Some (JStr s) =>
      match fromisoformat s with
      | Some t => Ok (Parsed t)
      | None => Raise ValueError
      end
  | v => Ok (Untouched v)
  end.

(** [if d.get(k) and isinstance(d.get(k), str): ...] *)
Definition convert_datetime_truthy (d : gmap string json) (k : string)
  : result converted :=
  match d !! k with
  | Some (JStr s) =>
      if Str.truthy s then convert_datetime d k
      else Ok (Untouched (Some (JStr s)))
  | v => Ok (Untouched v)
  end.

(** How the model classes read one keyword argument. *)
Definition required_str (d : gmap string json) (k : string) : result string :=
  match d !! k with
  | Some (JStr s) => Ok s
  | _ => Raise ValidationError
  end.

Definition optional_str (default : option string) (d : gmap string json)
    (k : string) : result (option string) :=
  match d !! k with
  | None => Ok default
  | Some JNull => Ok None
  | Some (JStr s) => Ok (Some s)
  | Some _ => Raise ValidationError
  end.

Definition required_datetime (c : converted) : result datetime :=
  match c with
  | Parsed t => Ok t
  | Untouched _ => Raise ValidationError
  end.

Definition optional_datetime (c : converted) : result (option datetime) :=
  match c with
  | Parsed t => Ok (Some t)
  | Untouched None | Untouched (Some JNull) => Ok None
  | Untouched (Some _) => Raise ValidationError
  end.

Definition str_item (v : json) : result string :=
  match v with
  | JStr s => Ok s
  | _ => Raise ValidationError
  end.

Definition str_list (d : gmap string json) (k : string)
  : result (list string) :=
  match d !! k with
  | None => Ok []
  | Some (JArr l) => mapM str_item l
  | Some _ => Raise ValidationError
  end.

Definition status_field (d : gmap string json) : result LeadStatus :=
  match d !! "status" with
  | None => Ok NOT_CONTACTED
  | Some (JStr s) =>
      match LeadStatus_.of_value s with
      | Some x => Ok x
      | None => Raise ValidationError
      end
  | Some _ => Raise ValidationError
  end.

Definition type_field (d : gmap string json) : result ActivityType :=
  match d !! "type" with
  | Some (JStr s) =>
      match ActivityType_.of_value s with
      | Some x => Ok x
      | None => Raise ValidationError
      end
  | _ => Raise ValidationError
  end.

(** One pass of the inner loop of [load_leads]. *)
Definition load_activity (activity_data : json) : result Activity :=
  activity_data ← as_dict activity_data;
  ts ← convert_datetime activity_data "timestamp";
  (* the Activity constructor on the entries of activity_data *)
  ts ← required_datetime ts;
  ty ← type_field activity_data;
  desc ← required_str activity_data "description";
  det ← optional_str None activity_data "details";
  Ok {| timestamp := ts; type := ty; description := desc; details := det |}.

(** One pass of the outer loop of [load_leads]. *)
Definition load_lead (lead_data : json) : result Lead :=
  lead_data ← as_dict lead_data;
  added ← convert_datetime lead_data "date_added";
  contacted ← convert_datetime_truthy lead_data "last_contacted";
  activities ←
    match lead_data !! "activity_history" with
    | Some v => items ← py_iter v; acts ← mapM load_activity items; Ok (Some acts)
    | None => Ok None
    end;
  (* the Lead constructor on the entries of lead_data *)
  company ← required_str lead_data "company_name";
  contact ← required_str lead_data "contact_name";
  ttl ← required_str lead_data "title";
  mail ← required_str lead_data "email";
  url ← optional_str (Some "") lead_data "linkedin_url";
  st ← status_field lead_data;
  nts ← optional_str (Some "") lead_data "notes";
  tgs ← str_list lead_data "tags";
  ident ← required_str lead_data "id";
  added ← required_datetime added;
  contacted ← optional_datetime contacted;
  Lead_new ident added contacted (default [] activities)
    {| company_name := company; contact_name := contact; title := ttl;
       email := mail; linkedin_url := url; status := st; notes := nts;
       tags := tgs |}.

(** The loop of [load_leads] over [data.get('leads', [])]. *)
Definition parse_document (data : json) : result (list Lead) :=
  data ← as_dict data;
  items ← py_iter (default (JArr []) (data !! "leads"));
  mapM load_lead items.

Definition load_leads : M (list Lead) :=
  ensure_data_file_exists;;
  f ← get_file;
  lift (parse_document (default JNull f)).

Definition opt_str (v : option string) : json :=
  match v with
  | Some s => JStr s
  | None => JNull
  end.

(** The entries of [activity.model_dump()] that reach the file as they
    are; ["timestamp"] is overwritten before the dict is written. *)
Definition Activity_model_dump (a : Activity) : gmap string json :=
  {[ "type" := JStr (ActivityType_.value (type a));
     "description" := JStr (description a);
     "details" := opt_str (details a) ]}.

(** The dict [save_leads] writes for an activity. *)
Definition activity_dict (a : Activity) : gmap string json :=
  <["timestamp" := JStr (isoformat (timestamp a))]> (Activity_model_dump a).

Definition dump_activity (a : Activity) : json := JObj (activity_dict a).

(** The entries of [lead.model_dump()] that reach the file as they are;
    ["date_added"], ["last_contacted"] and ["activity_history"] are
    overwritten. *)
Definition Lead_model_dump (lead : Lead) : gmap string json :=
  {[ "company_name" := JStr (company_name lead);
     "contact_name" := JStr (contact_name lead);
     "title" := JStr (title lead);
     "email" := JStr (email lead);
     "linkedin_url" := opt_str (linkedin_url lead);
     "status" := JStr (LeadStatus_.value (status lead));
     "notes" := opt_str (notes lead);
     "tags" := JArr (JStr <$> tags lead);
     "id" := JStr (id lead) ]}.

(** The dict [save_leads] writes for a lead. *)
Definition lead_dict (lead : Lead) : gmap string json :=
  <["activity_history" := JArr (dump_activity <$> activity_history lead)]>
  (<["last_contacted" :=
       match last_contacted lead with
       | Some t => JStr (isoformat t)
       | None => JNull
       end]>
  (<["date_added" := JStr (isoformat (date_added lead))]>
     (Lead_model_dump lead))).

Definition dump_lead (lead : Lead) : json := JObj (lead_dict lead).

Definition leads_data (leads : list Lead) : json :=
  JObj {[ "leads" := JArr (dump_lead <$> leads) ]}.

Definition save_leads (leads : list Lead) : M () :=
  ensure_data_file_exists;;
  put_file (leads_data leads);;
  count_save.

(** ** database.py: the operations *)

Definition created_activity (now : datetime) (lead_data : LeadBase)
  : Activity :=
  {| timestamp := now; type := CREATED;
     description := "Lead created for " +:+ contact_name lead_data;
     details := None |}.

(** [now] is the reading of [datetime.now()], [uuid] the string of
    [uuid.uuid4()]. *)
Definition create_lead (lead_data : LeadBase) (now : datetime)
    (uuid : string) : M Lead :=
  leads ← load_leads;
  let initial_activity := created_activity now lead_data in
  new_lead ← lift (Lead_new uuid now None [initial_activity] lead_data);
  let leads := leads ++ [new_lead] in
  save_leads leads;;
  mret new_lead.

(** The loop of [update_lead]: [i] is the index of the head of [rest] in
    [leads]. *)
Fixpoint update_loop (lead_id : string) (lead_data : LeadBase)
    (now : datetime) (leads : list Lead) (i : nat) (rest : list Lead)
  : M (option Lead) :=
  match rest with
  | [] => mret None
  | lead :: rest =>
      if bool_decide (id lead = lead_id) then
        updated_lead ← lift (update_entry lead lead_data now);
        let leads := <[i := updated_lead]> leads in
        save_leads leads;;
        mret (Some updated_lead)
      else update_loop lead_id lead_data now leads (S i) rest
  end.

Definition update_lead (lead_id : string) (lead_data : LeadBase)
    (now : datetime) : M (option Lead) :=
  leads ← load_leads;
  update_loop lead_id lead_data now leads 0 leads.

Definition delete_lead (lead_id : string) : M bool :=
  leads ← load_leads;
  let initial_count := length leads in
  let leads := filter (λ lead, id lead ≠ lead_id) leads in
  if bool_decide (length leads < initial_count) then
    save_leads leads;;
    mret true
  else mret false.

(** ** database.py: statistics *)

(** [status_counts[key] += 1] *)
Definition increment (key : string) (counts : gmap string nat)
  : result (gmap string nat) :=
  match counts !! key with
  | Some n => Ok (<[key := n + 1]> counts)
  | None => Raise KeyError
  end.

(** [company_counts[c] = company_counts.get(c, 0) + 1] on a dict, which
    keeps its keys in the order of their first insertion. *)
Fixpoint count_company (c : string) (company_counts : list (string * nat))
  : list (string * nat) :=
  match company_counts with
  | [] => [(c, 0 + 1)]
  | (k, n) :: rest =>
      if bool_decide (k = c) then (k, n + 1) :: rest
      else (k, n) :: count_company c rest
  end.

(** [sorted(items, key=key, reverse=True)]: the sort is stable, and stays
    so under [reverse=True]. The result of a stable sort does not depend
    on the algorithm; this is insertion from the right. *)
Fixpoint insert_desc {A} (key : A → nat) (x : A) (l : list A) : list A :=
  match l with
  | [] => [x]
  | y :: l' =>
      if bool_decide (key x < key y) then y :: insert_desc key x l'
      else x :: y :: l'
  end.

Definition sorted_reverse {A} (key : A → nat) (items : list A) : list A :=
  foldr (insert_desc key) [] items.

(** The dict [get_stats] returns; an entry of [top_companies] is the pair
    of its ["company"] and its ["count"]. *)
Record Stats := {
  total : nat;
  by_status : gmap string nat;
  top_companies : list (string * nat)
}.

Definition initial_status_counts : gmap string nat :=
  {[ "not_contacted" := 0; "contacted" := 0; "responded" := 0 ]}.

(** The loop of [get_stats] over the leads. *)
Fixpoint count_leads (leads : list Lead)
    (status_counts : gmap string nat) (company_counts : list (string * nat))
  : result (gmap string nat * list (string * nat)) :=
  match leads with
  | [] => Ok (status_counts, company_counts)
  | lead :: leads =>
      status_counts ← increment (LeadStatus_.value (status lead)) status_counts;
      let company_counts := count_company (company_name lead) company_counts in
      count_leads leads status_counts company_counts
  end.

Definition stats_of (leads : list Lead) : result Stats :=
  '(status_counts, company_counts) ← count_leads leads initial_status_counts [];
  let top_companies := take 5 (sorted_reverse snd company_counts) in
  Ok {| total := length leads; by_status := status_counts;
        top_companies := top_companies |}.

Definition get_stats : M Stats :=
  leads ← load_leads;
  lift (stats_of leads).

End history.

(** ** What the statistics are measured against *)

(** [x] stands before [y] in [l]. *)
Definition before {A} (l : list A) (x y : A) : Prop :=
  ∃ i j, i < j ∧ l !! i = Some x ∧ l !! j = Some y.

(** The order a stable descending sort of [l] by [key] puts two of its
    items in: the larger key first, and equal keys as they stand in [l]. *)
Definition stable_desc {A} (key : A → nat) (l : list A) (x y : A) : Prop :=
  key y < key x ∨ (key x = key y ∧ before l x y).

Section tallies.
Context `{!Datetime}.

(** The number of leads with a given status, a given company. *)
Definition status_count (s : LeadStatus) (leads : list Lead) : nat :=
  length (filter (λ lead : Lead, status lead = s) leads).

Definition company_count (c : string) (leads : list Lead) : nat :=
  length (filter (λ lead : Lead, company_name lead = c) leads).

(** The position of the first lead of a company. *)
Definition first_seen (c : string) (leads : list Lead) : option nat :=
  fst <$> list_find (λ lead : Lead, company_name lead = c) leads.

(** A ranking of the companies of [leads]: every company once, with the
    number of its leads, the larger count first and, among equal counts,
    the company seen first in [leads] first. *)
Definition ranked (leads : list Lead) (ranking : list (string * nat)) : Prop :=
  NoDup ranking.*1
  ∧ (∀ c n, (c, n) ∈ ranking ↔ 0 < n ∧ n = company_count c leads)
  ∧ (∀ i j c1 n1 c2 n2,
       i < j → ranking !! i = Some (c1, n1) → ranking !! j = Some (c2, n2) →
       n2 < n1
       ∨ (n1 = n2 ∧ ∃ p1 p2, first_seen c1 leads = Some p1
                             ∧ first_seen c2 leads = Some p2 ∧ p1 < p2)).

(** The loop of [get_stats] on the company names alone. *)
Definition company_table (leads : list Lead) : list (string * nat) :=
  foldl (λ counts (lead : Lead), count_company (company_name lead) counts) [] leads.

End tallies.

(** ** database.py: the queries *)

(** [needle in s] as a test: [needle] starts [s] or is in its tail. *)
Fixpoint str_in (needle s : string) : bool :=
  Str.startswith needle s
  || match s with
     | EmptyString => false
     | String _ s' => str_in needle s'
     end.

Section queries.
Context `{!Datetime}.

Definition get_all_leads : M (list Lead) := load_leads.

(** The loop of [get_lead_by_id]. *)
Fixpoint get_lead_by_id_loop (lead_id : string) (leads : list Lead)
: option Lead :=
match leads with
| [] => None
| lead :: leads =>
    if bool_decide (id lead = lead_id) then Some lead
    else get_lead_by_id_loop lead_id leads
end.

Definition get_lead_by_id (lead_id : string) : M (option Lead) :=
leads ← load_leads;
mret (get_lead_by_id_loop lead_id leads).

(** The condition of the comprehension of [search_leads]. *)
Definition search_matches (query_lower : string) (lead : Lead) : bool :=
str_in query_lower (Str.lower (company_name lead))
|| str_in query_lower (Str.lower (contact_name lead))
|| str_in query_lower (Str.lower (email lead)).

Definition search_leads (query : string) : M (list Lead) :=
if negb (Str.truthy query) then load_leads
else
  let query_lower := Str.lower query in
  leads ← load_leads;
  mret (filter (λ lead, search_matches query_lower lead = true) leads).

(** The loop of [check_duplicate_email]; [exclude_id] is [None] or a
  string, and an identifier never equals [None]. *)
Fixpoint check_duplicate_email_loop (email_lower : string)
  (exclude_id : option string) (leads : list Lead) : bool :=
match leads with
| [] => false
| lead :: leads =>
    if bool_decide (Str.lower (email lead) = email_lower)
       && bool_decide (Some (id lead) ≠ exclude_id)
    then true
    else check_duplicate_email_loop email_lower exclude_id leads
end.

Definition check_duplicate_email (email : string)
  (exclude_id : option string) : M bool :=
leads ← load_leads;
let email_lower := Str.lower email in
mret (check_duplicate_email_loop email_lower exclude_id leads).

End queries.

(** ** utils.py

    [csv.writer] with the dialect it has by default: fields separated by a
    comma and records ended by a carriage return and a line feed; a field
    is written between double quotes, with its own double quotes doubled,
    when it holds one of these four characters, and as it is otherwise
    ([QUOTE_MINIMAL]); [None] is written as the empty field. *)

Module csv.

Definition delimiter : ascii := ",".
Definition quotechar : ascii := ascii_of_nat 34.
Definition CR : ascii := ascii_of_nat 13.
Definition LF : ascii := ascii_of_nat 10.
Definition lineterminator : string := String CR (String LF EmptyString).

(** The characters that make the writer quote the field they are in. *)
Definition special (c : ascii) : bool :=
Ascii.eqb c delimiter || Ascii.eqb c quotechar
|| Ascii.eqb c CR || Ascii.eqb c LF.

Fixpoint double_quotes (s : string) : string :=
match s with
| EmptyString => EmptyString
| String c s' =>
    if Ascii.eqb c quotechar
    then String quotechar (String quotechar (double_quotes s'))
    else String c (double_quotes s')
end.

Definition quoted (s : string) : string :=
String quotechar (double_quotes s +:+ String quotechar EmptyString).

(** The text of one field. *)
Definition field (v : option string) : string :=
let s := default EmptyString v in
if existsb special (Str.chars s) then quoted s else s.

Fixpoint join (fields : list string) : string :=
match fields with
| [] => EmptyString
| [f] => f
| f :: fields => f +:+ String delimiter (join fields)
end.

(** [writer.writerow(row)]; a record of one empty field is written as a
  pair of quotes, so that it is no empty line. *)
Definition writerow (row : list (option string)) : string :=
match join (field <$> row), row with
| EmptyString, [_] => quoted EmptyString +:+ lineterminator
| record, _ => record +:+ lineterminator
end.

End csv.

(** [strftime('%Y-%m-%d %H:%M:%S')] is an interface as well: its result
    is made of digits, hyphens, colons and one space. *)
Class Strftime `{Datetime} := {
  strftime : datetime → string;
  strftime_chars : ∀ d,
    Forall (λ c, Str.between 48 57 c = true ∨ c ∈ ["-"; ":"; " "]%char)
      (Str.chars (strftime d))
}.

Fixpoint concat_str (l : list string) : string :=
  match l with
  | [] => EmptyString
  | s :: l => s +:+ concat_str l
  end.

Section utils.
Context `{!Datetime} `{!Strftime}.

Definition fieldnames : list string :=
["ID"; "Company Name"; "Contact Name"; "Title"; "Email"; "LinkedIn URL";
 "Date Added"; "Status"; "Notes"].

(** The dict [export_leads_to_csv] passes to [writer.writerow], in the
  order of [fieldnames], which is the order [DictWriter] writes it in. *)
Definition row_of (lead : Lead) : list (option string) :=
[Some (id lead); Some (company_name lead); Some (contact_name lead);
 Some (title lead); Some (email lead); linkedin_url lead;
 Some (strftime (date_added lead)); Some (LeadStatus_.value (status lead));
 notes lead].

(** What [output] holds after [writeheader] and the loop. *)
Definition export_leads_to_csv (leads : list Lead) : string :=
csv.writerow (Some <$> fieldnames)
+:+ concat_str ((λ lead, csv.writerow (row_of lead)) <$> leads).

End utils.

(** ** main.py

    The bodies of the route functions. A route function returns a value or
    raises: an [HTTPException] of its own, or whatever a call into
    [database.py] raised and no [except] clause caught. [str(e)], the
    message of an exception, is kept as the exception it is the message
    of. What the framework does before the call (it builds [lead_data] with
    the model class) and after it (it serialises the value) is not part of
    the bodies. *)

Module main.

Inductive Detail :=
| Text (s : string)
| str_of (e : exn).

Inductive raised :=
| HTTPException (status_code : nat) (detail : Detail)
| Uncaught (e : exn).

Inductive reply (A : Type) :=
| Return (a : A)
| Raised (r : raised).
Arguments Return {A} a.
Arguments Raised {A} r.

Definition E (A : Type) : Type := Store → reply A * Store.

#[global] Instance E_ret : MRet E := λ A a st, (Return a, st).
#[global] Instance E_bind : MBind E := λ A B f m st,
match m st with
| (Return a, st') => f a st'
| (Raised r, st') => (Raised r, st')
end.

Definition raise_ {A} (r : raised) : E A := λ st, (Raised r, st).

(** A call into [database.py] outside any [try]. *)
Definition call {A} (m : M A) : E A := λ st,
match m st with
| (Ok a, st') => (Return a, st')
| (Raise e, st') => (Raised (Uncaught e), st')
end.

(** [isinstance(e, ValueError)]: the [ValidationError] of the model classes
  is a [ValueError]. *)
Definition is_ValueError (e : exn) : bool :=
match e with
| ValidationError | ValueError => true
| TypeError | AttributeError | KeyError => false
end.

(** [try: body / except Exception as e: raise HTTPException(500, str(e))],
  around calls into [database.py]. *)
Definition except_Exception {A} (body : M A) : E A := λ st,
match body st with
| (Ok a, st') => (Return a, st')
| (Raise e, st') => (Raised (HTTPException 500 (str_of e)), st')
end.

(** [try: body / except ValueError as e: raise HTTPException(400, str(e)) /
  except Exception as e: raise HTTPException(500, str(e))] *)
Definition except_ValueError {A} (body : M A) : E A := λ st,
match body st with
| (Ok a, st') => (Return a, st')
| (Raise e, st') =>
    (Raised (HTTPException (if is_ValueError e then 400 else 500) (str_of e)),
     st')
end.

(** The same with [except HTTPException: raise] before the two clauses: the
  body may raise an [HTTPException], which passes. *)
Definition except_HTTPException_ValueError {A} (body : E A) : E A := λ st,
match body st with
| (Raised (Uncaught e), st') =>
    (Raised (HTTPException (if is_ValueError e then 400 else 500) (str_of e)),
     st')
| r => r
end.

Record Response := {
content : option string;
status_code : nat;
media_type : option string;
headers : list (string * string)
}.

Section routes.
Context `{!Datetime} `{!SetIteration} `{!Strftime}.

Record LeadResponse := {
lead : Lead;
warning : option string
}.

(** [LeadResponse(lead=..., warning=...)]: [lead] is required and is no
[Optional]; a [Lead] object is taken as it is. *)
Definition LeadResponse_new (lead : option Lead) (warning : option string)
: result LeadResponse :=
match lead with
| Some lead => Ok {| lead := lead; warning := warning |}
| None => Raise ValidationError
end.

Definition get_leads (search : option string) : E (list Lead) :=
except_Exception
(match search with
 | Some q => if Str.truthy q then search_leads q else get_all_leads
 | None => get_all_leads
 end).

Definition get_lead (lead_id : string) : E Lead :=
lead ← call (get_lead_by_id lead_id);
match lead with
| None => raise_ (HTTPException 404 (Text "Lead not found"))
| Some lead => mret lead
end.

(** [create_lead] in the body is [db.create_lead]. *)
Definition create_lead (lead_data : LeadBase) (now : datetime)
(uuid : string) : E LeadResponse :=
except_ValueError
(is_duplicate ← check_duplicate_email (email lead_data) None;
 let warning :=
   if is_duplicate : bool
   then Some ("Warning: A lead with email " +:+ email lead_data
              +:+ " already exists")
   else None in
 new_lead ← create_lead lead_data now uuid;
 lift (LeadResponse_new (Some new_lead) warning)).

(** [update_lead] in the body is [db.update_lead]. *)
Definition update_lead (lead_id : string) (lead_data : LeadBase)
(now : datetime) : E LeadResponse :=
except_HTTPException_ValueError
(existing_lead ← call (get_lead_by_id lead_id);
 match existing_lead with
 | None => raise_ (HTTPException 404 (Text "Lead not found"))
 | Some _ =>
     is_duplicate ←
       call (check_duplicate_email (email lead_data) (Some lead_id));
     let warning :=
       if is_duplicate : bool
       then Some ("Warning: Another lead with email " +:+ email lead_data
                  +:+ " already exists")
       else None in
     updated_lead ← call (update_lead lead_id lead_data now);
     call (lift (LeadResponse_new updated_lead warning))
 end).

(** [delete_lead] in the body is [db.delete_lead]. *)
Definition delete_lead (lead_id : string) : E Response :=
success ← call (delete_lead lead_id);
if negb success then raise_ (HTTPException 404 (Text "Lead not found"))
else mret {| content := None; status_code := 204; media_type := None;
           headers := [] |}.

Definition export_leads : E Response :=
except_Exception
(leads ← get_all_leads;
 let csv_content := export_leads_to_csv leads in
 mret {| content := Some csv_content; status_code := 200;
         media_type := Some "text/csv";
         headers := [("Content-Disposition",
                      "attachment; filename=leads_export.csv")] |}).

Definition get_statistics : E Stats := except_Exception get_stats.

(** The two loops of [get_all_tags]; [tag_counts[tag] =
tag_counts.get(tag, 0) + 1] is the statement [count_company] stands
for. *)
Definition tag_counts_of (leads : list Lead) : list (string * nat) :=
foldl (λ tag_counts (lead : Lead),
       foldl (λ tag_counts tag, count_company tag tag_counts)
         tag_counts (tags lead))
[] leads.

(** An entry of ["tags"] is the pair of its ["name"] and its ["count"]. *)
Definition get_all_tags : E (list (string * nat)) :=
except_Exception
(leads ← get_all_leads;
 let tag_counts := tag_counts_of leads in
 let tags := sorted_reverse snd tag_counts in
 mret tags).

End routes.

End main.

(** ** What the properties of the model classes are measured against *)

(** The words of [[a-zA-Z0-9._-]+@[a-zA-Z0-9.-]+\.[a-zA-Z]{2,}]: a local
    part, ["@"], a domain, ["."] and a top-level name, each of the
    characters of its class and of the length the pattern asks for. *)
Definition address (l : list ascii) : Prop :=
  ∃ local dom tld,
    l = local ++ "@"%char :: dom ++ "."%char :: tld
    ∧ local ≠ [] ∧ Forall EmailPattern.local_class local
    ∧ dom ≠ [] ∧ Forall EmailPattern.domain_class dom
    ∧ 2 ≤ length tld ∧ Forall EmailPattern.alpha tld.

(** An object of a model class: what the class made of some input. *)
Definition model_object (d : LeadBase) : Prop :=
  ∃ raw, LeadBase_validate raw = Ok d.

(** ** What the properties of the store are measured against *)

Section store_invariant.
Context `{!Datetime} `{!SetIteration}.

(** A lead as the application leaves it: its fields satisfy the model, and
  its history starts with the one [created] entry it holds, made when the
  lead was added. *)
Definition well_formed (lead : Lead) : Prop :=
validated (base lead)
∧ ∃ a rest,
    activity_history lead = a :: rest
    ∧ type a = CREATED ∧ timestamp a = date_added lead
    ∧ Forall (λ b, type b ≠ CREATED) rest.

(** One call of an operation of [database.py] that may write, with an
  object of a model class where it takes one. *)
Inductive api_step : Store → Store → Prop :=
| step_load st r st' :
  load_leads st = (r, st') → api_step st st'
| step_create lead_data now uuid st r st' :
  model_object lead_data →
  create_lead lead_data now uuid st = (r, st') → api_step st st'
| step_update lead_id lead_data now st r st' :
  model_object lead_data →
  update_lead lead_id lead_data now st = (r, st') → api_step st st'
| step_delete lead_id st r st' :
  delete_lead lead_id st = (r, st') → api_step st st'.

(** The file is absent or holds leads that are all well formed. *)
Definition sound (st : Store) : Prop :=
leads_file st = None
∨ ∃ leads, leads_file st = Some (leads_data leads)
           ∧ Forall well_formed leads.

(** The stores the application gets to when it starts without a file. *)
Definition reachable (st : Store) : Prop :=
∃ st0, leads_file st0 = None ∧ rtc api_step st0 st.

End store_invariant.

(** ** What the tag counts are measured against *)

(** How often [x] stands in [l], and where it stands first. *)
Definition occurrences (x : string) (l : list string) : nat :=
  length (filter (λ y, y = x) l).

Definition first_at (x : string) (l : list string) : option nat :=
  fst <$> list_find (λ y, y = x) l.

(** The counting loop of [get_all_tags] and of [get_stats] on a list of
    keys. *)
Definition tally (ks : list string) : list (string * nat) :=
  foldl (λ T k, count_company k T) [] ks.

(** A ranking of the strings of [l]: every string once, with the number
    of its occurrences, the larger number first and, among equal numbers,
    the string that stands first in [l] first. *)
Definition ranking_of (l : list string) (ranking : list (string * nat))
  : Prop :=
  NoDup ranking.*1
  ∧ (∀ x n, (x, n) ∈ ranking ↔ 0 < n ∧ n = occurrences x l)
  ∧ (∀ i j x1 n1 x2 n2,
       i < j → ranking !! i = Some (x1, n1) → ranking !! j = Some (x2, n2) →
       n2 < n1
       ∨ (n1 = n2 ∧ ∃ p1 p2, first_at x1 l = Some p1
                             ∧ first_at x2 l = Some p2 ∧ p1 < p2)).

Section tags_of_leads.
Context `{!Datetime}.

(** The tags of all the leads, lead after lead, each with its repeats. *)
Definition all_tags (leads : list Lead) : list string :=
concat ((λ lead : Lead, tags lead) <$> leads).

End tags_of_leads.

(** ** What the export is measured against *)

(** A string that the writer leaves without quotes, and what follows a
    field in a record: a comma or a carriage return. *)
Definition plain (s : string) : Prop :=
  existsb csv.special (Str.chars s) = false.

Definition after_field (r : string) : Prop :=
  ∃ c r', r = String c r' ∧ (c = csv.delimiter ∨ c = csv.CR).

(** The number of line feeds in a string. *)
Definition line_feeds (s : string) : nat :=
  length (filter (λ c, c = csv.LF) (Str.chars s)).

Section columns_of_leads.
Context `{!Datetime} `{!Strftime}.

(** The nine values of a lead's record, [None] being the empty string. *)
Definition columns (lead : Lead) : list string :=
default EmptyString <$> row_of lead.

(** The seven of them that a client can fill with any text. *)
Definition free_text (lead : Lead) : list string :=
[id lead; company_name lead; contact_name lead; title lead; email lead;
 default EmptyString (linkedin_url lead); default EmptyString (notes lead)].

End columns_of_leads.

(** ** Instances used to run the model *)

Module IsoText.

Definition digit (c : ascii) : bool := Str.between 48 57 c.

(** [YYYY-MM-DDTHH:MM:SS], with [.ffffff] after it or not. *)
Definition shape (s : string) : bool :=
  match Str.chars s with
  | y1 :: y2 :: y3 :: y4 :: d1 :: m1 :: m2 :: d2 :: a1 :: a2 :: t
    :: h1 :: h2 :: c1 :: n1 :: n2 :: c2 :: s1 :: s2 :: frac =>
      forallb digit [y1; y2; y3; y4; m1; m2; a1; a2; h1; h2; n1; n2; s1; s2]
      && bool_decide ([d1; d2; t; c1; c2] = Str.chars "--T::")
      && match frac with
         | [] => true
         | p :: us =>
             Ascii.eqb p "."%char && forallb digit us
             && bool_decide (length us = 6)
         end
  | _ => false
  end.

(** A [datetime] kept as the text [isoformat] gives for it. *)
Definition t : Type := { s : string | shape s }.

Definition parse (s : string) : option t :=
  match decide (Is_true (shape s)) with
  | left H => Some (s ↾ H)
  | right _ => None
  end.

Lemma parse_proj1 (d : t) : parse (`d) = Some d.
Proof.
  destruct d as [s H]. unfold parse. simpl.
  destruct (decide (Is_true (shape s))) as [H'|[]]; [|done].
  f_equal. by apply (sig_eq_pi _).
Qed.

Lemma proj1_nonempty (d : t) : `d ≠ "".
Proof. destruct d as [s H]. simpl. by intros ->. Qed.

#[export] Instance iso_datetime : Datetime :=
  {| datetime := t; isoformat := proj1_sig; fromisoformat := parse;
     fromisoformat_isoformat := parse_proj1;
     isoformat_nonempty := proj1_nonempty |}.

(** Visiting a set in the order of [elements]. *)
#[export] Instance elements_order : SetIteration :=
  {| set_iter := elements; set_iter_perm := λ X, reflexivity _ |}.

Definition at_ (s : string) (H : shape s) : t := s ↾ H.

End IsoText.

(** ** A lead and three updates, used to run the model *)

Module Scenario.
Import IsoText.

Definition t0 : datetime := at_ "2024-01-02T03:04:05" I.
Definition t1 : datetime := at_ "2024-01-05T10:00:00.250000" I.
Definition t2 : datetime := at_ "2024-01-09T16:30:00" I.

Definition jane : LeadBase :=
  {| company_name := "Acme"; contact_name := "Jane Doe"; title := "CTO";
     email := "jane@acme.com";
     linkedin_url := Some "https://linkedin.com/in/jane";
     status := NOT_CONTACTED; notes := Some ""; tags := ["a"; "b"] |}.

(** The same fields with the status set to [contacted]. *)
Definition jane_contacted : LeadBase :=
  {| company_name := "Acme"; contact_name := "Jane Doe"; title := "CTO";
     email := "jane@acme.com";
     linkedin_url := Some "https://linkedin.com/in/jane";
     status := CONTACTED; notes := Some ""; tags := ["a"; "b"] |}.

(** [jane_contacted] with another company name and nothing else changed. *)
Definition jane_moved : LeadBase :=
  {| company_name := "Acme Corp"; contact_name := "Jane Doe"; title := "CTO";
     email := "jane@acme.com";
     linkedin_url := Some "https://linkedin.com/in/jane";
     status := CONTACTED; notes := Some ""; tags := ["a"; "b"] |}.

(** [jane] with a note and the tags [b], [c]. *)
Definition jane_noted : LeadBase :=
  {| company_name := "Acme"; contact_name := "Jane Doe"; title := "CTO";
     email := "jane@acme.com";
     linkedin_url := Some "https://linkedin.com/in/jane";
     status := RESPONDED; notes := Some "called back"; tags := ["b"; "c"] |}.

Definition bob : LeadBase :=
  {| company_name := "Initech"; contact_name := "Bob Roe"; title := "Buyer";
     email := "bob@initech.io"; linkedin_url := Some "";
     status := NOT_CONTACTED; notes := None; tags := [] |}.

(** The lead [create_lead] makes of [jane] at [t0]. *)
Definition lead0 : Lead :=
  {| base := jane; id := "lead-1"; date_added := t0; last_contacted := None;
     activity_history := [created_activity t0 jane] |}.

(** [lead0] after the update to [jane_contacted] at [t1]. *)
Definition lead1 : Lead :=
  {| base := jane_contacted; id := "lead-1"; date_added := t0;
     last_contacted := Some t1;
     activity_history :=
       [created_activity t0 jane;
        status_changed_activity t1 lead0 jane_contacted] |}.

Definition lead_bob : Lead :=
  {| base := bob; id := "lead-2"; date_added := t1; last_contacted := None;
     activity_history := [created_activity t1 bob] |}.

Fixpoint repeated (c : ascii) (n : nat) : string :=
  match n with
  | 0 => EmptyString
  | S n => String c (repeated c n)
  end.

(** What a client sends for [jane] with a profile address of 496
    characters and no scheme: within the bound of 500 as it stands, 504
    characters long once the validator has put [https://] before it. *)
Definition jane_long_url : LeadBase :=
  {| company_name := "Acme"; contact_name := "Jane Doe"; title := "CTO";
     email := "jane@acme.com";
     linkedin_url := Some ("linkedin.com/in/" +:+ repeated "x" 480);
     status := NOT_CONTACTED; notes := Some ""; tags := ["a"; "b"] |}.

Definition no_file : Store := {| leads_file := None; saves := 0 |}.

(** The store after [lead1] and [lead_bob] were saved. *)
Definition two_leads : Store :=
  {| leads_file := Some (leads_data [lead1; lead_bob]); saves := 3 |}.

End Scenario.

(** ** Files and records used to run the queries and the routes *)

Module Cases.
Import IsoText Scenario.

(** A file that holds [null]. *)
Definition null_file : Store := {| leads_file := Some JNull; saves := 0 |}.

(** The store after [create_lead] made [lead0] of [jane] without a file. *)
Definition one_lead : Store :=
{| leads_file := Some (leads_data [lead0]); saves := 1 |}.

(** A record with the six required keys, as an older version of the file
  would hold it. *)
Definition bare_record : gmap string json :=
{[ "id" := JStr "lead-9"; "company_name" := JStr "Acme";
   "contact_name" := JStr "Jane Doe"; "title" := JStr "CTO";
   "email" := JStr "Jane@Acme.com";
   "date_added" := JStr "2024-01-02T03:04:05" ]}.

Definition bare_fields : LeadBase :=
{| company_name := "Acme"; contact_name := "Jane Doe"; title := "CTO";
   email := "jane@acme.com"; linkedin_url := Some "";
   status := NOT_CONTACTED; notes := Some ""; tags := [] |}.

(** A file whose second record is [null]. *)
Definition second_record_null : gmap string json :=
{[ "leads" := JArr [dump_lead lead1; JNull] ]}.

Definition damaged_file : Store :=
{| leads_file := Some (JObj second_record_null); saves := 3 |}.

(** [bob] with the address of [jane], in capitals as a client may send
  it, and what the model class makes of it. *)
Definition bob_raw : LeadBase :=
{| company_name := "Initech"; contact_name := "Bob Roe"; title := "Buyer";
   email := "JANE@ACME.COM"; linkedin_url := None;
   status := NOT_CONTACTED; notes := None; tags := ["b"; "b"; "x"] |}.

Definition bob_as_jane : LeadBase :=
{| company_name := "Initech"; contact_name := "Bob Roe"; title := "Buyer";
   email := "jane@acme.com"; linkedin_url := Some "";
   status := NOT_CONTACTED; notes := None; tags := ["b"; "b"; "x"] |}.

(** [lead_bob] with empty notes in the place of [None]. *)
Definition lead_bob_blank : Lead :=
{| base := {| company_name := "Initech"; contact_name := "Bob Roe";
              title := "Buyer"; email := "bob@initech.io";
              linkedin_url := Some ""; status := NOT_CONTACTED;
              notes := Some ""; tags := [] |};
   id := "lead-2"; date_added := t1; last_contacted := None;
   activity_history := [created_activity t1 bob] |}.

(** [strftime] on the text of a date: its first nineteen characters, with
  a space for the [T] between the date and the time. *)
Definition date_char (c : ascii) : ascii :=
if Str.between 48 57 c || Ascii.eqb c "-" || Ascii.eqb c ":"
then c else " "%char.

Fixpoint date_text (s : string) : string :=
match s with
| EmptyString => EmptyString
| String c s => String (date_char c) (date_text s)
end.

Lemma date_text_chars s :
Forall (λ c, Str.between 48 57 c = true ∨ c ∈ ["-"; ":"; " "]%char)
  (Str.chars (date_text s)).
Proof.
induction s as [|c s IH]; [constructor|]. simpl. constructor; [|exact IH].
unfold date_char. destruct (Str.between 48 57 c) eqn:Hd; [by left|].
right. simpl.
destruct (Ascii.eqb c "-") eqn:H1; [apply Ascii.eqb_eq in H1; set_solver|].
destruct (Ascii.eqb c ":") eqn:H2; [apply Ascii.eqb_eq in H2; set_solver|].
set_solver.
Qed.

#[export] Instance iso_strftime : Strftime :=
{| strftime := λ d : datetime, date_text (String.substring 0 19 (`d));
   strftime_chars := λ d, date_text_chars _ |}.

End Cases.

(** * Properties of the model classes *)

Section strings_facts.
Import Str.
Implicit Types (s : string) (c : ascii).

Lemma append_cons c s s' : String c s +:+ s' = String c (s +:+ s').
Proof. done. Qed.

Lemma append_empty_r s : s +:+ "" = s.
Proof.
  induction s as [|c s IH]; [done|]. by rewrite append_cons, IH.
Qed.

Lemma lower_char_idemp c : lower_char (lower_char c) = lower_char c.
Proof. destruct c as [[] [] [] [] [] [] [] []]; reflexivity. Qed.

Lemma lower_idemp s : lower (lower s) = lower s.
Proof.
  induction s as [|c s IH]; [done|]. simpl. by rewrite lower_char_idemp, IH.
Qed.

Lemma length_lower s : String.length (lower s) = String.length s.
Proof. induction s as [|c s IH]; [done|]. simpl. by rewrite IH. Qed.

Lemma chars_lower s : chars (lower s) = lower_char <$> chars s.
Proof.
  unfold chars. induction s as [|c s IH]; [done|]. simpl. f_equal. exact IH.
Qed.

Lemma lstrip_head s :
  lstrip s = "" ∨ ∃ c s', lstrip s = String c s' ∧ isspace c = false.
Proof.
  induction s as [|c s IH]; [by left|]. simpl.
  destruct (isspace c) eqn:Hc; [done|]. right. by exists c, s.
Qed.

Lemma lstrip_fixed c s : isspace c = false → lstrip (String c s) = String c s.
Proof. intros Hc. simpl. by rewrite Hc. Qed.

Lemma rstrip_idemp s : rstrip (rstrip s) = rstrip s.
Proof.
  induction s as [|c s IH]; [done|]. simpl.
  destruct (rstrip s) as [|c' r] eqn:Hr.
  - destruct (isspace c) eqn:Hc; [done|]. simpl. by rewrite Hc.
  - simpl in *. by rewrite IH.
Qed.

Lemma rstrip_head c s :
  isspace c = false → ∃ r, rstrip (String c s) = String c r.
Proof.
  intros Hc. simpl. destruct (rstrip s) as [|c' r]; rewrite ?Hc; by eexists.
Qed.

Lemma strip_idemp s : strip (strip s) = strip s.
Proof.
  unfold strip. destruct (lstrip_head s) as [->|(c & s' & -> & Hc)]; [done|].
  destruct (rstrip_head c s' Hc) as [r Hr]. rewrite Hr.
  rewrite (lstrip_fixed c r Hc), <-Hr. apply rstrip_idemp.
Qed.

Lemma strip_head s :
  strip s = "" ∨ ∃ c r, strip s = String c r ∧ isspace c = false.
Proof.
  unfold strip. destruct (lstrip_head s) as [->|(c & s' & -> & Hc)]; [by left|].
  destruct (rstrip_head c s' Hc) as [r Hr]. right. by exists c, r.
Qed.

Lemma rstrip_app_fixed p s :
  s ≠ "" → rstrip s = s → rstrip (p +:+ s) = p +:+ s.
Proof.
  intros Hne Hs. induction p as [|c p IH]; [done|].
  rewrite append_cons. simpl. rewrite IH.
  destruct (p +:+ s) eqn:Hp; [|done]. by destruct p.
Qed.

End strings_facts.

Section email_facts.
Import Str EmailPattern.
Implicit Types (c sep : ascii) (l : list ascii).

Lemma lower_char_keeps c :
  Ascii.eqb (lower_char c) "@" = Ascii.eqb c "@"
  ∧ Ascii.eqb (lower_char c) "." = Ascii.eqb c "."
  ∧ Ascii.eqb (lower_char c) newline = Ascii.eqb c newline.
Proof. destruct c as [[] [] [] [] [] [] [] []]; by vm_compute. Qed.

Lemma lower_char_classes c :
  (local_class c = true → local_class (lower_char c) = true)
  ∧ (domain_class c = true → domain_class (lower_char c) = true)
  ∧ (alpha c = true → alpha (lower_char c) = true).
Proof. destruct c as [[] [] [] [] [] [] [] []]; by vm_compute. Qed.

Lemma split_first_lower sep l :
  (∀ c, Ascii.eqb (lower_char c) sep = Ascii.eqb c sep) →
  split_first sep (lower_char <$> l)
  = prod_map (fmap (M:=list) lower_char) (fmap (M:=list) lower_char)
    <$> split_first sep l.
Proof.
  intros Hsep. induction l as [|c l IH]; [done|]. csimpl.
  rewrite Hsep. destruct (Ascii.eqb c sep); [done|].
  rewrite IH. by destruct (split_first sep l) as [[a b]|].
Qed.

Lemma split_last_lower sep l :
  (∀ c, Ascii.eqb (lower_char c) sep = Ascii.eqb c sep) →
  split_last sep (lower_char <$> l)
  = prod_map (fmap (M:=list) lower_char) (fmap (M:=list) lower_char)
    <$> split_last sep l.
Proof.
  intros Hsep. unfold split_last.
  rewrite <-fmap_reverse, split_first_lower by done.
  destruct (split_first sep (reverse l)) as [[a b]|]; [|done].
  simpl. by rewrite !fmap_reverse.
Qed.

Lemma forallb_lower (P : ascii → bool) l :
  (∀ c, P c = true → P (lower_char c) = true) →
  forallb P l = true → forallb P (lower_char <$> l) = true.
Proof.
  intros HP. induction l as [|c l IH]; [done|]. csimpl.
  rewrite !andb_true_iff. intros [Hc Hl]. split; [by apply HP|by apply IH].
Qed.

Lemma nonempty_fmap {A B} (f : A → B) (l : list A) :
  nonempty (f <$> l) = nonempty l.
Proof. by destruct l. Qed.

Lemma fullmatch_lower l :
  fullmatch l = true → fullmatch (lower_char <$> l) = true.
Proof.
  unfold fullmatch.
  rewrite split_first_lower by (intros c; apply lower_char_keeps).
  destruct (split_first "@" l) as [[loc rest]|]; [|done]. simpl.
  rewrite split_last_lower by (intros c; apply lower_char_keeps).
  destruct (split_last "." rest) as [[dom tld]|]; simpl;
    [|by rewrite andb_false_r].
  rewrite !andb_true_iff, !nonempty_fmap, length_fmap.
  intros [[Hl1 Hl2] [[[Hd1 Hd2] Ht1] Ht2]].
  split_and!; try done; apply forallb_lower; try done;
    intros c; apply lower_char_classes.
Qed.

Lemma re_match_lower v : re_match v = true → re_match (lower v) = true.
Proof.
  unfold re_match. rewrite chars_lower, <-fmap_reverse, !orb_true_iff.
  intros [Hfull|Hnl]; [left; by apply fullmatch_lower|right].
  destruct (reverse (chars v)) as [|c body]; [done|]. csimpl.
  apply andb_true_iff in Hnl as [Hc Hbody].
  rewrite (proj2 (proj2 (lower_char_keeps c))), Hc. simpl.
  rewrite <-fmap_reverse. by apply fullmatch_lower.
Qed.

End email_facts.

Section validation_facts.

Lemma check_length_Ok lo hi v v' :
  check_length lo hi v = Ok v' ↔
  v' = v ∧ lo ≤ String.length v ≤ hi.
Proof.
  unfold check_length. destruct (_ && _) eqn:Hb.
  - apply andb_true_iff in Hb as [Hlo%Nat.leb_le Hhi%Nat.leb_le].
    split; [by intros [= <-]|by intros [-> _]].
  - apply andb_false_iff in Hb as [H1%Nat.leb_gt|H2%Nat.leb_gt];
      split; (done || intros [_ ?]; lia).
Qed.

Lemma check_length_pass lo hi v :
  lo ≤ String.length v ≤ hi → check_length lo hi v = Ok v.
Proof. intros. by apply check_length_Ok. Qed.

Lemma validate_email_again v v' :
  validate_email v = Ok v' → validate_email v' = Ok v'.
Proof.
  unfold validate_email. destruct (EmailPattern.re_match v) eqn:Hm; [|done].
  intros [= <-]. by rewrite re_match_lower, lower_idemp.
Qed.

Lemma validate_email_length v v' :
  validate_email v = Ok v' → String.length v' = String.length v.
Proof.
  unfold validate_email. destruct (EmailPattern.re_match v); [|done].
  intros [= <-]. apply length_lower.
Qed.

Lemma truthy_https w : Str.truthy ("https://" +:+ w) = true.
Proof. reflexivity. Qed.

Lemma startswith_https w :
  Str.startswith "https://" ("https://" +:+ w) = true.
Proof. by destruct w. Qed.

Lemma validate_linkedin_url_again v :
  validate_linkedin_url (Some (validate_linkedin_url v))
  = validate_linkedin_url v.
Proof.
  destruct v as [v|]; [|done]. unfold validate_linkedin_url.
  destruct (Str.truthy v && Str.truthy (Str.strip v)) eqn:Ht; [|done].
  apply andb_true_iff in Ht as [_ Ht].
  destruct (strip_head v) as [Hnil|(c & r & Hs & Hc)];
    [by rewrite Hnil in Ht|].
  destruct (negb _) eqn:Hp.
  - assert (Str.strip ("https://" +:+ Str.strip v) = "https://" +:+ Str.strip v)
      as Hfix.
    { unfold Str.strip at 1.
      change (Str.lstrip ("https://" +:+ Str.strip v))
        with ("https://" +:+ Str.strip v).
      apply rstrip_app_fixed; [by rewrite Hs|].
      unfold Str.strip. apply rstrip_idemp. }
    rewrite Hfix, truthy_https, startswith_https, orb_true_r. done.
  - by rewrite strip_idemp, Ht, Hp.
Qed.

#[local] Arguments validate_linkedin_url : simpl never.
#[local] Arguments validate_email : simpl never.
#[local] Arguments check_length : simpl never.

(** What a model class makes of its input satisfies the model, as long as
    the prefix the validator may have added left the URL within its bound. *)
Lemma validate_validated raw d :
  LeadBase_validate raw = Ok d →
  (∀ u, linkedin_url d = Some u → String.length u ≤ 500) →
  validated d.
Proof.
  unfold validated, LeadBase_validate. intros Hraw Hurl.
  destruct (check_length 1 200 (company_name raw)) as [company|] eqn:H1; [|done].
  destruct (check_length 1 200 (contact_name raw)) as [contact|] eqn:H2; [|done].
  destruct (check_length 1 200 (title raw)) as [ttl|] eqn:H3; [|done].
  destruct (check_length 5 200 (email raw)) as [mail|] eqn:H4; [|done].
  simpl in Hraw.
  destruct (validate_email mail) as [mail'|] eqn:H5; [|done].
  destruct (check_length_opt 500 (linkedin_url raw)) as [url|] eqn:H6; [|done].
  destruct (check_length_opt 2000 (notes raw)) as [nts|] eqn:H7; [|done].
  simpl in Hraw. injection Hraw as <-. simpl in Hurl. simpl.
  apply check_length_Ok in H1 as [-> H1], H2 as [-> H2], H3 as [-> H3],
    H4 as [-> H4].
  rewrite (check_length_pass 1 200 (company_name raw)) by done.
  rewrite (check_length_pass 1 200 (contact_name raw)) by done.
  rewrite (check_length_pass 1 200 (title raw)) by done. simpl.
  rewrite (check_length_pass 5 200 mail')
    by (by rewrite (validate_email_length _ _ H5)).
  simpl. rewrite (validate_email_again _ _ H5). simpl.
  rewrite (check_length_pass 0 500) by (split; [lia|by apply Hurl]). simpl.
  rewrite validate_linkedin_url_again.
  assert (check_length_opt 2000 nts = Ok nts) as ->; [|done].
  destruct (notes raw) as [n|]; simpl in H7; [|by injection H7 as <-].
  destruct (check_length 0 2000 n) as [n'|] eqn:Hn; [|done].
  injection H7 as <-. apply check_length_Ok in Hn as [-> Hn]. simpl.
  by rewrite check_length_pass.
Qed.

(** What it takes to satisfy the model, field by field. *)
Lemma validated_fields d :
  validated d ↔
  1 ≤ String.length (company_name d) ≤ 200
  ∧ 1 ≤ String.length (contact_name d) ≤ 200
  ∧ 1 ≤ String.length (title d) ≤ 200
  ∧ 5 ≤ String.length (email d) ≤ 200
  ∧ EmailPattern.re_match (email d) = true
  ∧ Str.lower (email d) = email d
  ∧ (∃ u, linkedin_url d = Some u ∧ String.length u ≤ 500
          ∧ validate_linkedin_url (Some u) = u)
  ∧ (∀ n, notes d = Some n → String.length n ≤ 2000).
Proof.
  unfold validated, LeadBase_validate.
  destruct d as [company contact ttl mail url stat nts tgs]. simpl. split.
  - intros Hd.
    destruct (check_length 1 200 company) as [company'|] eqn:H1; [|done].
    destruct (check_length 1 200 contact) as [contact'|] eqn:H2; [|done].
    destruct (check_length 1 200 ttl) as [ttl'|] eqn:H3; [|done].
    destruct (check_length 5 200 mail) as [mail'|] eqn:H4; [|done].
    simpl in Hd. unfold validate_email in Hd.
    apply check_length_Ok in H1 as [-> H1], H2 as [-> H2], H3 as [-> H3],
      H4 as [-> H4].
    destruct (EmailPattern.re_match mail) eqn:Hmatch; [|done]. simpl in Hd.
    destruct (check_length_opt 500 url) as [url'|] eqn:H6; [|done].
    destruct (check_length_opt 2000 nts) as [nts'|] eqn:H7; [|done].
    simpl in Hd. injection Hd as Hlower Hurl Hnts.
    split_and!; try lia; try done.
    + destruct url as [u|]; [|done]. simpl in H6.
      destruct (check_length 0 500 u) as [u'|] eqn:Hu; [|done].
      apply check_length_Ok in Hu as [-> [_ Hu]]. injection H6 as <-.
      exists u. split_and!; [done|done|]. by injection Hurl.
    + intros n ->. simpl in H7.
      destruct (check_length 0 2000 n) as [n'|] eqn:Hn; [|done].
      by apply check_length_Ok in Hn as [_ [_ ?]].
  - intros (H1 & H2 & H3 & H4 & Hmatch & Hlower & (u & -> & Hu & Hnorm) & Hnts).
    rewrite !check_length_pass by done. simpl.
    unfold validate_email. rewrite Hmatch, Hlower. simpl.
    rewrite check_length_pass by (split; [lia|done]). simpl.
    rewrite Hnorm.
    destruct nts as [n|]; simpl; [|done].
    by rewrite check_length_pass by (split; [lia|by apply Hnts]).
Qed.

Lemma LeadBase_validate_url_bound d d' :
  LeadBase_validate d = Ok d' →
  ∀ u, linkedin_url d = Some u → String.length u ≤ 500.
Proof.
  unfold LeadBase_validate. intros Hd u Hu. rewrite Hu in Hd.
  destruct (check_length 1 200 (company_name d)); [|done].
  destruct (check_length 1 200 (contact_name d)); [|done].
  destruct (check_length 1 200 (title d)); [|done].
  destruct (check_length 5 200 (email d)) as [mail|]; [|done].
  simpl in Hd. destruct (validate_email mail); [|done].
  simpl in Hd. destruct (check_length 0 500 u) as [u'|] eqn:Hlen; [|done].
  by apply check_length_Ok in Hlen as [_ [_ ?]].
Qed.

(** An object of a model class is accepted by the constructor of [Lead]
    exactly when it satisfies the model: the fields of every lead that
    [create_lead] or [update_lead] builds from such an object do. *)
Lemma model_object_accepted raw d :
  LeadBase_validate raw = Ok d →
  (∃ d', LeadBase_validate d = Ok d') ↔ validated d.
Proof.
  intros Hraw. split; [|by exists d].
  intros [d' Hd]. apply (validate_validated raw); [done|].
  by apply (LeadBase_validate_url_bound d d').
Qed.

End validation_facts.

(** * Properties of the history engine *)

Section history_facts.
Context `{!Datetime} `{!SetIteration}.
Implicit Types (lead new : Lead) (lead_data : LeadBase) (now : datetime).
Implicit Types (a : Activity) (acts : list Activity).

Lemma append_each_app {A} (f : A → Activity) xs acts :
  append_each f xs acts = acts ++ (f <$> xs).
Proof.
  unfold append_each. revert acts.
  induction xs as [|x xs IH]; intros acts; simpl.
  - by rewrite app_nil_r.
  - by rewrite IH, <-app_assoc.
Qed.

(** [update_entry] builds the lead from the old history followed by the
    parts, and from the date of last contact that the new status gives. *)
Lemma update_entry_parts lead lead_data now :
  update_entry lead lead_data now
  = Lead_new (id lead) (date_added lead)
      (if bool_decide (status lead_data ≠ status lead
                       ∧ status lead_data ≠ NOT_CONTACTED)
       then Some now else last_contacted lead)
      (activity_history lead ++ specific_part lead lead_data now
       ++ fallback_part lead lead_data now)
      lead_data.
Proof.
  unfold update_entry, fallback_part, specific_part, status_part,
    note_part, tag_added_part, tag_removed_part, added_tags, removed_tags.
  set (h := activity_history lead).
  assert ((if bool_decide (status lead_data ≠ status lead)
           then (h ++ [status_changed_activity now lead lead_data],
                 if bool_decide (LeadStatus_.value (status lead_data)
                                 ∈ ["contacted"; "responded"])
                 then Some now else last_contacted lead)
           else (h, last_contacted lead))
          = (h ++ (if bool_decide (status lead_data ≠ status lead)
                   then [status_changed_activity now lead lead_data]
                   else []),
             if bool_decide (status lead_data ≠ status lead
                             ∧ status lead_data ≠ NOT_CONTACTED)
             then Some now else last_contacted lead)) as ->.
  { destruct (decide (status lead_data = status lead)) as [Heq|Hne].
    - rewrite !bool_decide_eq_false_2 by tauto. by rewrite app_nil_r.
    - rewrite (bool_decide_eq_true_2 (status lead_data ≠ status lead)) by done.
      f_equal. destruct (status lead_data).
      + change (bool_decide (LeadStatus_.value NOT_CONTACTED
                             ∈ ["contacted"; "responded"])) with false.
        by rewrite bool_decide_eq_false_2 by tauto.
      + change (bool_decide (LeadStatus_.value CONTACTED
                             ∈ ["contacted"; "responded"])) with true.
        by rewrite bool_decide_eq_true_2 by done.
      + change (bool_decide (LeadStatus_.value RESPONDED
                             ∈ ["contacted"; "responded"])) with true.
        by rewrite bool_decide_eq_true_2 by done. }
  set (sp := if bool_decide _ then [_] else []).
  set (n := match notes lead_data with Some _ => _ | None => _ end).
  assert (n = (h ++ sp) ++
    match notes lead_data with
    | Some new_notes =>
        if notes_changed lead_data lead
        then [note_added_activity now new_notes] else []
    | None => []
    end) as ->.
  { subst n. destruct (notes lead_data); [|by rewrite app_nil_r].
    destruct (notes_changed _ _); [done|by rewrite app_nil_r]. }
  rewrite !append_each_app, <-!app_assoc.
  destruct (last_is_tracked _); simpl; by rewrite ?app_nil_r.
Qed.

Lemma update_entry_ok lead lead_data now :
  validated lead_data →
  update_entry lead lead_data now
  = Ok {| base := lead_data; id := id lead; date_added := date_added lead;
          last_contacted :=
            if bool_decide (status lead_data ≠ status lead
                            ∧ status lead_data ≠ NOT_CONTACTED)
            then Some now else last_contacted lead;
          activity_history :=
            activity_history lead ++ specific_part lead lead_data now
            ++ fallback_part lead lead_data now |}.
Proof. intros Hv. rewrite update_entry_parts. unfold Lead_new. by rewrite Hv. Qed.

Lemma update_entry_inv lead lead_data now new :
  update_entry lead lead_data now = Ok new →
  id new = id lead ∧ date_added new = date_added lead
  ∧ last_contacted new
    = (if bool_decide (status lead_data ≠ status lead
                       ∧ status lead_data ≠ NOT_CONTACTED)
       then Some now else last_contacted lead)
  ∧ activity_history new
    = activity_history lead ++ specific_part lead lead_data now
      ++ fallback_part lead lead_data now
  ∧ LeadBase_validate lead_data = Ok (base new).
Proof.
  rewrite update_entry_parts. unfold Lead_new.
  destruct (LeadBase_validate lead_data); [|done].
  simpl. by intros [= <-].
Qed.

Lemma appended_parts lead lead_data now new :
  update_entry lead lead_data now = Ok new →
  activity_history new = activity_history lead ++ appended lead new
  ∧ appended lead new
    = specific_part lead lead_data now ++ fallback_part lead lead_data now.
Proof.
  intros (_ & _ & _ & Hh & _)%update_entry_inv. unfold appended.
  by rewrite Hh, drop_app_length.
Qed.

End history_facts.

Section history_claims.
Context `{!Datetime} `{!SetIteration}.
Implicit Types (lead new : Lead) (lead_data : LeadBase) (now : datetime).
Implicit Types (a : Activity) (acts : list Activity).

(** *** The type of the entries of each part *)

Lemma status_part_type lead lead_data now :
  Forall (has_type STATUS_CHANGED) (status_part lead lead_data now).
Proof. unfold status_part. case_bool_decide; repeat constructor. Qed.

Lemma note_part_type lead lead_data now :
  Forall (has_type NOTE_ADDED) (note_part lead lead_data now).
Proof.
  unfold note_part. destruct (notes lead_data); [|constructor].
  destruct (notes_changed _ _); repeat constructor.
Qed.

Lemma tag_added_part_type lead lead_data now :
  Forall (has_type TAG_ADDED) (tag_added_part lead lead_data now).
Proof. unfold tag_added_part. apply Forall_fmap, Forall_true. done. Qed.

Lemma tag_removed_part_type lead lead_data now :
  Forall (has_type TAG_REMOVED) (tag_removed_part lead lead_data now).
Proof. unfold tag_removed_part. apply Forall_fmap, Forall_true. done. Qed.

Lemma fallback_part_type lead lead_data now :
  Forall (has_type UPDATED) (fallback_part lead lead_data now).
Proof. unfold fallback_part. destruct (last_is_tracked _); repeat constructor. Qed.

Lemma filter_type t t' acts :
  Forall (has_type t') acts →
  filter (has_type t) acts = if decide (t = t') then acts else [].
Proof.
  intros Hall. case_decide as Ht.
  - subst t'. induction Hall as [|a acts Ha _ IH]; [done|].
    rewrite filter_cons_True by done. by rewrite IH.
  - induction Hall as [|a acts Ha _ IH]; [done|].
    rewrite filter_cons_False; [done|]. unfold has_type in *. congruence.
Qed.

(** The entries of one type among the appended activities come from one
    part only. *)
Ltac pick_part :=
  rewrite ?filter_app;
  rewrite ?(filter_type _ _ _ (status_part_type _ _ _)),
    ?(filter_type _ _ _ (note_part_type _ _ _)),
    ?(filter_type _ _ _ (tag_added_part_type _ _ _)),
    ?(filter_type _ _ _ (tag_removed_part_type _ _ _)),
    ?(filter_type _ _ _ (fallback_part_type _ _ _));
  repeat case_decide; try discriminate; rewrite ?app_nil_r; simpl.

Lemma appended_by_type lead lead_data now new :
  update_entry lead lead_data now = Ok new →
  filter (has_type STATUS_CHANGED) (appended lead new)
    = status_part lead lead_data now
  ∧ filter (has_type NOTE_ADDED) (appended lead new)
    = note_part lead lead_data now
  ∧ filter (has_type TAG_ADDED) (appended lead new)
    = tag_added_part lead lead_data now
  ∧ filter (has_type TAG_REMOVED) (appended lead new)
    = tag_removed_part lead lead_data now
  ∧ filter (has_type UPDATED) (appended lead new)
    = fallback_part lead lead_data now
  ∧ filter (has_type CREATED) (appended lead new) = [].
Proof.
  intros [_ ->]%appended_parts. unfold specific_part.
  repeat split; by pick_part.
Qed.

(** C5: an update accepted by the model keeps the identifier and the date
    of creation of the lead, and its history is the old history, entry for
    entry, followed by what the update appended: the status entry, the
    note entry, the added tags, the removed tags and the fallback entry,
    in this order. *)
Theorem update_keeps_identity_and_history lead lead_data now :
  validated lead_data →
  ∃ new, update_entry lead lead_data now = Ok new
    ∧ id new = id lead
    ∧ date_added new = date_added lead
    ∧ activity_history new = activity_history lead ++ appended lead new
    ∧ (∀ i a, activity_history lead !! i = Some a →
              activity_history new !! i = Some a)
    ∧ appended lead new
      = status_part lead lead_data now ++ note_part lead lead_data now
        ++ tag_added_part lead lead_data now
        ++ tag_removed_part lead lead_data now
        ++ fallback_part lead lead_data now.
Proof.
  intros Hv. eexists. split; [by apply update_entry_ok|].
  pose proof (update_entry_ok lead lead_data now Hv) as Hok.
  destruct (appended_parts _ _ _ _ Hok) as [Hh Ha].
  split_and!; [done|done|done| |].
  - intros i a Hi. rewrite Hh. by apply lookup_app_l_Some.
  - rewrite Ha. unfold specific_part. by rewrite <-!app_assoc.
Qed.

End history_claims.

Section history_claims2.
Context `{!Datetime} `{!SetIteration}.
Implicit Types (lead new : Lead) (lead_data : LeadBase) (now : datetime).
Implicit Types (a : Activity) (acts : list Activity).

(** C2: when the new status differs from the old one the update appends
    exactly one [status_changed] entry, and the date of last contact
    becomes the time of the update if the new status is [contacted] or
    [responded] and stays as it was otherwise; when the status is
    unchanged no such entry is appended and the date stays as it was. *)
Theorem status_change_recorded lead lead_data now :
  validated lead_data →
  ∃ new, update_entry lead lead_data now = Ok new
    ∧ (status lead_data ≠ status lead →
         length (filter (has_type STATUS_CHANGED) (appended lead new)) = 1
         ∧ (status lead_data = CONTACTED ∨ status lead_data = RESPONDED →
              last_contacted new = Some now)
         ∧ (status lead_data = NOT_CONTACTED →
              last_contacted new = last_contacted lead))
    ∧ (status lead_data = status lead →
         filter (has_type STATUS_CHANGED) (appended lead new) = []
         ∧ last_contacted new = last_contacted lead).
Proof.
  intros Hv. eexists. split; [by apply update_entry_ok|].
  pose proof (update_entry_ok lead lead_data now Hv) as Hok.
  destruct (appended_by_type _ _ _ _ Hok) as (-> & _).
  simpl. unfold status_part. split.
  - intros Hne. rewrite bool_decide_eq_true_2 by done. split_and!; [done| |].
    + intros Hs. rewrite bool_decide_eq_true_2; [done|].
      split; [done|]. destruct Hs as [-> | ->]; done.
    + intros Hs. rewrite bool_decide_eq_false_2; [done|]. tauto.
  - intros Heq. rewrite bool_decide_eq_false_2 by tauto.
    rewrite bool_decide_eq_false_2 by tauto. done.
Qed.

Lemma slice_to_prefix n s :
  ∃ rest, s = Str.slice_to n s +:+ rest
          ∧ String.length (Str.slice_to n s) = n `min` String.length s.
Proof.
  unfold Str.slice_to. revert n. induction s as [|c s IH]; intros [|n]; simpl.
  - by exists "".
  - by exists "".
  - by exists (String c s).
  - destruct (IH n) as (rest & Hs & Hl). exists rest. split; [|by rewrite Hl].
    change (String c s = String c (String.substring 0 n s +:+ rest)).
    by rewrite <-Hs.
Qed.

Lemma notes_changed_spec lead lead_data :
  notes_changed lead_data lead = true
  ↔ ∃ s, notes lead_data = Some s ∧ s ≠ "" ∧ notes lead_data ≠ notes lead.
Proof.
  unfold notes_changed. destruct (notes lead_data) as [s|].
  - rewrite andb_true_iff, bool_decide_eq_true. split.
    + intros [Ht Hne]. exists s. split_and!; [done| |done]. by intros ->.
    + intros (s' & [= <-] & Hs & Hne). split; [|done]. by destruct s.
  - split; [done|]. by intros (s & ? & _).
Qed.

(** C4: the update appends a [note_added] entry exactly when the new
    notes are neither [None] nor empty and differ from the old notes; it
    is then the only such entry, and its details are the first 100
    characters of the new notes (all of them when there are fewer). *)
Theorem note_change_recorded lead lead_data now :
  validated lead_data →
  ∃ new, update_entry lead lead_data now = Ok new
    ∧ ((∃ a, a ∈ appended lead new ∧ type a = NOTE_ADDED)
       ↔ (∃ s, notes lead_data = Some s ∧ s ≠ ""
               ∧ notes lead_data ≠ notes lead))
    ∧ (∀ s, notes lead_data = Some s → s ≠ "" →
            notes lead_data ≠ notes lead →
            ∃ a d rest,
              filter (has_type NOTE_ADDED) (appended lead new) = [a]
              ∧ details a = Some d
              ∧ s = d +:+ rest
              ∧ String.length d = 100 `min` String.length s).
Proof.
  intros Hv. eexists. split; [by apply update_entry_ok|].
  pose proof (update_entry_ok lead lead_data now Hv) as Hok.
  destruct (appended_by_type _ _ _ _ Hok) as (_ & Hn & _).
  set (new := {| base := lead_data |}) in *.
  assert ((∃ a, a ∈ appended lead new ∧ type a = NOTE_ADDED)
          ↔ note_part lead lead_data now ≠ []) as ->.
  { rewrite <-Hn. split.
    - intros (a & Ha & Ht) Hnil.
      assert (a ∈ filter (has_type NOTE_ADDED) (appended lead new)) as Hin
        by (by apply list_elem_of_filter).
      rewrite Hnil in Hin. by apply elem_of_nil in Hin.
    - destruct (filter _ _) as [|a l] eqn:Hf; [done|]. intros _.
      assert (a ∈ filter (has_type NOTE_ADDED) (appended lead new)) as Hin
        by (rewrite Hf; left).
      apply list_elem_of_filter in Hin as [Ht Hin]. by exists a. }
  rewrite Hn. rewrite <-notes_changed_spec. unfold note_part. split.
  - destruct (notes lead_data) as [s|] eqn:Hs.
    + destruct (notes_changed lead_data lead); split; done.
    + split; [done|]. unfold notes_changed. by rewrite Hs.
  - intros s Hs Hne Hdiff.
    assert (notes_changed lead_data lead = true) as Hc
      by (apply notes_changed_spec; eauto).
    rewrite Hs, Hc.
    destruct (slice_to_prefix 100 s) as (rest & Hr & Hl).
    by exists (note_added_activity now s), (Str.slice_to 100 s), rest.
Qed.

End history_claims2.

Section history_claims3.
Context `{!Datetime} `{!SetIteration}.
Implicit Types (lead new : Lead) (lead_data : LeadBase) (now : datetime).
Implicit Types (a : Activity) (acts : list Activity) (X : gset string).

Lemma set_iter_NoDup X : NoDup (set_iter X).
Proof. rewrite set_iter_perm. apply NoDup_elements. Qed.

Lemma elem_of_set_iter X tag : tag ∈ set_iter X ↔ tag ∈ X.
Proof. rewrite set_iter_perm. apply elem_of_elements. Qed.

Lemma length_set_iter X : length (set_iter X) = size X.
Proof. by rewrite set_iter_perm. Qed.

Lemma set_iter_nil X : set_iter X = [] ↔ X = ∅.
Proof.
  rewrite <-(leibniz_equiv_iff X ∅), <-elements_empty_iff.
  rewrite <-!Permutation_nil_r. by rewrite set_iter_perm.
Qed.

Lemma one_entry_per_tag (f : string → Activity) (g : string → string)
    (l : list string) tag :
  (∀ t, description (f t) = g t) → Inj (=) (=) g → NoDup l → tag ∈ l →
  length (filter (λ a, description a = g tag) (f <$> l)) = 1.
Proof.
  intros Hd Hg Hnd.
  assert (∀ l', tag ∉ l' →
    filter (λ a, description a = g tag) (f <$> l') = []) as Hnone.
  { induction l' as [|t l' IH]; [done|]. intros Hnotin.
    apply not_elem_of_cons in Hnotin as [Hne Hnotin].
    rewrite fmap_cons, filter_cons_False; [by apply IH|].
    rewrite Hd. by intros ?%Hg. }
  induction Hnd as [|t l Hnotin _ IH]; intros Hin.
  - by apply elem_of_nil in Hin.
  - rewrite fmap_cons. apply elem_of_cons in Hin as [<- | Hin].
    + rewrite filter_cons_True by apply Hd. by rewrite Hnone.
    + rewrite filter_cons_False; [by apply IH|].
      rewrite Hd. intros ->%Hg. done.
Qed.

#[local] Instance tag_added_description_inj : Inj (=) (=) (λ t, "Tag added: " +:+ t).
Proof. intros t1 t2 Heq. simpl in Heq. by simplify_eq. Qed.

#[local] Instance tag_removed_description_inj :
  Inj (=) (=) (λ t, "Tag removed: " +:+ t).
Proof. intros t1 t2 Heq. simpl in Heq. by simplify_eq. Qed.

Lemma elem_of_added_tags lead lead_data tag :
  tag ∈ added_tags lead lead_data ↔ tag ∈ tags lead_data ∧ tag ∉ tags lead.
Proof. unfold added_tags. set_solver. Qed.

Lemma elem_of_removed_tags lead lead_data tag :
  tag ∈ removed_tags lead lead_data ↔ tag ∈ tags lead ∧ tag ∉ tags lead_data.
Proof. unfold removed_tags. set_solver. Qed.

Lemma tags_differ lead lead_data :
  list_to_set (tags lead_data) ≠@{gset string} list_to_set (tags lead) →
  added_tags lead lead_data ≠ ∅ ∨ removed_tags lead lead_data ≠ ∅.
Proof.
  intros Hne.
  destruct (decide (added_tags lead lead_data = ∅)) as [Ha|Ha]; [|by left].
  destruct (decide (removed_tags lead lead_data = ∅)) as [Hr|Hr]; [|by right].
  exfalso. apply Hne. unfold added_tags, removed_tags in *.
  apply set_eq. intros x. split; intros Hx.
  - destruct (decide (x ∈@{gset string} list_to_set (tags lead))); set_solver.
  - destruct (decide (x ∈@{gset string} list_to_set (tags lead_data))); set_solver.
Qed.

Lemma last_of_typed t acts :
  Forall (has_type t) acts → acts ≠ [] →
  ∃ a, last acts = Some a ∧ type a = t.
Proof.
  intros Hall Hne. destruct (last acts) as [a|] eqn:Hl.
  - exists a. split; [done|].
    apply last_Some_elem_of in Hl. by eapply Forall_forall in Hall.
  - by apply last_None in Hl.
Qed.

Lemma tag_change_is_tracked lead lead_data now :
  added_tags lead lead_data ≠ ∅ ∨ removed_tags lead lead_data ≠ ∅ →
  fallback_part lead lead_data now = [].
Proof.
  intros Hch. unfold fallback_part.
  assert (last_is_tracked
    (activity_history lead ++ specific_part lead lead_data now) = true)
    as ->; [|done].
  unfold last_is_tracked, specific_part. rewrite !app_assoc, last_app.
  destruct (decide (removed_tags lead lead_data = ∅)) as [Hr|Hr].
  - assert (tag_removed_part lead lead_data now = []) as ->.
    { unfold tag_removed_part. apply set_iter_nil in Hr. by rewrite Hr. }
    simpl. rewrite last_app. destruct Hch as [Ha|]; [|done].
    destruct (last_of_typed TAG_ADDED (tag_added_part lead lead_data now))
      as (a & -> & Ht).
    + apply tag_added_part_type.
    + unfold tag_added_part. intros Hnil%fmap_nil_inv. by apply set_iter_nil in Hnil.
    + rewrite Ht. done.
  - destruct (last_of_typed TAG_REMOVED (tag_removed_part lead lead_data now))
      as (a & -> & Ht).
    + apply tag_removed_part_type.
    + unfold tag_removed_part. intros Hnil%fmap_nil_inv. by apply set_iter_nil in Hnil.
    + rewrite Ht. done.
Qed.

Lemma typed_before_typed (t1 t2 : ActivityType) (l r : list Activity) i j a b :
  Forall (λ x, type x ≠ t2) l → Forall (λ x, type x ≠ t1) r →
  (l ++ r) !! i = Some a → (l ++ r) !! j = Some b →
  type a = t1 → type b = t2 → i < j.
Proof.
  intros Hl Hr Hi Hj Ha Hb.
  apply lookup_app_Some in Hi as [Hi | [Hlen Hi]].
  - apply lookup_app_Some in Hj as [Hj | [Hlen Hj]].
    + apply list_elem_of_lookup_2 in Hj.
      by eapply Forall_forall in Hl.
    + apply lookup_lt_Some in Hi. lia.
  - apply list_elem_of_lookup_2 in Hi. by eapply Forall_forall in Hr.
Qed.

(** C3: every tag of the new list that is not in the old one gets exactly
    one [tag_added] entry and there are no other [tag_added] entries; the
    same holds for the tags that disappeared and [tag_removed]; every
    [tag_added] entry stands before every [tag_removed] entry; and when
    the two sets of tags differ no [updated] entry is appended. This holds
    whatever order the sets are visited in. *)
Theorem tag_changes_recorded lead lead_data now :
  validated lead_data →
  ∃ new, update_entry lead lead_data now = Ok new
    ∧ (∀ tag, tag ∈ tags lead_data → tag ∉ tags lead →
         length (filter (λ a, description a = "Tag added: " +:+ tag)
                   (filter (has_type TAG_ADDED) (appended lead new))) = 1)
    ∧ length (filter (has_type TAG_ADDED) (appended lead new))
      = size (added_tags lead lead_data)
    ∧ (∀ tag, tag ∈ tags lead → tag ∉ tags lead_data →
         length (filter (λ a, description a = "Tag removed: " +:+ tag)
                   (filter (has_type TAG_REMOVED) (appended lead new))) = 1)
    ∧ length (filter (has_type TAG_REMOVED) (appended lead new))
      = size (removed_tags lead lead_data)
    ∧ (∀ i j a b,
         appended lead new !! i = Some a → appended lead new !! j = Some b →
         type a = TAG_ADDED → type b = TAG_REMOVED → i < j)
    ∧ (list_to_set (tags lead_data) ≠@{gset string} list_to_set (tags lead) →
       ∀ a, a ∈ appended lead new → type a ≠ UPDATED).
Proof.
  intros Hv. eexists. split; [by apply update_entry_ok|].
  pose proof (update_entry_ok lead lead_data now Hv) as Hok.
  destruct (appended_by_type _ _ _ _ Hok) as (_ & _ & Hadd & Hrem & Hupd & _).
  destruct (appended_parts _ _ _ _ Hok) as [_ Happ].
  set (new := {| base := lead_data |}) in *.
  rewrite Hadd, Hrem. split_and!.
  - intros tag Hin Hnotin. unfold tag_added_part.
    apply (one_entry_per_tag _ (λ t, "Tag added: " +:+ t)); [done|apply _|..].
    + apply set_iter_NoDup.
    + by apply elem_of_set_iter, elem_of_added_tags.
  - unfold tag_added_part. by rewrite length_fmap, length_set_iter.
  - intros tag Hin Hnotin. unfold tag_removed_part.
    apply (one_entry_per_tag _ (λ t, "Tag removed: " +:+ t)); [done|apply _|..].
    + apply set_iter_NoDup.
    + by apply elem_of_set_iter, elem_of_removed_tags.
  - unfold tag_removed_part. by rewrite length_fmap, length_set_iter.
  - intros i j a b. rewrite Happ. unfold specific_part.
    rewrite <-!app_assoc.
    rewrite (app_assoc (status_part _ _ _)), (app_assoc (_ ++ _)).
    apply typed_before_typed.
    + rewrite !Forall_app. split_and!.
      * eapply Forall_impl; [apply status_part_type|]. by intros x ->.
      * eapply Forall_impl; [apply note_part_type|]. by intros x ->.
      * eapply Forall_impl; [apply tag_added_part_type|]. by intros x ->.
    + rewrite !Forall_app. split_and!.
      * eapply Forall_impl; [apply tag_removed_part_type|]. by intros x ->.
      * eapply Forall_impl; [apply fallback_part_type|]. by intros x ->.
  - intros Hne%tags_differ a Hin Ht.
    assert (a ∈ filter (has_type UPDATED) (appended lead new)) as Hin'
      by (by apply list_elem_of_filter).
    rewrite Hupd, tag_change_is_tracked in Hin' by done.
    by apply elem_of_nil in Hin'.
Qed.

End history_claims3.

Section untracked_updates.
Context `{!Datetime} `{!SetIteration}.
Implicit Types (lead new : Lead) (lead_data : LeadBase) (now : datetime).

(** What an update appends when the status, the notes and the tags stay as
    they are: the fallback test reads the last entry of the whole list,
    which is then the last entry of the old history. *)
Lemma untracked_update_appended lead lead_data now new :
  update_entry lead lead_data now = Ok new →
  status lead_data = status lead → notes lead_data = notes lead →
  tags lead_data = tags lead →
  appended lead new
  = if last_is_tracked (activity_history lead) then []
    else [updated_activity now].
Proof.
  intros [_ ->]%appended_parts Hs Hn Ht.
  assert (specific_part lead lead_data now = []) as Hnil.
  { unfold specific_part, status_part, note_part, tag_added_part,
      tag_removed_part, added_tags, removed_tags, notes_changed.
    rewrite Hs, Hn, Ht, difference_diag_L.
    assert (set_iter ∅ = []) as -> by by apply set_iter_nil.
    rewrite (bool_decide_eq_false_2 (status lead ≠ status lead)) by tauto.
    destruct (notes lead) as [s|]; [|done].
    rewrite bool_decide_eq_false_2 by tauto. by rewrite andb_false_r. }
  unfold fallback_part. by rewrite Hnil, app_nil_r.
Qed.

End untracked_updates.

(** * Properties of the store *)

Section store_facts.
Context `{!Datetime} `{!SetIteration}.
Implicit Types (lead new : Lead) (lead_data : LeadBase) (now : datetime).
Implicit Types (leads : list Lead) (st : Store).

Lemma bind_run {A B} (m : M A) (f : A → M B) st :
  (m ≫= f) st
  = match m st with
    | (Ok a, st') => f a st'
    | (Raise e, st') => (Raise e, st')
    end.
Proof. done. Qed.

Lemma bind_ok {A B} (m : M A) (f : A → M B) st a st' :
  m st = (Ok a, st') → (m ≫= f) st = f a st'.
Proof. intros Hm. by rewrite bind_run, Hm. Qed.

Lemma with_file_id st : is_Some (leads_file st) → with_file st = st.
Proof. destruct st as [[f|] n]; [done|]. by intros [? [=]]. Qed.

Lemma with_file_idemp st : with_file (with_file st) = with_file st.
Proof. done. Qed.

Lemma ensure_run st : ensure_data_file_exists st = (Ok (), with_file st).
Proof. destruct st as [[f|] n]; done. Qed.

Lemma save_leads_run leads st :
  save_leads leads st
  = (Ok (), {| leads_file := Some (leads_data leads); saves := S (saves st) |}).
Proof.
  unfold save_leads. rewrite bind_run, ensure_run. done.
Qed.

Lemma load_leads_run st :
  load_leads st
  = (parse_document (default empty_document (leads_file st)), with_file st).
Proof.
  unfold load_leads. rewrite bind_run, ensure_run. done.
Qed.

Lemma load_leads_store st r st1 : load_leads st = (r, st1) → st1 = with_file st.
Proof. rewrite load_leads_run. by intros [= _ <-]. Qed.

Lemma load_leads_again st r st1 :
  load_leads st = (r, st1) → load_leads st1 = (r, st1).
Proof. rewrite !load_leads_run. by intros [= <- <-]. Qed.

End store_facts.

Section store_claims.
Context `{!Datetime} `{!SetIteration}.
Implicit Types (lead new : Lead) (lead_data : LeadBase) (now : datetime).
Implicit Types (leads : list Lead) (st : Store).

Lemma contains_suffix (pre s : string) : Str.contains s (pre +:+ s).
Proof. exists pre, "". by rewrite append_empty_r. Qed.

(** C6: on a store that loads, creating a lead from a field set that
    satisfies the model returns a lead whose history is the single entry
    [created], with the contact name in its description; the lead has no
    date of last contact, was added at the time of the call, carries the
    fresh identifier and the given fields, and is written to the file after
    the leads that were there. *)
Theorem create_lead_seeds_history lead_data now uuid st leads st1 :
  validated lead_data →
  load_leads st = (Ok leads, st1) →
  ∃ lead st' a,
    create_lead lead_data now uuid st = (Ok lead, st')
    ∧ activity_history lead = [a]
    ∧ type a = CREATED
    ∧ Str.contains (contact_name lead_data) (description a)
    ∧ last_contacted lead = None
    ∧ date_added lead = now
    ∧ id lead = uuid
    ∧ base lead = lead_data
    ∧ leads_file st' = Some (leads_data (leads ++ [lead]))
    ∧ saves st' = S (saves st).
Proof.
  intros Hv Hload. unfold create_lead.
  rewrite (bind_ok _ _ _ _ _ Hload).
  unfold lift, Lead_new. rewrite Hv. simpl.
  rewrite bind_run. simpl. rewrite bind_run, save_leads_run. simpl.
  do 3 eexists. split; [done|]. simpl.
  split_and!; try done; [apply contains_suffix|].
  by rewrite (load_leads_store _ _ _ Hload).
Qed.

(** The loop of [delete_lead] keeps what a filter on the identifier
    keeps, so a lead is reported deleted exactly when one matched. *)
Lemma filter_id_shorter lead_id leads :
  length (filter (λ lead, id lead ≠ lead_id) leads) < length leads
  ↔ ∃ lead, lead ∈ leads ∧ id lead = lead_id.
Proof.
  split.
  - intros Hlt. destruct (decide (Forall (λ lead, id lead ≠ lead_id) leads))
      as [Hall|Hex].
    + assert (filter (λ lead, id lead ≠ lead_id) leads = leads) as Heq.
      { clear Hlt. induction Hall as [|x l Hx _ IH]; [done|].
        by rewrite filter_cons_True, IH. }
      rewrite Heq in Hlt. lia.
    + apply not_Forall_Exists in Hex; [|apply _].
      apply Exists_exists in Hex as (lead & Hin & Hid).
      exists lead. split; [done|]. by apply dec_stable.
  - intros (lead & Hin & Hid). eapply length_filter_lt; [done|]. simpl. tauto.
Qed.

Lemma filter_id_unique lead_id leads lead :
  NoDup (id <$> leads) → lead ∈ leads → id lead = lead_id →
  ∃ l1 l2, leads = l1 ++ lead :: l2
           ∧ filter (λ lead, id lead ≠ lead_id) leads = l1 ++ l2.
Proof.
  intros Hnd (l1 & l2 & ->)%list_elem_of_split Hid. exists l1, l2.
  split; [done|].
  rewrite fmap_app, fmap_cons in Hnd.
  apply NoDup_app in Hnd as (_ & Hdisj & [Hnotin _]%NoDup_cons).
  assert (∀ l : list Lead, id lead ∉ id <$> l →
          filter (λ x, id x ≠ lead_id) l = l) as Hkeep.
  { induction l as [|x l IH]; [done|]. rewrite fmap_cons, not_elem_of_cons.
    intros [Hne Hl]. rewrite filter_cons_True by congruence. by rewrite IH. }
  rewrite filter_app, filter_cons_False by tauto.
  rewrite !Hkeep; [done|done|]. intros Hin. by eapply Hdisj; [|left].
Qed.

(** C9: [delete_lead] reports a deletion exactly when some lead carries the
    identifier. When none does, the store is what loading left and nothing
    is saved. When one does, the file is replaced by the collection
    without the leads of that identifier, the others staying as they were
    and in their order; where identifiers are unique this removes exactly
    one record. *)
Theorem delete_lead_removes_matching lead_id st leads st1 :
  load_leads st = (Ok leads, st1) →
  ∃ deleted st',
    delete_lead lead_id st = (Ok deleted, st')
    ∧ (deleted = true ↔ ∃ lead, lead ∈ leads ∧ id lead = lead_id)
    ∧ (deleted = false →
         st' = st1 ∧ saves st' = saves st
         ∧ load_leads st' = (Ok leads, st')
         ∧ (is_Some (leads_file st) → st' = st))
    ∧ (deleted = true →
         ∃ remaining,
           leads_file st' = Some (leads_data remaining)
           ∧ saves st' = S (saves st)
           ∧ remaining `sublist_of` leads
           ∧ (∀ lead, lead ∈ remaining ↔ lead ∈ leads ∧ id lead ≠ lead_id)
           ∧ (NoDup (id <$> leads) →
              ∃ l1 lead l2, leads = l1 ++ lead :: l2 ∧ id lead = lead_id
                            ∧ remaining = l1 ++ l2)).
Proof.
  intros Hload. unfold delete_lead. rewrite (bind_ok _ _ _ _ _ Hload).
  pose proof (load_leads_store _ _ _ Hload) as Hst1.
  case_bool_decide as Hlt.
  - rewrite bind_run, save_leads_run. simpl. do 2 eexists. split; [done|].
    apply filter_id_shorter in Hlt as Hex. split_and!; [done|done|].
    intros _. eexists. split_and!; [done|by subst st1| | |]; simpl.
    + apply sublist_filter.
    + intros lead. rewrite list_elem_of_filter. tauto.
    + intros Hnd. destruct Hex as (lead & Hin & Hid).
      destruct (filter_id_unique _ _ _ Hnd Hin Hid) as (l1 & l2 & Hl & Hf).
      by exists l1, lead, l2.
  - do 2 eexists. split; [done|]. rewrite filter_id_shorter in Hlt.
    split_and!; [split; [done|by intros ?%Hlt]| |done].
    intros _. split_and!; [done|by subst st1|by eapply load_leads_again|].
    intros Hsome. subst st1. by apply with_file_id.
Qed.

End store_claims.

Section update_frame.
Context `{!Datetime} `{!SetIteration}.
Implicit Types (lead new : Lead) (lead_data : LeadBase) (now : datetime).
Implicit Types (leads : list Lead) (st : Store).

(** The loop stops at the first lead that carries the identifier. *)
Lemma update_loop_found lead_id lead_data now leads st :
  ∀ pre rest,
    leads = pre ++ rest →
    Forall (λ lead, id lead ≠ lead_id) pre →
    (∃ lead, lead ∈ rest ∧ id lead = lead_id) →
    ∃ i old,
      leads !! i = Some old ∧ id old = lead_id
      ∧ (∀ j lead, j < i → leads !! j = Some lead → id lead ≠ lead_id)
      ∧ update_loop lead_id lead_data now leads (length pre) rest st
        = match update_entry old lead_data now with
          | Ok updated =>
              (Ok (Some updated),
               {| leads_file := Some (leads_data (<[i := updated]> leads));
                  saves := S (saves st) |})
          | Raise e => (Raise e, st)
          end.
Proof.
  intros pre rest. revert pre.
  induction rest as [|lead rest IH]; intros pre Hleads Hpre Hex.
  - destruct Hex as (? & []%elem_of_nil & _).
  - simpl. case_bool_decide as Hid.
    + exists (length pre), lead. split_and!.
      * subst leads. by apply list_lookup_middle.
      * done.
      * intros j l Hj Hl. subst leads.
        rewrite lookup_app_l in Hl by done.
        apply list_elem_of_lookup_2 in Hl. by eapply Forall_forall in Hpre.
      * rewrite bind_run. unfold lift.
        destruct (update_entry lead lead_data now) as [updated|e]; [|done].
        rewrite bind_run, save_leads_run. done.
    + destruct (IH (pre ++ [lead])) as (i & old & H1 & H2 & H3 & H4).
      * by rewrite <-app_assoc.
      * apply Forall_app. split; [done|]. by constructor.
      * destruct Hex as (l & [->|Hin]%elem_of_cons & Hl); [done|]. by exists l.
      * exists i, old. split_and!; try done.
        rewrite length_app in H4. simpl in H4.
        by replace (length pre + 1) with (S (length pre)) in H4 by lia.
Qed.

(** C10: an update by an identifier that some lead carries either raises,
    and then leaves the store as loading left it, or replaces the first
    lead with that identifier in place: the saved collection has the same
    length, and every lead with another identifier is at the position it
    had, unchanged. A field set that satisfies the model is never
    rejected. *)
Theorem update_lead_leaves_others lead_id lead_data now st leads st1 :
  load_leads st = (Ok leads, st1) →
  (∃ lead, lead ∈ leads ∧ id lead = lead_id) →
  ∃ r st',
    update_lead lead_id lead_data now st = (r, st')
    ∧ (validated lead_data → ∃ updated, r = Ok (Some updated))
    ∧ (∀ e, r = Raise e → st' = st1)
    ∧ (∀ o, r = Ok o →
         ∃ updated leads',
           o = Some updated
           ∧ leads_file st' = Some (leads_data leads')
           ∧ length leads' = length leads
           ∧ (∀ i lead, leads !! i = Some lead → id lead ≠ lead_id →
                        leads' !! i = Some lead)
           ∧ (∃ i old, leads !! i = Some old ∧ id old = lead_id
                       ∧ update_entry old lead_data now = Ok updated
                       ∧ leads' = <[i := updated]> leads)).
Proof.
  intros Hload Hex. unfold update_lead. rewrite (bind_ok _ _ _ _ _ Hload).
  destruct (update_loop_found lead_id lead_data now leads st1 [] leads)
    as (i & old & Hi & Hid & Hfirst & Hrun); [done..|].
  simpl in Hrun. rewrite Hrun. clear Hrun.
  destruct (update_entry old lead_data now) as [updated|e] eqn:Hupd.
  - do 2 eexists. split; [done|]. split_and!.
    + intros _. by exists updated.
    + done.
    + intros o [= <-]. exists updated, (<[i := updated]> leads).
      split_and!; [done|done|by rewrite length_insert| |by exists i, old].
      intros j lead Hj Hne. rewrite list_lookup_insert_ne; [done|].
      intros <-. congruence.
  - do 2 eexists. split; [done|]. split_and!; [|done|done].
    intros Hv. rewrite update_entry_ok in Hupd by done. done.
Qed.

End update_frame.

(** * Properties of the statistics *)

Section sorting_facts.
Context {A : Type} (key : A → nat).
Implicit Types (x y : A) (l : list A).

Lemma insert_desc_perm x l : insert_desc key x l ≡ₚ x :: l.
Proof.
  induction l as [|y l IH]; [done|]. simpl. case_bool_decide; [|done].
  rewrite IH. apply Permutation_swap.
Qed.

Lemma sorted_reverse_perm l : sorted_reverse key l ≡ₚ l.
Proof.
  induction l as [|x l IH]; [done|]. simpl.
  rewrite insert_desc_perm. by rewrite IH.
Qed.

Lemma before_cons l x y z : before l x y → before (z :: l) x y.
Proof.
  intros (i & j & Hij & Hi & Hj). exists (S i), (S j). split; [lia|done].
Qed.

Lemma before_head l x y : y ∈ l → before (x :: l) x y.
Proof.
  intros (j & Hj)%list_elem_of_lookup_1. exists 0, (S j). split; [lia|done].
Qed.

Lemma stable_desc_cons l x y z :
  stable_desc key l x y → stable_desc key (z :: l) x y.
Proof.
  intros [?|[? ?]]; [by left|right]. split; [done|]. by apply before_cons.
Qed.

Lemma stable_desc_key l x y : stable_desc key l x y → key y ≤ key x.
Proof. intros [?|[? _]]; lia. Qed.

Lemma StronglySorted_weaken (R1 R2 : relation A) l :
  (∀ x y, R1 x y → R2 x y) → StronglySorted R1 l → StronglySorted R2 l.
Proof.
  intros HR. induction 1 as [|x l _ IH Hx]; constructor; [done|].
  eapply Forall_impl; [done|]. auto.
Qed.

Lemma insert_desc_sorted x l0 l :
  StronglySorted (stable_desc key l0) l → (∀ y, y ∈ l → y ∈ l0) →
  StronglySorted (stable_desc key (x :: l0)) (insert_desc key x l).
Proof.
  induction 1 as [|y l Hsorted IH Hy]; intros Hsub; simpl.
  - repeat constructor.
  - assert (StronglySorted (stable_desc key (x :: l0)) (y :: l)) as Hyl.
    { apply (StronglySorted_weaken (stable_desc key l0)).
      - intros ??. apply stable_desc_cons.
      - by constructor. }
    case_bool_decide as Hlt.
    + constructor.
      * apply IH. intros z Hz. apply Hsub. by right.
      * rewrite insert_desc_perm. constructor; [by left|].
        eapply Forall_impl; [done|]. intros z. apply stable_desc_cons.
    + constructor; [done|].
      assert (Forall (λ z, key z ≤ key x ∧ z ∈ l0) (y :: l)) as Hle.
      { constructor.
        - split; [lia|]. apply Hsub. by left.
        - apply Forall_forall. intros z Hz. split.
          + eapply Forall_forall in Hy; [|done].
            apply stable_desc_key in Hy. lia.
          + apply Hsub. by right. }
      eapply Forall_impl; [done|]. intros z [Hz Hin]. simpl in Hz.
      destruct (decide (key z < key x)); [by left|right].
      split; [lia|]. by apply before_head.
Qed.

(** [sorted_reverse] is a stable descending sort. *)
Lemma sorted_reverse_sorted l :
  StronglySorted (stable_desc key l) (sorted_reverse key l).
Proof.
  induction l as [|x l IH]; [constructor|]. simpl.
  apply insert_desc_sorted; [done|].
  intros y. by rewrite sorted_reverse_perm.
Qed.

Lemma StronglySorted_lookup (R : relation A) l i j x y :
  StronglySorted R l → i < j → l !! i = Some x → l !! j = Some y → R x y.
Proof.
  intros Hs. revert i j. induction Hs as [|z l _ IH Hz]; intros i j Hij Hi Hj.
  - done.
  - destruct j as [|j]; [lia|]. simpl in Hj. destruct i as [|i].
    + simplify_eq/=. eapply Forall_forall in Hz; [done|].
      by eapply list_elem_of_lookup_2.
    + simpl in Hi. apply (IH i j); [lia|done..].
Qed.

End sorting_facts.

#[local] Set Warnings "-clear-no-such-hyp".

Section stats_facts.
Context `{!Datetime} `{!SetIteration}.
Implicit Types (lead : Lead) (leads : list Lead) (c : string).
Implicit Types (T : list (string * nat)).

Lemma status_value_inj : Inj (=) (=) LeadStatus_.value.
Proof. intros [] [] Heq; done. Qed.

Lemma status_count_cons s lead leads :
  status_count s (lead :: leads)
  = (if decide (status lead = s) then 1 else 0) + status_count s leads.
Proof. unfold status_count. rewrite filter_cons. by case_decide. Qed.

Lemma status_count_total leads :
  status_count NOT_CONTACTED leads + status_count CONTACTED leads
  + status_count RESPONDED leads = length leads.
Proof.
  induction leads as [|lead leads IH]; [done|].
  rewrite !status_count_cons. simpl.
  destruct (status lead); repeat case_decide; try done; lia.
Qed.

(** The loop never meets a missing key, and adds to each status the number
    of leads that have it. *)
Lemma count_leads_spec leads :
  ∀ (sc : gmap string nat) T,
    (∀ s, is_Some (sc !! LeadStatus_.value s)) →
    ∃ sc',
      count_leads leads sc T
      = Ok (sc', foldl (λ counts (lead : Lead),
                          count_company (company_name lead) counts) T leads)
      ∧ dom sc' = dom sc
      ∧ ∀ s, sc' !! LeadStatus_.value s
             = (λ n, n + status_count s leads) <$> sc !! LeadStatus_.value s.
Proof.
  induction leads as [|lead leads IH]; intros sc T Hsc; simpl.
  - exists sc. split_and!; [done|done|]. intros s.
    destruct (Hsc s) as [n ->]. simpl. f_equal. unfold status_count. simpl. lia.
  - unfold increment. destruct (Hsc (status lead)) as [n Hn]. rewrite Hn. simpl.
    set (sc2 := <[LeadStatus_.value (status lead) := n + 1]> sc).
    destruct (IH sc2 (count_company (company_name lead) T)) as (sc' & -> & Hdom & Hget).
    { intros s. subst sc2. rewrite lookup_insert_is_Some'. by right. }
    exists sc'. split_and!; [done| |].
    + rewrite Hdom. subst sc2. rewrite dom_insert_L.
      apply subseteq_union_1_L, singleton_subseteq_l. by apply elem_of_dom.
    + intros s. rewrite Hget, status_count_cons. subst sc2.
      destruct (decide (status lead = s)) as [<-|Hne].
      * rewrite lookup_insert_eq, Hn. simpl. f_equal. lia.
      * rewrite lookup_insert_ne by (by intros ?%status_value_inj).
        by destruct (sc !! LeadStatus_.value s).
Qed.

Lemma company_count_snoc c leads lead :
  company_count c (leads ++ [lead])
  = company_count c leads + (if decide (company_name lead = c) then 1 else 0).
Proof.
  unfold company_count. rewrite filter_app, length_app. f_equal.
  rewrite filter_cons. by case_decide.
Qed.

Lemma company_count_pos c leads :
  0 < company_count c leads ↔ ∃ lead, lead ∈ leads ∧ company_name lead = c.
Proof.
  unfold company_count. split.
  - destruct (filter _ leads) as [|lead l] eqn:Hf; simpl; [lia|]. intros _.
    assert (lead ∈ filter (λ lead : Lead, company_name lead = c) leads) as Hin
      by (rewrite Hf; left).
    apply list_elem_of_filter in Hin as [? ?]. by exists lead.
  - intros (lead & Hin & Hc).
    assert (lead ∈ filter (λ lead : Lead, company_name lead = c) leads) as Hin'
      by (by apply list_elem_of_filter).
    destruct (filter _ leads); [by apply elem_of_nil in Hin'|simpl; lia].
Qed.

Lemma first_seen_Some c leads p :
  first_seen c leads = Some p
  ↔ ∃ lead, leads !! p = Some lead ∧ company_name lead = c
            ∧ ∀ j (l : Lead), leads !! j = Some l → j < p →
                              company_name l ≠ c.
Proof.
  unfold first_seen. split.
  - destruct (list_find _ leads) as [[i lead]|] eqn:Hf; [|done].
    intros [= <-]. apply list_find_Some in Hf. by exists lead.
  - intros (lead & H1 & H2 & H3).
    by rewrite (proj2 (list_find_Some _ leads p lead)).
Qed.

Lemma first_seen_snoc c leads lead p :
  first_seen c leads = Some p → first_seen c (leads ++ [lead]) = Some p.
Proof.
  unfold first_seen. destruct (list_find _ leads) as [[i l]|] eqn:Hf; [|done].
  intros [= <-]. by rewrite (list_find_app_l _ _ _ _ _ Hf).
Qed.

Lemma first_seen_new leads lead :
  company_count (company_name lead) leads = 0 →
  first_seen (company_name lead) (leads ++ [lead]) = Some (length leads).
Proof.
  intros Hz. apply first_seen_Some. exists lead. split_and!.
  - by apply list_lookup_middle.
  - done.
  - intros j l Hl Hj Hc. rewrite lookup_app_l in Hl by done.
    assert (0 < company_count (company_name lead) leads); [|lia].
    apply company_count_pos. exists l. split; [|done].
    by eapply list_elem_of_lookup_2.
Qed.

Lemma first_seen_lt c leads p : first_seen c leads = Some p → p < length leads.
Proof. intros (lead & Hl & _)%first_seen_Some. by eapply lookup_lt_Some. Qed.

(** [count_company] on a table without repeated keys. *)
Lemma count_company_keys c T :
  (count_company c T).*1 = if decide (c ∈ T.*1) then T.*1 else T.*1 ++ [c].
Proof.
  induction T as [|[k n] T IH]; [done|]. csimpl. case_bool_decide as Hk.
  - subst k. rewrite decide_True by left. done.
  - csimpl. rewrite IH. destruct (decide (c ∈ T.*1)).
    + rewrite decide_True by (by right). done.
    + rewrite decide_False; [done|]. rewrite not_elem_of_cons. split; [congruence|done].
Qed.

Lemma elem_of_keys T c n : (c, n) ∈ T → c ∈ T.*1.
Proof. intros Hin. apply list_elem_of_fmap. by exists (c, n). Qed.

Lemma count_company_elem c T c' n :
  NoDup T.*1 →
  (c', n) ∈ count_company c T
  ↔ (c' ≠ c ∧ (c', n) ∈ T)
    ∨ (c' = c ∧ (((c ∉ T.*1) ∧ n = 1) ∨ (∃ m, (c, m) ∈ T ∧ n = m + 1))).
Proof.
  induction T as [|[k m] T IH]; intros Hnd.
  - simpl. rewrite list_elem_of_singleton.
    pose proof (not_elem_of_nil (A:=string) c) as Hnil.
    pose proof (not_elem_of_nil (A:=string * nat)) as Hnil'. naive_solver.
  - csimpl in Hnd. apply NoDup_cons in Hnd as [Hk Hnd].
    assert (∀ x, (k, x) ∉ T) as Hk''.
    { intros x Hx. by apply Hk, (elem_of_keys T k x). }
    simpl. case_bool_decide as Hkc.
    + subst k. csimpl. setoid_rewrite elem_of_cons. naive_solver.
    + rewrite elem_of_cons, (IH Hnd). csimpl. setoid_rewrite elem_of_cons.
      naive_solver.
Qed.

End stats_facts.

Section stats_claims.
Context `{!Datetime} `{!SetIteration}.
Implicit Types (lead : Lead) (leads : list Lead) (c : string).
Implicit Types (T : list (string * nat)).

(** The table the loop builds: one entry per company, with the number of
    its leads, in the order in which the companies were first seen. *)
Lemma company_table_spec leads :
  let T := company_table leads in
  NoDup T.*1
  ∧ (∀ c n, (c, n) ∈ T ↔ 0 < n ∧ n = company_count c leads)
  ∧ (∀ i j c1 c2,
       i < j → T.*1 !! i = Some c1 → T.*1 !! j = Some c2 →
       ∃ p1 p2, first_seen c1 leads = Some p1
                ∧ first_seen c2 leads = Some p2 ∧ p1 < p2).
Proof.
  induction leads as [|lead leads IH] using rev_ind.
  - simpl. split_and!; [constructor| |done].
    intros c n. split; [by intros ?%elem_of_nil|].
    unfold company_count. simpl. lia.
  - unfold company_table in *. rewrite foldl_snoc.
    set (T := foldl _ [] leads) in *. simpl in IH.
    destruct IH as (Hnd & Hcount & Horder).
    set (c := company_name lead).
    assert (∀ c', c' ∈ T.*1 ↔ 0 < company_count c' leads) as Hkeys.
    { intros c'. rewrite list_elem_of_fmap. split.
      - intros ([k n] & -> & Hin). by apply Hcount in Hin as [? ->].
      - intros Hpos. exists (c', company_count c' leads). split; [done|].
        by apply Hcount. }
    simpl. split_and!.
    + rewrite count_company_keys. case_decide as Hin; [done|].
      apply NoDup_app. split_and!; [done| |apply NoDup_singleton].
      intros x Hx ->%list_elem_of_singleton. done.
    + intros c' n. rewrite count_company_elem by done.
      rewrite company_count_snoc. fold c. split.
      * intros [[Hne Hin]|[-> [[Hnotin ->]|(m & Hin & ->)]]].
        -- apply Hcount in Hin as [Hpos ->]. rewrite decide_False by done.
           split; lia.
        -- rewrite decide_True by done. rewrite Hkeys in Hnotin. split; lia.
        -- apply Hcount in Hin as [Hpos ->]. rewrite decide_True by done.
           split; lia.
      * intros [Hpos ->]. destruct (decide (c = c')) as [<-|Hne].
        -- right. split; [done|].
           destruct (decide (c ∈ T.*1)) as [Hin|Hnotin].
           ++ right. exists (company_count c leads). split; [|done].
              apply Hcount. split; [|done]. by apply Hkeys.
           ++ left. split; [done|]. rewrite Hkeys in Hnotin. lia.
        -- left. split; [done|]. apply Hcount. split; lia.
    + intros i j c1 c2 Hij. rewrite count_company_keys.
      assert (∀ k c', T.*1 !! k = Some c' →
              ∃ p, first_seen c' leads = Some p) as Hseen.
      { intros k c' Hk. apply list_elem_of_lookup_2, Hkeys, company_count_pos in Hk.
        destruct Hk as (l & Hl & Hc).
        destruct (list_find_elem_of (λ l : Lead, company_name l = c') leads l)
          as [[p l'] Hf]; [done..|].
        exists p. unfold first_seen. by rewrite Hf. }
      case_decide as Hin.
      * intros Hi Hj. destruct (Horder i j c1 c2) as (p1 & p2 & H1 & H2 & Hlt); [done..|].
        exists p1, p2. split_and!; [by apply first_seen_snoc..|done].
      * intros Hi Hj.
        apply lookup_app_Some in Hj as [Hj|[Hlen Hj]].
        -- rewrite lookup_app_l in Hi by (apply lookup_lt_Some in Hj; lia).
           destruct (Horder i j c1 c2) as (p1 & p2 & H1 & H2 & Hlt); [done..|].
           exists p1, p2. split_and!; [by apply first_seen_snoc..|done].
        -- apply list_lookup_singleton_Some in Hj as [Hj0 <-].
           rewrite lookup_app_l in Hi by lia.
           destruct (Hseen i c1 Hi) as (p1 & Hp1).
           exists p1, (length leads). split_and!.
           ++ by apply first_seen_snoc.
           ++ apply first_seen_new. fold c. rewrite Hkeys in Hin. lia.
           ++ by eapply first_seen_lt.
Qed.

(** Sorting the table gives the ranking. *)
Lemma sorted_table_ranked leads :
  ranked leads (sorted_reverse snd (company_table leads)).
Proof.
  destruct (company_table_spec leads) as (Hnd & Hcount & Horder).
  set (T := company_table leads) in *. simpl in *.
  pose proof (sorted_reverse_perm snd T) as Hperm.
  split_and!.
  - by rewrite Hperm.
  - intros c n. by rewrite Hperm.
  - intros i j c1 n1 c2 n2 Hij Hi Hj.
    destruct (StronglySorted_lookup _ _ _ _ _ _
                (sorted_reverse_sorted snd T) Hij Hi Hj)
      as [Hlt|[Heq (i' & j' & Hij' & Hi' & Hj')]]; simpl in *; [by left|].
    right. split; [done|].
    apply (Horder i' j'); [done|by rewrite list_lookup_fmap, ?Hi', ?Hj'..].
Qed.

Lemma stats_of_spec leads :
  ∃ sc,
    stats_of leads
    = Ok {| total := length leads; by_status := sc;
            top_companies :=
              take 5 (sorted_reverse snd (company_table leads)) |}
    ∧ dom sc = {[ "not_contacted"; "contacted"; "responded" ]}
    ∧ ∀ s, sc !! LeadStatus_.value s = Some (status_count s leads).
Proof.
  unfold stats_of.
  destruct (count_leads_spec leads initial_status_counts []) as (sc & -> & Hdom & Hget).
  { intros []; by eexists. }
  exists sc. split_and!; [done| |].
  - rewrite Hdom. unfold initial_status_counts.
    rewrite !dom_insert_L, dom_singleton_L. set_solver.
  - intros s. rewrite Hget. by destruct s.
Qed.

(** C7: on a store that loads, [get_stats] returns the number of leads, a
    map with exactly the three status keys, each holding the number of
    leads of that status (so the three add up to the total), and at most
    five (company, count) pairs: the first five of the ranking of the
    companies by count, larger first, equal counts in the order in which
    the companies first appear. On no leads the total and the three counts
    are 0 and the list is empty. *)
Theorem get_stats_counts st leads st1 :
  load_leads st = (Ok leads, st1) →
  ∃ stats,
    get_stats st = (Ok stats, st1)
    ∧ total stats = length leads
    ∧ dom (by_status stats) = {[ "not_contacted"; "contacted"; "responded" ]}
    ∧ (∀ s, by_status stats !! LeadStatus_.value s
            = Some (status_count s leads))
    ∧ status_count NOT_CONTACTED leads + status_count CONTACTED leads
      + status_count RESPONDED leads = total stats
    ∧ length (top_companies stats) ≤ 5
    ∧ (∃ ranking, ranked leads ranking
                  ∧ top_companies stats = take 5 ranking)
    ∧ (leads = [] →
       stats = {| total := 0; by_status := initial_status_counts;
                  top_companies := [] |}).
Proof.
  intros Hload. unfold get_stats. rewrite (bind_ok _ _ _ _ _ Hload).
  destruct (stats_of_spec leads) as (sc & Hs & Hdom & Hget).
  unfold lift. rewrite Hs. eexists. split; [done|]. simpl.
  split_and!; [done|done|done|apply status_count_total| | |].
  - rewrite length_take. lia.
  - eexists. split; [apply sorted_table_ranked|done].
  - intros ->. vm_compute in Hs. by injection Hs as <-.
Qed.

End stats_claims.

(** * Saving and loading *)

Section round_trip.
Context `{!Datetime} `{!SetIteration}.
Implicit Types (lead : Lead) (leads : list Lead) (a : Activity).

Lemma mapM_fmap_ok {A B} (f : B → result A) (g : A → B) (l : list A) :
  Forall (λ x, f (g x) = Ok x) l → mapM f (g <$> l) = Ok l.
Proof.
  induction 1 as [|x l Hx _ IH]; [done|].
  rewrite fmap_cons. simpl. rewrite Hx. simpl. by rewrite IH.
Qed.

Lemma ActivityType_of_value t :
  ActivityType_.of_value (ActivityType_.value t) = Some t.
Proof. by destruct t. Qed.

Lemma LeadStatus_of_value s :
  LeadStatus_.of_value (LeadStatus_.value s) = Some s.
Proof. by destruct s. Qed.

Lemma truthy_nonempty s : s ≠ "" → Str.truthy s = true.
Proof. by destruct s. Qed.

Lemma activity_dict_lookup a :
  activity_dict a !! "timestamp" = Some (JStr (isoformat (timestamp a)))
  ∧ activity_dict a !! "type" = Some (JStr (ActivityType_.value (type a)))
  ∧ activity_dict a !! "description" = Some (JStr (description a))
  ∧ activity_dict a !! "details" = Some (opt_str (details a)).
Proof. unfold activity_dict, Activity_model_dump. by simplify_map_eq. Qed.

Lemma load_dump_activity a : load_activity (dump_activity a) = Ok a.
Proof.
  destruct (activity_dict_lookup a) as (Hts & Hty & Hd & Hdet).
  unfold load_activity, dump_activity. simpl.
  unfold convert_datetime. rewrite Hts, fromisoformat_isoformat. simpl.
  unfold type_field. rewrite Hty, ActivityType_of_value. simpl.
  unfold required_str. rewrite Hd. simpl.
  unfold optional_str. rewrite Hdet.
  destruct a as [ts ty desc [det|]]; done.
Qed.

Lemma lead_dict_lookup lead :
  lead_dict lead !! "company_name" = Some (JStr (company_name lead))
  ∧ lead_dict lead !! "contact_name" = Some (JStr (contact_name lead))
  ∧ lead_dict lead !! "title" = Some (JStr (title lead))
  ∧ lead_dict lead !! "email" = Some (JStr (email lead))
  ∧ lead_dict lead !! "linkedin_url" = Some (opt_str (linkedin_url lead))
  ∧ lead_dict lead !! "status" = Some (JStr (LeadStatus_.value (status lead)))
  ∧ lead_dict lead !! "notes" = Some (opt_str (notes lead))
  ∧ lead_dict lead !! "tags" = Some (JArr (JStr <$> tags lead))
  ∧ lead_dict lead !! "id" = Some (JStr (id lead))
  ∧ lead_dict lead !! "date_added" = Some (JStr (isoformat (date_added lead)))
  ∧ lead_dict lead !! "last_contacted"
    = Some (match last_contacted lead with
            | Some t => JStr (isoformat t)
            | None => JNull
            end)
  ∧ lead_dict lead !! "activity_history"
    = Some (JArr (dump_activity <$> activity_history lead)).
Proof. unfold lead_dict, Lead_model_dump. by simplify_map_eq. Qed.

(** A lead that satisfies its model is read back as it was written. *)
Lemma load_dump_lead lead :
  validated (base lead) → load_lead (dump_lead lead) = Ok lead.
Proof.
  intros Hv.
  destruct (lead_dict_lookup lead)
    as (Hc & Hn & Ht & He & Hu & Hs & Hno & Htg & Hid & Hda & Hlc & Hh).
  unfold load_lead, dump_lead. simpl.
  unfold convert_datetime at 1. rewrite Hda, fromisoformat_isoformat. simpl.
  assert (convert_datetime_truthy (lead_dict lead) "last_contacted"
          = Ok (match last_contacted lead with
                | Some t => Parsed t
                | None => Untouched (Some JNull)
                end)) as ->.
  { unfold convert_datetime_truthy, convert_datetime. rewrite Hlc.
    destruct (last_contacted lead) as [t|]; [|done].
    rewrite truthy_nonempty by apply isoformat_nonempty.
    by rewrite fromisoformat_isoformat. }
  simpl. rewrite Hh. simpl.
  rewrite (mapM_fmap_ok load_activity dump_activity)
    by (apply Forall_true, load_dump_activity).
  simpl. unfold required_str. rewrite Hc, Hn, Ht, He, Hid. simpl.
  unfold optional_str. rewrite Hu, Hno.
  unfold status_field. rewrite Hs, LeadStatus_of_value.
  unfold str_list. rewrite Htg.
  rewrite (mapM_fmap_ok str_item JStr) by (by apply Forall_true).
  destruct lead as [[company contact ttl mail url stat nts tgs] ident added lc hist].
  simpl in *. unfold validated in Hv.
  destruct url as [url|], nts as [nts|], lc as [lc|]; simpl;
    unfold Lead_new; by rewrite Hv.
Qed.

Lemma parse_leads_data leads :
  Forall (λ lead, validated (base lead)) leads →
  parse_document (leads_data leads) = Ok leads.
Proof.
  intros Hv. unfold parse_document, leads_data. simpl.
  rewrite lookup_singleton_eq. simpl.
  apply mapM_fmap_ok. eapply Forall_impl; [done|]. apply load_dump_lead.
Qed.

(** C8: a collection of leads that satisfy the model, once saved, is
    loaded back equal to what was saved: every field, every activity of
    every history and every timestamp. *)
Theorem save_then_load leads st :
  Forall (λ lead, validated (base lead)) leads →
  ∃ st', save_leads leads st = (Ok (), st')
         ∧ load_leads st' = (Ok leads, st').
Proof.
  intros Hv. rewrite save_leads_run. eexists. split; [done|].
  rewrite load_leads_run. simpl. by rewrite parse_leads_data.
Qed.

End round_trip.

(** * More on the model classes *)

Section substring_facts.
Import Str.
Implicit Types (s p needle : string) (c : ascii).

Lemma startswith_app p s : startswith p s = true ↔ ∃ post, s = p +:+ post.
Proof.
unfold startswith. revert s. induction p as [|c p IH]; intros s.
- split; [intros _; by exists s|]. intros _. by destruct s.
- destruct s as [|c' s]; simpl.
  + split; [done|]. by intros (post & [=]).
  + destruct (ascii_dec c c') as [<-|Hne].
    * rewrite IH. split; intros (post & Hs); exists post.
      -- by rewrite append_cons, <-Hs.
      -- rewrite append_cons in Hs. by injection Hs.
    * split; [done|]. intros (post & Hs). rewrite append_cons in Hs.
      injection Hs as -> _. done.
Qed.

Lemma str_in_nil needle : str_in needle "" = startswith needle "".
Proof. apply orb_false_r. Qed.

Lemma str_in_cons needle c s :
str_in needle (String c s)
= startswith needle (String c s) || str_in needle s.
Proof. done. Qed.

Lemma str_in_contains needle s : str_in needle s = true ↔ contains needle s.
Proof.
unfold contains. induction s as [|c s IH].
- rewrite str_in_nil, startswith_app. split.
  + intros (post & Hs). by exists "", post.
  + intros ([|c pre] & post & Hs); [by exists post|].
    by rewrite append_cons in Hs.
- rewrite str_in_cons, orb_true_iff, IH, startswith_app. split.
  + intros [(post & Hs)|(pre & post & Hs)].
    * by exists "", post.
    * exists (String c pre), post. by rewrite append_cons, <-Hs.
  + intros ([|c' pre] & post & Hs).
    * left. by exists post.
    * right. rewrite append_cons in Hs. injection Hs as <- Hs.
      by exists pre, post.
Qed.


Lemma append_assoc s1 s2 s3 : (s1 +:+ s2) +:+ s3 = s1 +:+ (s2 +:+ s3).
Proof.
induction s1 as [|c s1 IH]; [done|]. by rewrite !append_cons, IH.
Qed.

Lemma contains_refl s : contains s s.
Proof. exists "", "". by rewrite append_empty_r. Qed.

Lemma contains_trans s1 s2 s3 : contains s1 s2 → contains s2 s3 → contains s1 s3.
Proof.
intros (a & b & ->) (a' & b' & ->). exists (a' +:+ a), (b +:+ b').
by rewrite !append_assoc.
Qed.




Lemma lower_no_upper s : Forall (λ c, isupper c = false) (chars (lower s)).
Proof.
induction s as [|c s IH]; [constructor|]. simpl. constructor; [|exact IH].
clear. destruct c as [[] [] [] [] [] [] [] []]; reflexivity.
Qed.

End substring_facts.

Section pattern_facts.
Import Str EmailPattern.
Implicit Types (c sep : ascii) (l a b : list ascii).

Lemma split_first_Some sep l a b :
split_first sep l = Some (a, b) ↔ l = a ++ sep :: b ∧ sep ∉ a.
Proof.
revert a. induction l as [|c l IH]; intros a; simpl.
- split; [done|]. intros [Hl _]. by destruct a.
- destruct (Ascii.eqb c sep) eqn:Hc.
  + apply Ascii.eqb_eq in Hc as ->. split.
    * intros [= <- <-]. split; [done|]. apply not_elem_of_nil.
    * intros [Hl Hnotin]. destruct a as [|c' a].
      -- simpl in Hl. by injection Hl as <-.
      -- simpl in Hl. injection Hl as <- _. exfalso. apply Hnotin. left.
  + apply Ascii.eqb_neq in Hc. split.
    * destruct (split_first sep l) as [[a' b']|] eqn:Hs; [|done]. simpl.
      intros [= <- <-]. destruct (proj1 (IH a') eq_refl) as [-> Hnotin].
      split; [done|]. rewrite not_elem_of_cons. done.
    * intros [Hl Hnotin]. destruct a as [|c' a].
      -- simpl in Hl. by injection Hl as ? _.
      -- simpl in Hl. injection Hl as <- ->.
         apply not_elem_of_cons in Hnotin as [_ Hnotin].
         by rewrite (proj2 (IH a)).
Qed.

Lemma split_last_Some sep l a b :
split_last sep l = Some (a, b) ↔ l = a ++ sep :: b ∧ sep ∉ b.
Proof.
unfold split_last. split.
- destruct (split_first sep (reverse l)) as [[b' a']|] eqn:Hs; [|done]. simpl.
  intros [= <- <-]. apply split_first_Some in Hs as [Hl Hnotin].
  apply (f_equal reverse) in Hl.
  rewrite reverse_involutive, reverse_app, reverse_cons, <-app_assoc in Hl.
  split; [done|]. by rewrite elem_of_reverse.
- intros [-> Hnotin].
  rewrite (proj2 (split_first_Some sep _ (reverse b) (reverse a))).
  + simpl. by rewrite !reverse_involutive.
  + split; [|by rewrite elem_of_reverse].
    by rewrite reverse_app, reverse_cons, <-app_assoc.
Qed.

Lemma nonempty_true {A} (l : list A) : nonempty l = true ↔ l ≠ [].
Proof. by destruct l. Qed.

Lemma forallb_Forall (P : ascii → bool) l : forallb P l = true ↔ Forall P l.
Proof. rewrite <-forallb_True. by destruct (forallb P l). Qed.

(** The matcher accepts exactly the words of the pattern: cutting at the
  first ["@"] and at the last ["."] loses no way of reading the string. *)
Lemma fullmatch_address l : fullmatch l = true ↔ address l.
Proof.
unfold fullmatch, address. split.
- destruct (split_first "@" l) as [[local rest]|] eqn:H1; [|done].
  apply split_first_Some in H1 as [-> _].
  destruct (split_last "." rest) as [[dom tld]|] eqn:H2;
    [|by rewrite andb_false_r].
  apply split_last_Some in H2 as [-> _].
  rewrite !andb_true_iff, !nonempty_true, !forallb_Forall, Nat.leb_le.
  intros [[? ?] [[[? ?] ?] ?]]. by exists local, dom, tld.
- intros (local & dom & tld & -> & Hl & Hlc & Hd & Hdc & Ht & Htc).
  rewrite (proj2 (split_first_Some "@" _ local (dom ++ "."%char :: tld))).
  + rewrite (proj2 (split_last_Some "." _ dom tld)).
    * rewrite !andb_true_iff, !nonempty_true, !forallb_Forall, Nat.leb_le.
      done.
    * split; [done|]. intros Hin.
      by eapply Forall_forall in Htc; [|exact Hin].
  + split; [done|]. intros Hin.
    by eapply Forall_forall in Hlc; [|exact Hin].
Qed.

End pattern_facts.

Section pattern_claims.
Import Str EmailPattern.

(** X1: the email pattern accepts a string exactly when it is a word of
  the pattern (a local part, ["@"], a domain, ["."], at least two
  letters), or such a word followed by one newline. *)
Theorem email_pattern_words v :
re_match v = true
↔ address (chars v) ∨ ∃ l, chars v = l ++ [newline] ∧ address l.
Proof.
unfold re_match. rewrite orb_true_iff, fullmatch_address.
apply or_iff_compat_l. split.
- destruct (reverse (chars v)) as [|c body] eqn:Hr; [done|].
  rewrite andb_true_iff, Ascii.eqb_eq, fullmatch_address. intros [-> Ha].
  exists (reverse body). split; [|done].
  apply (f_equal reverse) in Hr.
  by rewrite reverse_involutive, reverse_cons in Hr.
- intros (l & -> & Ha). rewrite reverse_app. simpl.
  by rewrite reverse_involutive, fullmatch_address.
Qed.

End pattern_claims.

Section normal_forms.
Import Str.
Implicit Types (s w addr : string) (v : option string) (d raw : LeadBase).

Lemma length_append s s' :
String.length (s +:+ s') = String.length s + String.length s'.
Proof.
induction s as [|c s IH]; [done|]. rewrite append_cons. simpl. by rewrite IH.
Qed.

Lemma length_lstrip s : String.length (lstrip s) ≤ String.length s.
Proof.
induction s as [|c s IH]; [done|]. simpl.
destruct (isspace c); simpl; lia.
Qed.

Lemma length_rstrip s : String.length (rstrip s) ≤ String.length s.
Proof.
induction s as [|c s IH]; [done|]. simpl.
destruct (rstrip s) as [|c' r]; [destruct (isspace c)|]; simpl in *; lia.
Qed.

Lemma length_strip s : String.length (strip s) ≤ String.length s.
Proof.
unfold strip. pose proof (length_rstrip (lstrip s)).
pose proof (length_lstrip s). lia.
Qed.

Lemma strip_https w :
strip w = w → w ≠ "" → strip ("https://" +:+ w) = "https://" +:+ w.
Proof.
intros Hw Hne. unfold strip at 1.
change (lstrip ("https://" +:+ w)) with ("https://" +:+ w).
apply rstrip_app_fixed; [done|].
destruct (strip_head w) as [Hnil|(c & r & Hs & Hc)]; [congruence|].
rewrite Hw in Hs. subst w. destruct (rstrip_head c r Hc) as [r' Hr].
rewrite <-Hw at 2. unfold strip. by rewrite (lstrip_fixed c r Hc).
Qed.

Lemma validate_email_Ok addr s :
validate_email addr = Ok s
↔ EmailPattern.re_match addr = true ∧ s = lower addr.
Proof.
unfold validate_email. destruct (EmailPattern.re_match addr).
- split; [by intros [= <-]|by intros [_ ->]].
- split; [done|by intros [? _]].
Qed.

(** X2: an address that [validate_email] accepts comes back in lower
  case, with its length, and is accepted unchanged when it is validated
  again; one the pattern does not match is rejected. *)
Theorem validate_email_lower_case addr :
match validate_email addr with
| Ok v' =>
    EmailPattern.re_match addr = true
    ∧ v' = lower addr
    ∧ String.length v' = String.length addr
    ∧ Forall (λ c, isupper c = false) (chars v')
    ∧ validate_email v' = Ok v'
| Raise e => EmailPattern.re_match addr = false ∧ e = ValidationError
end.
Proof.
destruct (validate_email addr) as [v'|e] eqn:Hv.
- pose proof (validate_email_again _ _ Hv) as Hagain.
  pose proof (validate_email_length _ _ Hv) as Hlen.
  unfold validate_email in Hv.
  destruct (EmailPattern.re_match addr); [|done]. injection Hv as <-.
  split_and!; [done|done|done|apply lower_no_upper|done].
- unfold validate_email in Hv.
  destruct (EmailPattern.re_match addr); [done|]. by injection Hv as <-.
Qed.

Lemma validate_linkedin_url_length s :
String.length (validate_linkedin_url (Some s)) ≤ String.length s + 8.
Proof.
unfold validate_linkedin_url. pose proof (length_strip s).
destruct (truthy s && truthy (strip s)); [|simpl; lia].
destruct (negb _); [|lia].
rewrite length_append. simpl. lia.
Qed.

(** X3: [validate_linkedin_url] returns the empty string exactly for
  [None] and for a string of white space only; any other result starts
  with [http://] or [https://], has no white space at either end, is at
  most eight characters longer than the input, and is left as it is when
  it is validated again. *)
Theorem linkedin_url_normal_form v :
let u := validate_linkedin_url v in
(u = "" ∨ startswith "http://" u = true ∨ startswith "https://" u = true)
∧ (u = "" ↔ ∀ s, v = Some s → strip s = "")
∧ strip u = u
∧ (∀ s, v = Some s → String.length u ≤ String.length s + 8)
∧ validate_linkedin_url (Some u) = u.
Proof.
simpl. split_and!; [| | | |apply validate_linkedin_url_again];
  destruct v as [s|]; unfold validate_linkedin_url; try done.
- destruct (truthy s && truthy (strip s)) eqn:Ht; [|by left]. right.
  destruct (startswith "http://" (strip s)) eqn:H1; [by left|].
  destruct (startswith "https://" (strip s)) eqn:H2; [by right|].
  right. apply startswith_https.
- by left.
- destruct (truthy s && truthy (strip s)) eqn:Ht.
  + apply andb_true_iff in Ht as [_ Ht].
    split.
    * destruct (negb _); [done|]. intros Hnil. by rewrite Hnil in Ht.
    * intros Hnil. by rewrite (Hnil s eq_refl) in Ht.
  + split; [|done]. intros _ s' [= <-].
    apply andb_false_iff in Ht as [Ht|Ht].
    * by destruct s.
    * by destruct (strip s).
- destruct (truthy s && truthy (strip s)) eqn:Ht; [|done].
  apply andb_true_iff in Ht as [_ Ht].
  destruct (negb _).
  + apply strip_https; [apply strip_idemp|]. by intros Hnil; rewrite Hnil in Ht.
  + apply strip_idemp.
- intros s' [= <-]. apply validate_linkedin_url_length.
Qed.

#[local] Arguments validate_linkedin_url : simpl never.
#[local] Arguments validate_email : simpl never.
#[local] Arguments check_length : simpl never.

(** X4: what a model class makes of an input it accepts: the three names
  and the notes as given and within their bounds, the email in lower
  case and matching the pattern, the status and the tags as given, and
  the URL normalised, of at most 508 characters. Such an object satisfies
  the model, and is accepted by the [Lead] constructor, exactly when its
  URL has at most 500 characters. *)
Theorem model_object_fields raw d :
LeadBase_validate raw = Ok d →
(company_name d = company_name raw
 ∧ 1 ≤ String.length (company_name d) ≤ 200)
∧ (contact_name d = contact_name raw
   ∧ 1 ≤ String.length (contact_name d) ≤ 200)
∧ (title d = title raw ∧ 1 ≤ String.length (title d) ≤ 200)
∧ (email d = lower (email raw) ∧ 5 ≤ String.length (email d) ≤ 200
   ∧ EmailPattern.re_match (email d) = true)
∧ (∃ u, linkedin_url d = Some u
        ∧ u = validate_linkedin_url (linkedin_url raw)
        ∧ String.length u ≤ 508
        ∧ (validated d ↔ String.length u ≤ 500)
        ∧ (500 < String.length u →
           LeadBase_validate d = Raise ValidationError))
∧ (notes d = notes raw ∧ ∀ n, notes d = Some n → String.length n ≤ 2000)
∧ status d = status raw
∧ tags d = tags raw.
Proof.
intros Hraw.
assert (validated d ↔
        ∀ u, linkedin_url d = Some u → String.length u ≤ 500) as Hvalid.
{ split.
  - intros Hv. by apply (LeadBase_validate_url_bound d d).
  - by apply (validate_validated raw). }
unfold LeadBase_validate in Hraw.
destruct (check_length 1 200 (company_name raw)) as [company|] eqn:H1; [|done].
destruct (check_length 1 200 (contact_name raw)) as [contact|] eqn:H2; [|done].
destruct (check_length 1 200 (title raw)) as [ttl|] eqn:H3; [|done].
destruct (check_length 5 200 (email raw)) as [mail|] eqn:H4; [|done].
simpl in Hraw.
destruct (validate_email mail) as [mail'|] eqn:H5; [|done].
destruct (check_length_opt 500 (linkedin_url raw)) as [url|] eqn:H6; [|done].
destruct (check_length_opt 2000 (notes raw)) as [nts|] eqn:H7; [|done].
simpl in Hraw. injection Hraw as <-. simpl in *.
apply check_length_Ok in H1 as [-> H1], H2 as [-> H2], H3 as [-> H3],
  H4 as [-> H4].
pose proof (validate_email_again _ _ H5) as Hagain.
pose proof (validate_email_length _ _ H5) as Hlen.
apply validate_email_Ok in H5 as [Hm ->].
assert (url = linkedin_url raw
        ∧ ∀ s, url = Some s → String.length s ≤ 500) as [-> Hurl].
{ destruct (linkedin_url raw) as [s|]; simpl in H6; [|by injection H6 as <-].
  destruct (check_length 0 500 s) as [s'|] eqn:Hs; [|done].
  apply check_length_Ok in Hs as [-> Hs]. injection H6 as <-.
  split; [done|]. intros ? [= <-]. lia. }
assert (nts = notes raw
        ∧ ∀ n, nts = Some n → String.length n ≤ 2000) as [-> Hnts].
{ destruct (notes raw) as [n|]; simpl in H7; [|by injection H7 as <-].
  destruct (check_length 0 2000 n) as [n'|] eqn:Hn; [|done].
  apply check_length_Ok in Hn as [-> Hn]. injection H7 as <-.
  split; [done|]. intros ? [= <-]. lia. }
split_and!; try done; try lia.
- by apply validate_email_Ok in Hagain as [? _].
- eexists. split; [done|]. split; [done|].
  assert (String.length (validate_linkedin_url (linkedin_url raw)) ≤ 508)
    as Hle.
  { destruct (linkedin_url raw) as [s|] eqn:Hs;
      [|unfold validate_linkedin_url; simpl; lia].
    pose proof (validate_linkedin_url_length s).
    specialize (Hurl s eq_refl). lia. }
  split; [done|]. split.
  + rewrite Hvalid. split.
    * intros Hu. by apply Hu.
    * intros Hu u [= <-]. exact Hu.
  + intros Hlong. unfold LeadBase_validate. simpl.
    rewrite (check_length_pass 1 200 (company_name raw)) by done.
    rewrite (check_length_pass 1 200 (contact_name raw)) by done.
    rewrite (check_length_pass 1 200 (title raw)) by done. simpl.
    rewrite (check_length_pass 5 200) by lia. simpl.
    rewrite Hagain. simpl.
    unfold check_length at 1.
    replace (String.length _ <=? 500)%nat with false
      by (symmetry; apply Nat.leb_gt; lia).
    by rewrite andb_false_r.
Qed.

End normal_forms.

(** * More on the store *)

Section runs.
Context `{!Datetime} `{!SetIteration}.
Implicit Types (lead new : Lead) (lead_data : LeadBase) (now : datetime).
Implicit Types (leads : list Lead) (st : Store) (lead_id : string).

Lemma load_saved leads n :
Forall (λ lead, validated (base lead)) leads →
load_leads {| leads_file := Some (leads_data leads); saves := n |}
= (Ok leads, {| leads_file := Some (leads_data leads); saves := n |}).
Proof. intros Hv. rewrite load_leads_run. simpl. by rewrite parse_leads_data. Qed.

Lemma load_leads_saves st r st1 :
load_leads st = (r, st1) → saves st1 = saves st.
Proof. by intros ->%load_leads_store. Qed.

Lemma get_lead_by_id_run lead_id st leads st1 :
load_leads st = (Ok leads, st1) →
get_lead_by_id lead_id st = (Ok (get_lead_by_id_loop lead_id leads), st1).
Proof. intros Hload. unfold get_lead_by_id. by rewrite (bind_ok _ _ _ _ _ Hload). Qed.

Lemma search_leads_run query st leads st1 :
load_leads st = (Ok leads, st1) →
search_leads query st
= (Ok (if Str.truthy query
       then filter (λ lead, search_matches (Str.lower query) lead = true) leads
       else leads), st1).
Proof.
intros Hload. unfold search_leads. destruct (Str.truthy query); simpl; [|done].
by rewrite (bind_ok _ _ _ _ _ Hload).
Qed.

Lemma check_duplicate_email_run mail exclude_id st leads st1 :
load_leads st = (Ok leads, st1) →
check_duplicate_email mail exclude_id st
= (Ok (check_duplicate_email_loop (Str.lower mail) exclude_id leads), st1).
Proof.
intros Hload. unfold check_duplicate_email.
by rewrite (bind_ok _ _ _ _ _ Hload).
Qed.

Lemma create_lead_run lead_data now uuid st leads st1 :
load_leads st = (Ok leads, st1) →
create_lead lead_data now uuid st
= match Lead_new uuid now None [created_activity now lead_data] lead_data with
  | Ok lead =>
      (Ok lead, {| leads_file := Some (leads_data (leads ++ [lead]));
                   saves := S (saves st) |})
  | Raise e => (Raise e, st1)
  end.
Proof.
intros Hload. unfold create_lead. rewrite (bind_ok _ _ _ _ _ Hload).
rewrite bind_run. unfold lift.
destruct (Lead_new _ _ _ _ _) as [lead|e]; [|done].
rewrite bind_run, save_leads_run. simpl.
by rewrite (load_leads_saves _ _ _ Hload).
Qed.

Lemma get_lead_by_id_loop_None lead_id leads :
get_lead_by_id_loop lead_id leads = None
↔ Forall (λ lead, id lead ≠ lead_id) leads.
Proof.
induction leads as [|lead leads IH]; simpl; [by split; [constructor|]|].
case_bool_decide as Hid.
- split; [done|]. by intros [? _]%Forall_cons.
- rewrite IH, Forall_cons. tauto.
Qed.

Lemma get_lead_by_id_loop_Some lead_id leads lead :
get_lead_by_id_loop lead_id leads = Some lead
↔ ∃ i, leads !! i = Some lead ∧ id lead = lead_id
       ∧ ∀ j l, j < i → leads !! j = Some l → id l ≠ lead_id.
Proof.
induction leads as [|x leads IH]; simpl.
- split; [done|]. by intros (i & ? & _).
- case_bool_decide as Hid.
  + split.
    * intros [= <-]. exists 0. split_and!; [done|done|]. intros; lia.
    * intros ([|i] & Hi & Hl & Hfirst).
      -- simpl in Hi. by injection Hi as <-.
      -- by destruct (Hfirst 0 x); [lia|..].
  + rewrite IH. split.
    * intros (i & Hi & Hl & Hfirst). exists (S i). split_and!; [done|done|].
      intros [|j] l Hj Hjl; simpl in Hjl; [by injection Hjl as <-|].
      apply (Hfirst j); [lia|done].
    * intros ([|i] & Hi & Hl & Hfirst); simpl in Hi.
      -- injection Hi as <-. done.
      -- exists i. split_and!; [done|done|].
         intros j l Hj Hjl. apply (Hfirst (S j)); [lia|done].
Qed.

Lemma update_loop_not_found lead_id lead_data now leads i rest st :
Forall (λ lead, id lead ≠ lead_id) rest →
update_loop lead_id lead_data now leads i rest st = (Ok None, st).
Proof.
intros Hall. revert i. induction Hall as [|lead rest Hid _ IH]; intros i.
- done.
- simpl. rewrite bool_decide_eq_false_2 by done. apply IH.
Qed.

(** [update_lead] changes the lead that [get_lead_by_id] finds. *)
Lemma update_lead_run lead_id lead_data now st leads st1 :
load_leads st = (Ok leads, st1) →
match get_lead_by_id_loop lead_id leads with
| None => update_lead lead_id lead_data now st = (Ok None, st1)
| Some old =>
    ∃ i, leads !! i = Some old ∧ id old = lead_id
         ∧ (∀ j l, j < i → leads !! j = Some l → id l ≠ lead_id)
         ∧ update_lead lead_id lead_data now st
           = match update_entry old lead_data now with
             | Ok updated =>
                 (Ok (Some updated),
                  {| leads_file := Some (leads_data (<[i := updated]> leads));
                     saves := S (saves st) |})
             | Raise e => (Raise e, st1)
             end
end.
Proof.
intros Hload. unfold update_lead. rewrite (bind_ok _ _ _ _ _ Hload).
destruct (get_lead_by_id_loop lead_id leads) as [old|] eqn:Hget.
- apply get_lead_by_id_loop_Some in Hget as (i & Hi & Hid & Hfirst).
  destruct (update_loop_found lead_id lead_data now leads st1 [] leads)
    as (i' & old' & Hi' & Hid' & Hfirst' & Hrun); [done|done|..].
  { exists old. split; [|done]. by eapply list_elem_of_lookup_2. }
  assert (i' = i) as ->.
  { destruct (Nat.lt_total i' i) as [Hlt|[Heq|Hgt]]; [|done|].
    - by destruct (Hfirst i' old' Hlt Hi').
    - by destruct (Hfirst' i old Hgt Hi). }
  assert (old' = old) as -> by congruence.
  exists i. split_and!; [done..|]. simpl in Hrun. rewrite Hrun.
  by rewrite (load_leads_saves _ _ _ Hload).
- apply get_lead_by_id_loop_None in Hget. by apply update_loop_not_found.
Qed.

Lemma delete_lead_run lead_id st leads st1 :
load_leads st = (Ok leads, st1) →
delete_lead lead_id st
= match get_lead_by_id_loop lead_id leads with
  | Some _ =>
      (Ok true,
       {| leads_file :=
            Some (leads_data (filter (λ lead, id lead ≠ lead_id) leads));
          saves := S (saves st) |})
  | None => (Ok false, st1)
  end.
Proof.
intros Hload. unfold delete_lead. rewrite (bind_ok _ _ _ _ _ Hload).
destruct (get_lead_by_id_loop lead_id leads) as [old|] eqn:Hget.
- apply get_lead_by_id_loop_Some in Hget as (i & Hi & Hid & _).
  rewrite bool_decide_eq_true_2.
  + rewrite bind_run, save_leads_run. simpl.
    by rewrite (load_leads_saves _ _ _ Hload).
  + apply filter_id_shorter. exists old. split; [|done].
    by eapply list_elem_of_lookup_2.
- apply get_lead_by_id_loop_None in Hget.
  rewrite bool_decide_eq_false_2; [done|].
  rewrite filter_id_shorter. intros (lead & Hin & Hid).
  by eapply Forall_forall in Hget.
Qed.

Lemma get_stats_run st leads st1 :
load_leads st = (Ok leads, st1) → get_stats st = (stats_of leads, st1).
Proof. intros Hload. unfold get_stats. by rewrite (bind_ok _ _ _ _ _ Hload). Qed.

Lemma bind_raise {A B} (m : M A) (f : A → M B) st e st' :
m st = (Raise e, st') → (m ≫= f) st = (Raise e, st').
Proof. intros Hm. by rewrite bind_run, Hm. Qed.

End runs.

Section queries_claims.
Context `{!Datetime} `{!SetIteration}.
Implicit Types (lead new : Lead) (lead_data : LeadBase) (now : datetime).
Implicit Types (leads : list Lead) (st : Store) (lead_id query mail : string).

Lemma run_store {A} (op : M A) st :
(∀ leads st1, load_leads st = (Ok leads, st1) → ∃ r, op st = (r, st1)) →
(∀ e st1, load_leads st = (Raise e, st1) → op st = (Raise e, st1)) →
(op st).2 = with_file st.
Proof.
intros Hok Hraise. destruct (load_leads st) as [[leads|e] st1] eqn:Hload.
- destruct (Hok leads st1 eq_refl) as [r ->]. simpl.
  by eapply load_leads_store.
- rewrite (Hraise e st1 eq_refl). simpl. by eapply load_leads_store.
Qed.

(** X5: the queries never save and never touch a file that exists; all
  they may do to the store is create the empty document where there was
  no file. *)
Theorem queries_only_create_the_file lead_id query mail exclude_id st :
(get_all_leads st).2 = with_file st
∧ (get_lead_by_id lead_id st).2 = with_file st
∧ (search_leads query st).2 = with_file st
∧ (check_duplicate_email mail exclude_id st).2 = with_file st
∧ (get_stats st).2 = with_file st
∧ saves (with_file st) = saves st
∧ leads_file (with_file st) = Some (default empty_document (leads_file st)).
Proof.
split_and!; try done.
- unfold get_all_leads. apply run_store; intros ?? ->; by eauto.
- apply run_store.
  + intros leads st1 Hload. rewrite (get_lead_by_id_run _ _ _ _ Hload). eauto.
  + intros e st1 Hload. by apply bind_raise.
- apply run_store.
  + intros leads st1 Hload. rewrite (search_leads_run _ _ _ _ Hload). eauto.
  + intros e st1 Hload. unfold search_leads.
    destruct (Str.truthy query); simpl; [by apply bind_raise|done].
- apply run_store.
  + intros leads st1 Hload.
    rewrite (check_duplicate_email_run _ _ _ _ _ Hload). eauto.
  + intros e st1 Hload. by apply bind_raise.
- apply run_store.
  + intros leads st1 Hload. rewrite (get_stats_run _ _ _ Hload). eauto.
  + intros e st1 Hload. by apply bind_raise.
Qed.

(** X6: when the file cannot be loaded, no operation does anything but
  raise what loading raised: nothing is saved, and the store is left as
  loading left it. *)
Theorem load_failure_stops_every_operation
  e st st1 lead_id lead_data now uuid query mail exclude_id :
load_leads st = (Raise e, st1) →
st1 = with_file st
∧ get_all_leads st = (Raise e, st1)
∧ get_lead_by_id lead_id st = (Raise e, st1)
∧ search_leads query st = (Raise e, st1)
∧ check_duplicate_email mail exclude_id st = (Raise e, st1)
∧ get_stats st = (Raise e, st1)
∧ create_lead lead_data now uuid st = (Raise e, st1)
∧ update_lead lead_id lead_data now st = (Raise e, st1)
∧ delete_lead lead_id st = (Raise e, st1).
Proof.
intros Hload. split_and!; try (by apply bind_raise); try done.
- by eapply load_leads_store.
- unfold search_leads.
  destruct (Str.truthy query); simpl; [by apply bind_raise|done].
Qed.

(** X7: without a file every query answers as for no leads, an update
  finds nothing and a deletion deletes nothing; the file then exists and
  holds the empty document, and nothing was saved. *)
Theorem first_run_is_empty st lead_id lead_data now query mail exclude_id :
leads_file st = None →
let st1 := {| leads_file := Some empty_document; saves := saves st |} in
get_all_leads st = (Ok [], st1)
∧ get_lead_by_id lead_id st = (Ok None, st1)
∧ search_leads query st = (Ok [], st1)
∧ check_duplicate_email mail exclude_id st = (Ok false, st1)
∧ get_stats st
  = (Ok {| total := 0; by_status := initial_status_counts;
           top_companies := [] |}, st1)
∧ update_lead lead_id lead_data now st = (Ok None, st1)
∧ delete_lead lead_id st = (Ok false, st1).
Proof.
intros Hfile st1.
assert (load_leads st = (Ok [], st1)) as Hload.
{ rewrite load_leads_run. unfold with_file. by rewrite Hfile. }
split_and!.
- done.
- by rewrite (get_lead_by_id_run _ _ _ _ Hload).
- rewrite (search_leads_run _ _ _ _ Hload). by destruct (Str.truthy query).
- by rewrite (check_duplicate_email_run _ _ _ _ _ Hload).
- by rewrite (get_stats_run _ _ _ Hload).
- by pose proof (update_lead_run lead_id lead_data now _ _ _ Hload).
- by rewrite (delete_lead_run _ _ _ _ Hload).
Qed.

(** X8: [get_lead_by_id] returns the first lead of the file that carries
  the identifier, and [None] exactly when no lead carries it; where
  identifiers are unique it returns the lead that carries it. *)
Theorem get_lead_by_id_first_match lead_id st leads st1 :
load_leads st = (Ok leads, st1) →
∃ found,
  get_lead_by_id lead_id st = (Ok found, st1)
  ∧ (found = None ↔ ∀ lead, lead ∈ leads → id lead ≠ lead_id)
  ∧ (∀ lead, found = Some lead
             ↔ ∃ i, leads !! i = Some lead ∧ id lead = lead_id
                    ∧ ∀ j l, j < i → leads !! j = Some l → id l ≠ lead_id)
  ∧ (NoDup (id <$> leads) →
     ∀ lead, lead ∈ leads → id lead = lead_id → found = Some lead).
Proof.
intros Hload. eexists. split; [by apply get_lead_by_id_run|]. split_and!.
- by rewrite get_lead_by_id_loop_None, Forall_forall.
- intros lead. apply get_lead_by_id_loop_Some.
- intros Hnd lead Hin Hid.
  destruct (get_lead_by_id_loop lead_id leads) as [l|] eqn:Hget.
  + apply get_lead_by_id_loop_Some in Hget as (i & Hi & Hl & _).
    apply list_elem_of_lookup in Hin as [j Hj]. f_equal.
    assert (i = j) as ->; [|congruence].
    apply (NoDup_lookup (id <$> leads) i j (id l)); [done|..];
      rewrite list_lookup_fmap; [by rewrite Hi|rewrite Hj; simpl; congruence].
  + apply get_lead_by_id_loop_None in Hget.
    by eapply Forall_forall in Hget.
Qed.

Lemma search_matches_contains q lead :
search_matches q lead = true
↔ Str.contains q (Str.lower (company_name lead))
  ∨ Str.contains q (Str.lower (contact_name lead))
  ∨ Str.contains q (Str.lower (email lead)).
Proof.
unfold search_matches. rewrite !orb_true_iff, !str_in_contains. tauto.
Qed.


Lemma check_duplicate_email_loop_true mail_lower exclude_id leads :
check_duplicate_email_loop mail_lower exclude_id leads = true
↔ ∃ lead, lead ∈ leads ∧ Str.lower (email lead) = mail_lower
          ∧ Some (id lead) ≠ exclude_id.
Proof.
induction leads as [|x leads IH]; simpl.
- split; [done|]. by intros (? & ?%elem_of_nil & _).
- destruct (bool_decide (Str.lower (email x) = mail_lower)
            && bool_decide (Some (id x) ≠ exclude_id)) eqn:Hx.
  + apply andb_true_iff in Hx as [?%bool_decide_eq_true ?%bool_decide_eq_true].
    split; [|done]. intros _. exists x. split_and!; [left|done|done].
  + rewrite IH. split.
    * intros (lead & Hin & ?). exists lead. split; [by right|done].
    * intros (lead & [->|Hin]%elem_of_cons & Hm & Hid); [|by exists lead].
      apply andb_false_iff in Hx as [Hx%bool_decide_eq_false|Hx%bool_decide_eq_false];
        done.
Qed.

(** X10: [check_duplicate_email] answers [True] exactly when some lead
  other than the excluded one has the address, letter case apart; the
  case of the address asked about does not matter, and with nothing
  excluded every lead counts. *)
Theorem check_duplicate_email_ignores_case mail exclude_id st leads st1 :
load_leads st = (Ok leads, st1) →
∃ dup,
  check_duplicate_email mail exclude_id st = (Ok dup, st1)
  ∧ (dup = true
     ↔ ∃ lead, lead ∈ leads ∧ Str.lower (email lead) = Str.lower mail
               ∧ Some (id lead) ≠ exclude_id)
  ∧ (∀ mail', Str.lower mail' = Str.lower mail →
              check_duplicate_email mail' exclude_id st = (Ok dup, st1))
  ∧ (exclude_id = None →
     (dup = true ↔ ∃ lead, lead ∈ leads
                           ∧ Str.lower (email lead) = Str.lower mail)).
Proof.
intros Hload. eexists. split; [by apply check_duplicate_email_run|].
split_and!.
- apply check_duplicate_email_loop_true.
- intros mail' Hm. rewrite (check_duplicate_email_run _ _ _ _ _ Hload).
  by rewrite Hm.
- intros ->. rewrite check_duplicate_email_loop_true.
  split; intros (lead & ? & ?); exists lead; [tauto|]. by split_and!.
Qed.

End queries_claims.

Section loading_claims.
Context `{!Datetime} `{!SetIteration}.
Implicit Types (lead : Lead) (leads : list Lead) (st : Store).
Implicit Types (m : gmap string json) (items : list json).

Lemma result_bind_Ok {A B} (r : result A) (f : A → result B) b :
r ≫= f = Ok b ↔ ∃ a, r = Ok a ∧ f a = Ok b.
Proof.
destruct r as [a|e]; simpl.
- split; [by exists a|]. by intros (? & [= <-] & ?).
- split; [done|]. by intros (? & ? & _).
Qed.

Lemma mapM_Ok_Forall2 {A B} (f : A → result B) (l : list A) (k : list B) :
mapM f l = Ok k ↔ Forall2 (λ x y, f x = Ok y) l k.
Proof.
revert k. induction l as [|x l IH]; intros k; simpl.
- split; [by intros [= <-]|by intros ->%Forall2_nil_inv_l].
- rewrite result_bind_Ok. split.
  + intros (y & Hy & (k' & Hk' & [= <-])%result_bind_Ok).
    constructor; [done|]. by apply IH.
  + intros (y & k' & Hy & Hk' & ->)%Forall2_cons_inv_l.
    exists y. split; [done|]. apply result_bind_Ok. exists k'.
    split; [by apply IH|done].
Qed.

Lemma mapM_first_Raise {A B} (f : A → result B) (good : list A) bad rest k e :
mapM f good = Ok k → f bad = Raise e →
mapM f (good ++ bad :: rest) = Raise e.
Proof.
revert k. induction good as [|x good IH]; intros k; simpl.
- intros _ ->. done.
- destruct (f x) as [y|]; [|done]. simpl.
  destruct (mapM f good) as [k'|] eqn:Hk; [|done]. simpl.
  intros _ Hbad. by rewrite (IH k' eq_refl Hbad).
Qed.

Lemma Lead_new_Ok ident added contacted history fields lead :
Lead_new ident added contacted history fields = Ok lead
↔ ∃ d, LeadBase_validate fields = Ok d
       ∧ lead = {| base := d; id := ident; date_added := added;
                   last_contacted := contacted;
                   activity_history := history |}.
Proof.
unfold Lead_new. rewrite result_bind_Ok.
split; intros (d & Hd & Hl); exists d; (split; [done|]); congruence.
Qed.

Lemma load_lead_model_object item lead :
load_lead item = Ok lead → model_object (base lead).
Proof.
unfold load_lead. intros Hload.
repeat (apply result_bind_Ok in Hload as (? & ? & Hload)).
injection Hload as <-. simpl. eexists. eassumption.
Qed.

Lemma model_object_normal d :
model_object d →
Str.lower (email d) = email d
∧ EmailPattern.re_match (email d) = true
∧ ∃ u, linkedin_url d = Some u ∧ validate_linkedin_url (Some u) = u.
Proof.
intros [raw Hraw]. unfold LeadBase_validate in Hraw.
destruct (check_length 1 200 (company_name raw)); [|done].
destruct (check_length 1 200 (contact_name raw)); [|done].
destruct (check_length 1 200 (title raw)); [|done].
destruct (check_length 5 200 (email raw)) as [mail|]; [|done].
simpl in Hraw.
destruct (validate_email mail) as [mail'|] eqn:Hmail; [|done].
destruct (check_length_opt 500 (linkedin_url raw)) as [url|]; [|done].
destruct (check_length_opt 2000 (notes raw)); [|done].
simpl in Hraw. injection Hraw as <-. simpl.
pose proof (validate_email_again _ _ Hmail) as Hagain.
apply validate_email_Ok in Hmail as [_ ->].
apply validate_email_Ok in Hagain as [? _].
split_and!; [apply lower_idemp|done|].
eexists. split; [done|]. apply validate_linkedin_url_again.
Qed.

(** X11: whatever the file holds, every lead that [load_leads] returns
  went through the model: its fields are what the model makes of some
  input, its email is in lower case and matches the pattern, and its URL
  is a string in the form the validator leaves. *)
Theorem loaded_leads_pass_the_model st leads st1 :
load_leads st = (Ok leads, st1) →
Forall (λ lead,
          model_object (base lead)
          ∧ Str.lower (email lead) = email lead
          ∧ EmailPattern.re_match (email lead) = true
          ∧ ∃ u, linkedin_url lead = Some u
                 ∧ validate_linkedin_url (Some u) = u) leads.
Proof.
rewrite load_leads_run. intros [= Hparse _]. unfold parse_document in Hparse.
apply result_bind_Ok in Hparse as (data & _ & Hparse).
apply result_bind_Ok in Hparse as (items & _ & Hitems).
apply mapM_Ok_Forall2 in Hitems.
apply Forall_forall. intros lead Hin.
apply list_elem_of_lookup in Hin as [i Hi].
destruct (Forall2_lookup_r _ _ _ _ _ Hitems Hi) as (item & _ & Hitem).
apply load_lead_model_object in Hitem.
split; [done|]. by apply model_object_normal.
Qed.

(** X12: a record of the file that holds the six required keys and none
  of the others is loaded with the defaults of the model: no URL, the
  status [not_contacted], empty notes, no tags, no date of last contact
  and an empty history. *)
Theorem record_without_optional_keys
  m ident company contact ttl mail stamp added d :
m !! "id" = Some (JStr ident) →
m !! "company_name" = Some (JStr company) →
m !! "contact_name" = Some (JStr contact) →
m !! "title" = Some (JStr ttl) →
m !! "email" = Some (JStr mail) →
m !! "date_added" = Some (JStr stamp) →
fromisoformat stamp = Some added →
m !! "linkedin_url" = None → m !! "status" = None →
m !! "notes" = None → m !! "tags" = None →
m !! "last_contacted" = None → m !! "activity_history" = None →
LeadBase_validate
  {| company_name := company; contact_name := contact; title := ttl;
     email := mail; linkedin_url := Some ""; status := NOT_CONTACTED;
     notes := Some ""; tags := [] |} = Ok d →
load_lead (JObj m)
= Ok {| base := d; id := ident; date_added := added;
        last_contacted := None; activity_history := [] |}
∧ linkedin_url d = Some "" ∧ status d = NOT_CONTACTED
∧ notes d = Some "" ∧ tags d = [].
Proof.
intros Hid Hc Hn Ht He Hda Hiso Hu Hs Hno Htg Hlc Hh Hd. split.
- unfold load_lead. simpl.
  unfold convert_datetime. rewrite Hda, Hiso. simpl.
  unfold convert_datetime_truthy. rewrite Hlc. simpl. rewrite Hh. simpl.
  unfold required_str. rewrite Hc, Hn, Ht, He, Hid. simpl.
  unfold optional_str. rewrite Hu, Hno. simpl.
  unfold status_field. rewrite Hs. simpl.
  unfold str_list. rewrite Htg. simpl.
  unfold Lead_new. by rewrite Hd.
- unfold LeadBase_validate in Hd.
  cbn [company_name contact_name title email linkedin_url notes status tags]
    in Hd.
  destruct (check_length 1 200 company); [|done].
  destruct (check_length 1 200 contact); [|done].
  destruct (check_length 1 200 ttl); [|done].
  destruct (check_length 5 200 mail) as [mail'|]; [|done].
  simpl in Hd. destruct (validate_email mail'); [|done].
  simpl in Hd. by injection Hd as <-.
Qed.

(** X13: one record that the model rejects makes the whole file
  unreadable: [load_leads] raises what the first such record raises and
  returns no lead at all. *)
Theorem first_bad_record_fails_the_load st m good bad rest leads e :
leads_file st = Some (JObj m) →
m !! "leads" = Some (JArr (good ++ bad :: rest)) →
mapM load_lead good = Ok leads →
load_lead bad = Raise e →
load_leads st = (Raise e, st).
Proof.
intros Hfile Hm Hgood Hbad.
rewrite load_leads_run, with_file_id by (by rewrite Hfile).
rewrite Hfile. simpl. unfold parse_document. simpl. rewrite Hm. simpl.
by rewrite (mapM_first_Raise _ _ _ _ _ _ Hgood Hbad).
Qed.

End loading_claims.

Section composition.
Context `{!Datetime} `{!SetIteration}.
Implicit Types (lead new old : Lead) (lead_data : LeadBase) (now : datetime).
Implicit Types (leads : list Lead) (st : Store) (lead_id other : string).

Lemma get_lead_by_id_loop_app lead_id leads leads' :
get_lead_by_id_loop lead_id (leads ++ leads')
= match get_lead_by_id_loop lead_id leads with
  | Some lead => Some lead
  | None => get_lead_by_id_loop lead_id leads'
  end.
Proof.
induction leads as [|x leads IH]; [done|]. simpl. by case_bool_decide.
Qed.



Lemma Lead_new_validated ident added contacted history lead_data :
validated lead_data →
Lead_new ident added contacted history lead_data
= Ok {| base := lead_data; id := ident; date_added := added;
        last_contacted := contacted; activity_history := history |}.
Proof. intros Hv. unfold Lead_new. by rewrite Hv. Qed.

(** X14: a lead created from fields that satisfy the model, in a file
  whose leads satisfy it, is there afterwards: the file loads as the old
  leads followed by the new one, the lead is found by its identifier if
  no older lead carries it, by its company name in a search and by its
  address in the duplicate check, and every older lead is found as
  before. *)
Theorem created_lead_is_found lead_data now uuid st leads st1 :
validated lead_data →
load_leads st = (Ok leads, st1) →
Forall (λ lead, validated (base lead)) leads →
∃ lead st',
  create_lead lead_data now uuid st = (Ok lead, st')
  ∧ get_all_leads st' = (Ok (leads ++ [lead]), st')
  ∧ ((∀ l, l ∈ leads → id l ≠ uuid) →
     get_lead_by_id uuid st' = (Ok (Some lead), st'))
  ∧ (∀ l, l ∈ leads →
          (get_lead_by_id (id l) st').1 = (get_lead_by_id (id l) st).1)
  ∧ check_duplicate_email (email lead_data) None st' = (Ok true, st')
  ∧ (∃ found, search_leads (company_name lead_data) st' = (Ok found, st')
              ∧ lead ∈ found).
Proof.
intros Hv Hload Hall.
rewrite (create_lead_run _ _ _ _ _ _ Hload), (Lead_new_validated _ _ _ _ _ Hv).
set (lead := {| base := lead_data |}).
do 2 eexists. split; [done|].
assert (Forall (λ lead, validated (base lead)) (leads ++ [lead])) as Hall'.
{ apply Forall_app. split; [done|]. by constructor. }
pose proof (load_saved _ (S (saves st)) Hall') as Hload'.
split_and!.
- done.
- intros Hfresh. rewrite (get_lead_by_id_run _ _ _ _ Hload').
  rewrite get_lead_by_id_loop_app.
  rewrite (proj2 (get_lead_by_id_loop_None uuid leads))
    by (by apply Forall_forall).
  simpl. by rewrite bool_decide_eq_true_2.
- intros l Hl. rewrite (get_lead_by_id_run _ _ _ _ Hload').
  rewrite (get_lead_by_id_run _ _ _ _ Hload). simpl.
  rewrite get_lead_by_id_loop_app.
  destruct (get_lead_by_id_loop (id l) leads) eqn:Hget; [done|].
  apply get_lead_by_id_loop_None in Hget.
  by eapply Forall_forall in Hget.
- rewrite (check_duplicate_email_run _ _ _ _ _ Hload'). do 2 f_equal.
  apply check_duplicate_email_loop_true. exists lead.
  split_and!; [|done|done]. apply elem_of_app. right. left.
- rewrite (search_leads_run _ _ _ _ Hload'). eexists. split; [done|].
  destruct (company_name lead_data) as [|c s] eqn:Hc.
  + apply elem_of_app. right. left.
  + simpl Str.truthy. cbv iota. apply list_elem_of_filter. split.
    * apply search_matches_contains. left. simpl. rewrite Hc.
      apply contains_refl.
    * apply elem_of_app. right. left.
Qed.



(** X17: an update by an identifier that no lead carries returns [None]
  and saves nothing, and [update_lead] finds a lead exactly when
  [get_lead_by_id] does: it then updates that lead and no other. *)
Theorem update_lead_finds_what_get_finds lead_id lead_data now st leads st1 :
load_leads st = (Ok leads, st1) →
∃ found,
  get_lead_by_id lead_id st = (Ok found, st1)
  ∧ (found = None →
     update_lead lead_id lead_data now st = (Ok None, st1)
     ∧ saves st1 = saves st)
  ∧ (∀ old, found = Some old →
       ∃ i, leads !! i = Some old
            ∧ match update_entry old lead_data now with
              | Ok updated =>
                  ∃ st', update_lead lead_id lead_data now st
                         = (Ok (Some updated), st')
                         ∧ leads_file st'
                           = Some (leads_data (<[i := updated]> leads))
                         ∧ saves st' = S (saves st)
              | Raise e =>
                  update_lead lead_id lead_data now st = (Raise e, st1)
              end).
Proof.
intros Hload. eexists. split; [by apply get_lead_by_id_run|].
pose proof (update_lead_run lead_id lead_data now _ _ _ Hload) as Hrun.
destruct (get_lead_by_id_loop lead_id leads) as [old|] eqn:Hget.
- split; [done|]. intros ? [= <-].
  destruct Hrun as (i & Hi & _ & _ & ->). exists i. split; [done|].
  destruct (update_entry old lead_data now); [|done]. by eexists.
- split; [|done]. intros _. split; [done|]. by eapply load_leads_saves.
Qed.

End composition.

(** * More on the history engine *)

Section history_more.
Context `{!Datetime} `{!SetIteration}.
Implicit Types (lead new : Lead) (lead_data : LeadBase) (now : datetime).
Implicit Types (a : Activity) (acts : list Activity).

Lemma specific_part_entries lead lead_data now :
Forall (λ a, type a ∈ tracked_types ∧ timestamp a = now
             ∧ (is_Some (details a) → type a = NOTE_ADDED))
  (specific_part lead lead_data now).
Proof.
unfold specific_part, status_part, note_part, tag_added_part,
  tag_removed_part, tracked_types.
rewrite !Forall_app. split_and!.
- case_bool_decide; [|constructor]. constructor; [|constructor]. simpl.
  split_and!; [set_solver|done|by intros [? [=]]].
- destruct (notes lead_data); [|constructor].
  destruct (notes_changed _ _); [|constructor].
  constructor; [|constructor]. simpl. split_and!; [set_solver|done|done].
- apply Forall_fmap, Forall_true. intros tag. simpl.
  split_and!; [set_solver|done|by intros [? [=]]].
- apply Forall_fmap, Forall_true. intros tag. simpl.
  split_and!; [set_solver|done|by intros [? [=]]].
Qed.

Lemma specific_part_fallback lead lead_data now :
specific_part lead lead_data now ≠ [] →
fallback_part lead lead_data now = [].
Proof.
intros Hne. unfold fallback_part, last_is_tracked. rewrite last_app.
destruct (last (specific_part lead lead_data now)) as [a|] eqn:Hl.
- apply last_Some_elem_of in Hl.
  pose proof (specific_part_entries lead lead_data now) as Hall.
  eapply Forall_forall in Hall as [Ht _]; [|done].
  by rewrite bool_decide_eq_true_2.
- by apply last_None in Hl.
Qed.

Lemma notes_changed_false lead lead_data :
notes_changed lead_data lead = false
↔ notes lead_data = None ∨ notes lead_data = Some ""
  ∨ notes lead_data = notes lead.
Proof.
unfold notes_changed. destruct (notes lead_data) as [s|] eqn:Hs.
- rewrite andb_false_iff, bool_decide_eq_false. split.
  + intros [Ht|Heq]; [right; left; by destruct s|].
    right. right. by apply dec_stable.
  + intros [?|[[= ->]|Heq]]; [done|by left|right; by intros ?].
- split; [by left|done].
Qed.

Lemma tag_sets_equal lead lead_data :
added_tags lead lead_data = ∅ ∧ removed_tags lead lead_data = ∅
↔ ∀ tag, tag ∈ tags lead_data ↔ tag ∈ tags lead.
Proof.
split.
- intros [Ha Hr] tag.
  pose proof (elem_of_added_tags lead lead_data tag) as Hat.
  pose proof (elem_of_removed_tags lead lead_data tag) as Hrt.
  rewrite Ha in Hat. rewrite Hr in Hrt.
  destruct (decide (tag ∈ tags lead_data)), (decide (tag ∈ tags lead));
    set_solver.
- intros Heq. split; apply set_eq; intros tag.
  + rewrite elem_of_added_tags. set_solver.
  + rewrite elem_of_removed_tags. set_solver.
Qed.

Lemma fmap_nil_iff {A B} (f : A → B) (l : list A) : f <$> l = [] ↔ l = [].
Proof. split; [apply fmap_nil_inv|by intros ->]. Qed.

Lemma specific_part_nil lead lead_data now :
specific_part lead lead_data now = []
↔ status lead_data = status lead
  ∧ notes_changed lead_data lead = false
  ∧ added_tags lead lead_data = ∅ ∧ removed_tags lead lead_data = ∅.
Proof.
unfold specific_part. rewrite !app_nil.
unfold status_part, note_part, tag_added_part, tag_removed_part.
rewrite !fmap_nil_iff, !set_iter_nil.
assert ((if bool_decide (status lead_data ≠ status lead)
         then [status_changed_activity now lead lead_data] else []) = []
        ↔ status lead_data = status lead) as ->.
{ case_bool_decide as Hs.
  - split; [done|]. intros Heq. by destruct Hs.
  - split; [|done]. intros _.
    destruct (decide (status lead_data = status lead)); [done|].
    by destruct Hs. }
assert (match notes lead_data with
        | Some new_notes =>
            if notes_changed lead_data lead
            then [note_added_activity now new_notes] else []
        | None => []
        end = [] ↔ notes_changed lead_data lead = false) as ->; [|done].
unfold notes_changed. destruct (notes lead_data) as [s|]; [|done].
by destruct (_ && _).
Qed.

(** X18: an accepted update appends nothing at all exactly when the
  status is unchanged, the new notes are [None], empty or the old notes,
  the tags are the same as a set, and the old history ends with a
  [status_changed], [note_added], [tag_added] or [tag_removed] entry. *)
Theorem update_leaves_no_entry_iff lead lead_data now new :
update_entry lead lead_data now = Ok new →
(appended lead new = []
 ↔ status lead_data = status lead
   ∧ (notes lead_data = None ∨ notes lead_data = Some ""
      ∨ notes lead_data = notes lead)
   ∧ (∀ tag, tag ∈ tags lead_data ↔ tag ∈ tags lead)
   ∧ ∃ a, last (activity_history lead) = Some a
          ∧ type a ∈ tracked_types).
Proof.
intros [_ ->]%appended_parts.
rewrite <-notes_changed_false, <-tag_sets_equal, app_nil. split.
- intros [Hs Hf]. apply (specific_part_nil _ _ now) in Hs as Hs'.
  destruct Hs' as (Hst & Hn & Ha & Hr). split_and!; try done.
  unfold fallback_part in Hf. rewrite Hs, app_nil_r in Hf.
  unfold last_is_tracked in Hf.
  destruct (last (activity_history lead)) as [a|]; [|done].
  exists a. split; [done|]. by case_bool_decide.
- intros (Hst & Hn & [Ha Hr] & a & Hl & Ht).
  assert (specific_part lead lead_data now = []) as Hs
    by (by apply specific_part_nil).
  split; [done|]. unfold fallback_part. rewrite Hs, app_nil_r.
  unfold last_is_tracked. rewrite Hl. by rewrite bool_decide_eq_true_2.
Qed.

(** X19: every entry an accepted update appends carries the time of the
  update and is no [created] entry, and only a [note_added] entry has
  details; an [updated] entry is never appended beside another entry: the
  update appended it alone. *)
Theorem fallback_entry_stands_alone lead lead_data now new :
update_entry lead lead_data now = Ok new →
Forall (λ a, timestamp a = now ∧ type a ≠ CREATED
             ∧ (is_Some (details a) → type a = NOTE_ADDED))
  (appended lead new)
∧ (∀ a, a ∈ appended lead new → type a = UPDATED →
        appended lead new = [updated_activity now]).
Proof.
intros [_ ->]%appended_parts.
pose proof (specific_part_entries lead lead_data now) as Hspec.
split.
- apply Forall_app. split.
  + eapply Forall_impl; [done|]. intros a (Ht & Hts & Hd).
    split_and!; [done| |done]. intros Hc. rewrite Hc in Ht.
    unfold tracked_types in Ht. set_solver.
  + unfold fallback_part. destruct (last_is_tracked _); [constructor|].
    constructor; [|constructor]. simpl.
    split_and!; [done|done|by intros [? [=]]].
- intros a Hin Ht.
  destruct (decide (specific_part lead lead_data now = [])) as [Hs|Hs].
  + rewrite Hs in *. simpl in *. unfold fallback_part in *.
    destruct (last_is_tracked _); [by apply elem_of_nil in Hin|done].
  + rewrite (specific_part_fallback _ _ _ Hs), app_nil_r in Hin.
    eapply Forall_forall in Hspec as [Htr _]; [|done].
    rewrite Ht in Htr. unfold tracked_types in Htr. set_solver.
Qed.

Lemma LeadBase_validate_keeps lead_data d :
LeadBase_validate lead_data = Ok d →
status d = status lead_data ∧ notes d = notes lead_data
∧ tags d = tags lead_data.
Proof.
unfold LeadBase_validate. intros Hd.
destruct (check_length 1 200 (company_name lead_data)); [|done].
destruct (check_length 1 200 (contact_name lead_data)); [|done].
destruct (check_length 1 200 (title lead_data)); [|done].
destruct (check_length 5 200 (email lead_data)) as [mail|]; [|done].
simpl in Hd. destruct (validate_email mail); [|done].
destruct (check_length_opt 500 (linkedin_url lead_data)); [|done].
destruct (check_length_opt 2000 (notes lead_data)) as [nts|] eqn:Hn; [|done].
simpl in Hd. injection Hd as <-. simpl. split_and!; [done| |done].
destruct (notes lead_data) as [n|]; simpl in Hn; [|by injection Hn].
unfold check_length in Hn. destruct (_ && _); [|done]. by injection Hn.
Qed.

(** X20: an accepted update sent a second time is accepted again and
  changes no field. It appends nothing if the first time appended a
  [status_changed], [note_added], [tag_added] or [tag_removed] entry, or
  nothing at all; it appends one more [updated] entry if the first time
  appended one. *)
Theorem repeated_update lead lead_data now now' new :
update_entry lead lead_data now = Ok new →
∃ new',
  update_entry new lead_data now' = Ok new'
  ∧ base new' = base new
  ∧ last_contacted new' = last_contacted new
  ∧ (appended lead new = [] → appended new new' = [])
  ∧ (appended lead new = [updated_activity now] →
     appended new new' = [updated_activity now'])
  ∧ ((∃ a, a ∈ appended lead new ∧ type a ≠ UPDATED) →
     appended new new' = []).
Proof.
intros Hnew.
pose proof Hnew as (_ & _ & _ & Hhist & Hbase)%update_entry_inv.
destruct (LeadBase_validate_keeps _ _ Hbase) as (Hs & Hn & Ht).
pose proof (update_entry_parts new lead_data now') as Hparts.
unfold Lead_new in Hparts. rewrite Hbase in Hparts. simpl in Hparts.
eexists. split; [exact Hparts|].
pose proof (untracked_update_appended new lead_data now' _ Hparts
              (eq_sym Hs) (eq_sym Hn) (eq_sym Ht)) as Happ.
rewrite Happ. clear Happ Hparts.
destruct (appended_parts _ _ _ _ Hnew) as [_ Happ]. rewrite Happ.
split_and!; [done| | | |].
- simpl. rewrite bool_decide_eq_false_2; [done|]. intros [Hne _].
  by rewrite Hs in Hne.
- intros [Hspec Hfall]%app_nil. rewrite Hhist, Hspec, Hfall.
  simpl. rewrite app_nil_r. unfold fallback_part in Hfall.
  rewrite Hspec, app_nil_r in Hfall.
  by destruct (last_is_tracked (activity_history lead)).
- intros Hone.
  assert (specific_part lead lead_data now = []) as Hspec.
  { destruct (decide (specific_part lead lead_data now = [])) as [|Hne];
      [done|].
    rewrite (specific_part_fallback _ _ _ Hne), app_nil_r in Hone.
    pose proof (specific_part_entries lead lead_data now) as Hall.
    rewrite Hone in Hall. apply Forall_cons in Hall as [[Htr _] _].
    unfold tracked_types in Htr. simpl in Htr. set_solver. }
  rewrite Hspec in Hone. simpl in Hone.
  rewrite Hhist, Hspec, Hone. simpl.
  unfold last_is_tracked. rewrite last_app. simpl. done.
- intros (a & Hin & Hty).
  assert (specific_part lead lead_data now ≠ []) as Hne.
  { intros Hspec. rewrite Hspec in Hin. simpl in Hin.
    pose proof (fallback_part_type lead lead_data now) as Hall.
    eapply Forall_forall in Hall; [|done]. done. }
  rewrite Hhist, (specific_part_fallback _ _ _ Hne), app_nil_r.
  unfold last_is_tracked. rewrite last_app.
  destruct (last (specific_part lead lead_data now)) as [b|] eqn:Hl;
    [|by apply last_None in Hl].
  apply last_Some_elem_of in Hl.
  pose proof (specific_part_entries lead lead_data now) as Hall.
  eapply Forall_forall in Hall as [Htr _]; [|done].
  by rewrite bool_decide_eq_true_2.
Qed.

End history_more.

(** * What the application keeps true of the store *)

Section invariant.
Context `{!Datetime} `{!SetIteration}.
Implicit Types (lead new old : Lead) (lead_data : LeadBase) (now : datetime).
Implicit Types (leads : list Lead) (st : Store) (lead_id : string).

Lemma well_formed_validated leads :
Forall well_formed leads → Forall (λ lead, validated (base lead)) leads.
Proof. intros Hwf. eapply Forall_impl; [done|]. by intros lead [? _]. Qed.

Lemma sound_load st :
sound st →
∃ leads, load_leads st = (Ok leads, with_file st)
         ∧ Forall well_formed leads
         ∧ leads_file (with_file st) = Some (leads_data leads)
         ∧ (leads_file st = None → leads = []).
Proof.
intros [Hnone|(leads & Hfile & Hwf)].
- exists []. rewrite load_leads_run. unfold with_file. rewrite Hnone.
  by split_and!.
- exists leads. rewrite load_leads_run. unfold with_file. rewrite Hfile. simpl.
  rewrite parse_leads_data by (by apply well_formed_validated).
  by split_and!.
Qed.

Lemma sound_saved leads n :
Forall well_formed leads →
sound {| leads_file := Some (leads_data leads); saves := n |}.
Proof. intros Hwf. right. by exists leads. Qed.

Lemma sound_with_file st : sound st → sound (with_file st).
Proof.
intros Hs. destruct (sound_load st Hs) as (leads & _ & Hwf & Hfile & _).
right. by exists leads.
Qed.

Lemma model_object_validated lead_data d :
model_object lead_data → LeadBase_validate lead_data = Ok d →
validated lead_data ∧ d = lead_data.
Proof.
intros [raw Hraw] Hd.
assert (validated lead_data) as Hv.
{ apply (model_object_accepted raw); [done|]. by exists d. }
split; [done|]. unfold validated in Hv. congruence.
Qed.

Lemma created_well_formed lead_data now uuid :
validated lead_data →
well_formed {| base := lead_data; id := uuid; date_added := now;
               last_contacted := None;
               activity_history := [created_activity now lead_data] |}.
Proof. intros Hv. split; [done|]. by eexists _, []. Qed.

Lemma updated_well_formed old lead_data now new :
well_formed old → model_object lead_data →
update_entry old lead_data now = Ok new → well_formed new.
Proof.
intros [_ (a & rest & Hh & Ha & Hts & Hrest)] Hm Hupd.
pose proof (specific_part_entries old lead_data now) as Hspec.
apply update_entry_inv in Hupd as (_ & Hda & _ & Hhist & Hbase).
destruct (model_object_validated _ _ Hm Hbase) as [Hv Hb]. split.
- by rewrite Hb.
- exists a, (rest ++ specific_part old lead_data now
               ++ fallback_part old lead_data now).
  split_and!; [by rewrite Hhist, Hh|done|by rewrite Hda|].
  rewrite !Forall_app. split_and!; [done| |].
  + eapply Forall_impl; [done|]. intros b (Ht & _) Hc. rewrite Hc in Ht.
    unfold tracked_types in Ht. set_solver.
  + unfold fallback_part. destruct (last_is_tracked _); by repeat constructor.
Qed.

Lemma api_step_sound st st' : api_step st st' → sound st → sound st'.
Proof.
intros Hstep Hs.
destruct (sound_load st Hs) as (leads & Hload & Hwf & Hfile & _).
destruct Hstep as [st r st' Hrun|lead_data now uuid st r st' Hm Hrun
                  |lead_id lead_data now st r st' Hm Hrun
                  |lead_id st r st' Hrun].
- apply load_leads_store in Hrun as ->. by apply sound_with_file.
- rewrite (create_lead_run _ _ _ _ _ _ Hload) in Hrun. unfold Lead_new in Hrun.
  destruct (LeadBase_validate lead_data) as [d|e] eqn:Hd; simpl in Hrun.
  + destruct (model_object_validated _ _ Hm Hd) as [Hv ->].
    injection Hrun as _ <-. apply sound_saved, Forall_app.
    split; [done|]. constructor; [|done]. by apply created_well_formed.
  + injection Hrun as _ <-. by apply sound_with_file.
- pose proof (update_lead_run lead_id lead_data now _ _ _ Hload) as Hupd.
  destruct (get_lead_by_id_loop lead_id leads) as [old|].
  + destruct Hupd as (i & Hi & _ & _ & Hupd). rewrite Hupd in Hrun.
    destruct (update_entry old lead_data now) as [new|e] eqn:Hnew.
    * injection Hrun as _ <-. apply sound_saved, Forall_insert; [done|].
      eapply updated_well_formed; [|done..].
      eapply Forall_lookup_1 in Hwf; done.
    * injection Hrun as _ <-. by apply sound_with_file.
  + rewrite Hupd in Hrun. injection Hrun as _ <-. by apply sound_with_file.
- rewrite (delete_lead_run _ _ _ _ Hload) in Hrun.
  destruct (get_lead_by_id_loop lead_id leads).
  + injection Hrun as _ <-. apply sound_saved.
    apply Forall_forall. intros x [_ Hx]%list_elem_of_filter.
    by eapply Forall_forall in Hwf.
  + injection Hrun as _ <-. by apply sound_with_file.
Qed.

(** X21: whatever calls the application has made since it started
  without a file, the file loads, and every lead in it satisfies the
  model and has a history that starts with the one [created] entry it
  holds, stamped with the date the lead was added. *)
Theorem reachable_store_is_sound st :
reachable st →
∃ leads,
  load_leads st = (Ok leads, with_file st)
  ∧ Forall well_formed leads
  ∧ (leads_file st = None ∧ leads = []
     ∨ leads_file st = Some (leads_data leads)).
Proof.
intros (st0 & Hnone & Hsteps).
assert (sound st) as Hs.
{ apply (rtc_ind_r (R:=api_step) sound st0); [by left| |done].
  intros y z _ Hstep Hy. by eapply api_step_sound. }
destruct (sound_load st Hs) as (leads & Hload & Hwf & Hfile & Hempty).
exists leads. split_and!; [done|done|].
destruct (leads_file st) as [f|] eqn:Hf.
- right. rewrite <-Hfile. unfold with_file. by rewrite Hf.
- left. split; [done|]. by apply Hempty.
Qed.

End invariant.

Section identifiers.
Context `{!Datetime} `{!SetIteration}.
Implicit Types (lead new old : Lead) (lead_data : LeadBase) (now : datetime).
Implicit Types (leads : list Lead) (st : Store) (lead_id : string).

Lemma fmap_id_insert leads i old new :
leads !! i = Some old → id new = id old →
id <$> <[i := new]> leads = id <$> leads.
Proof.
intros Hi Hid. rewrite list_fmap_insert, Hid.
apply list_insert_id. by rewrite list_lookup_fmap, Hi.
Qed.

Lemma fmap_id_filter lead_id leads :
id <$> filter (λ lead, id lead ≠ lead_id) leads
= filter (λ x, x ≠ lead_id) (id <$> leads).
Proof.
induction leads as [|x leads IH]; [done|]. rewrite fmap_cons.
destruct (decide (id x = lead_id)) as [Hx|Hx].
- by rewrite !filter_cons_False by tauto.
- rewrite !filter_cons_True by done. by rewrite fmap_cons, IH.
Qed.

(** X22: in a file whose leads satisfy the model, an update leaves the
  list of identifiers as it is, a deletion takes the identifier it was
  given out of it and nothing else, and a creation puts the new
  identifier at its end: identifiers that were unique stay unique as
  long as every new one is fresh. *)
Theorem identifiers_stay_unique st leads st1 :
load_leads st = (Ok leads, st1) →
Forall (λ lead, validated (base lead)) leads →
NoDup (id <$> leads) →
(∀ lead_data now uuid lead st',
   model_object lead_data → uuid ∉ id <$> leads →
   create_lead lead_data now uuid st = (Ok lead, st') →
   load_leads st' = (Ok (leads ++ [lead]), st')
   ∧ id <$> leads ++ [lead] = (id <$> leads) ++ [uuid]
   ∧ NoDup (id <$> leads ++ [lead]))
∧ (∀ lead_id lead_data now updated st',
     model_object lead_data →
     update_lead lead_id lead_data now st = (Ok (Some updated), st') →
     ∃ leads', load_leads st' = (Ok leads', st')
               ∧ id <$> leads' = id <$> leads)
∧ (∀ lead_id st',
     delete_lead lead_id st = (Ok true, st') →
     ∃ leads', load_leads st' = (Ok leads', st')
               ∧ id <$> leads' = filter (λ x, x ≠ lead_id) (id <$> leads)
               ∧ NoDup (id <$> leads')).
Proof.
intros Hload Hall Hnd. split_and!.
- intros lead_data now uuid lead st' Hm Hfresh Hrun.
  rewrite (create_lead_run _ _ _ _ _ _ Hload) in Hrun.
  unfold Lead_new in Hrun.
  destruct (LeadBase_validate lead_data) as [d|] eqn:Hd; [|done].
  destruct (model_object_validated _ _ Hm Hd) as [Hv ->].
  simpl in Hrun. injection Hrun as <- <-.
  assert (id <$> leads ++ [{| base := lead_data; id := uuid; date_added := now;
                              last_contacted := None;
                              activity_history := [created_activity now lead_data] |}]
          = (id <$> leads) ++ [uuid]) as Hids by (by rewrite fmap_app).
  split_and!; [|done|].
  + apply load_saved, Forall_app. split; [done|]. by constructor.
  + rewrite Hids. apply NoDup_app. split_and!; [done| |apply NoDup_singleton].
    by intros x Hx ->%list_elem_of_singleton.
- intros lead_id lead_data now updated st' Hm Hrun.
  pose proof (update_lead_run lead_id lead_data now _ _ _ Hload) as Hupd.
  destruct (get_lead_by_id_loop lead_id leads) as [old|];
    [|by rewrite Hupd in Hrun].
  destruct Hupd as (i & Hi & _ & _ & Hupd). rewrite Hupd in Hrun.
  destruct (update_entry old lead_data now) as [new|] eqn:Hnew; [|done].
  injection Hrun as <- <-.
  apply update_entry_inv in Hnew as (Hid & _ & _ & _ & Hbase).
  destruct (model_object_validated _ _ Hm Hbase) as [Hv Hb].
  eexists. split.
  + apply load_saved, Forall_insert; [done|]. by rewrite Hb.
  + by apply (fmap_id_insert _ _ old).
- intros lead_id st' Hrun.
  rewrite (delete_lead_run _ _ _ _ Hload) in Hrun.
  destruct (get_lead_by_id_loop lead_id leads); [|done].
  injection Hrun as <-. eexists. split_and!.
  + apply load_saved. apply Forall_forall.
    intros x [_ Hx]%list_elem_of_filter. by eapply Forall_forall in Hall.
  + apply fmap_id_filter.
  + rewrite fmap_id_filter. by apply NoDup_filter.
Qed.

End identifiers.

(** * More on counting *)

Section tally_facts.
Implicit Types (x k : string) (l ks : list string) (T : list (string * nat)).

Lemma occurrences_snoc x l y :
occurrences x (l ++ [y])
= occurrences x l + (if decide (y = x) then 1 else 0).
Proof.
unfold occurrences. rewrite filter_app, length_app. f_equal.
rewrite filter_cons. by case_decide.
Qed.

Lemma occurrences_pos x l : 0 < occurrences x l ↔ x ∈ l.
Proof.
unfold occurrences. split.
- destruct (filter _ l) as [|y l'] eqn:Hf; simpl; [lia|]. intros _.
  assert (y ∈ filter (λ y, y = x) l) as Hin by (rewrite Hf; left).
  by apply list_elem_of_filter in Hin as [-> ?].
- intros Hin.
  assert (x ∈ filter (λ y, y = x) l) as Hin'
    by (by apply list_elem_of_filter).
  destruct (filter _ l); [by apply elem_of_nil in Hin'|simpl; lia].
Qed.

Lemma first_at_Some x l p :
first_at x l = Some p
↔ l !! p = Some x ∧ ∀ j y, l !! j = Some y → j < p → y ≠ x.
Proof.
unfold first_at. split.
- destruct (list_find _ l) as [[i y]|] eqn:Hf; [|done].
  intros [= <-]. by apply list_find_Some in Hf as (? & -> & ?).
- intros [H1 H2]. by rewrite (proj2 (list_find_Some _ l p x)).
Qed.

Lemma first_at_snoc x l y p :
first_at x l = Some p → first_at x (l ++ [y]) = Some p.
Proof.
unfold first_at. destruct (list_find _ l) as [[i z]|] eqn:Hf; [|done].
intros [= <-]. by rewrite (list_find_app_l _ _ _ _ _ Hf).
Qed.

Lemma first_at_new l x :
occurrences x l = 0 → first_at x (l ++ [x]) = Some (length l).
Proof.
intros Hz. apply first_at_Some. split.
- by apply list_lookup_middle.
- intros j y Hy Hj ->. rewrite lookup_app_l in Hy by done.
  assert (0 < occurrences x l); [|lia].
  apply occurrences_pos. by eapply list_elem_of_lookup_2.
Qed.

Lemma first_at_lt x l p : first_at x l = Some p → p < length l.
Proof. intros [Hl _]%first_at_Some. by eapply lookup_lt_Some. Qed.

Lemma first_at_elem x l : x ∈ l → ∃ p, first_at x l = Some p.
Proof.
intros Hin.
destruct (list_find_elem_of (λ y, y = x) l x) as [[p y] Hf]; [done..|].
exists p. unfold first_at. by rewrite Hf.
Qed.

(** The table the counting loop builds from a list of keys: one entry per
  key, with the number of its occurrences, in the order in which the
  keys first occur. *)
Lemma tally_spec ks :
NoDup (tally ks).*1
∧ (∀ k n, (k, n) ∈ tally ks ↔ 0 < n ∧ n = occurrences k ks)
∧ (∀ i j k1 k2,
     i < j → (tally ks).*1 !! i = Some k1 → (tally ks).*1 !! j = Some k2 →
     ∃ p1 p2, first_at k1 ks = Some p1
              ∧ first_at k2 ks = Some p2 ∧ p1 < p2).
Proof.
induction ks as [|c ks IH] using rev_ind.
- split_and!; [constructor| |done].
  intros k n. split; [by intros ?%elem_of_nil|].
  unfold occurrences. simpl. lia.
- unfold tally in *. rewrite foldl_snoc.
  set (T := foldl _ [] ks) in *.
  destruct IH as (Hnd & Hcount & Horder).
  assert (∀ k, k ∈ T.*1 ↔ 0 < occurrences k ks) as Hkeys.
  { intros k. rewrite list_elem_of_fmap. split.
    - intros ([k' n] & -> & Hin). by apply Hcount in Hin as [? ->].
    - intros Hpos. exists (k, occurrences k ks). split; [done|].
      by apply Hcount. }
  split_and!.
  + rewrite count_company_keys. case_decide as Hin; [done|].
    apply NoDup_app. split_and!; [done| |apply NoDup_singleton].
    intros x Hx ->%list_elem_of_singleton. done.
  + intros k n. rewrite count_company_elem by done.
    rewrite occurrences_snoc. split.
    * intros [[Hne Hin]|[-> [[Hnotin ->]|(m & Hin & ->)]]].
      -- apply Hcount in Hin as [Hpos ->]. rewrite decide_False by done.
         split; lia.
      -- rewrite decide_True by done. rewrite Hkeys in Hnotin. split; lia.
      -- apply Hcount in Hin as [Hpos ->]. rewrite decide_True by done.
         split; lia.
    * intros [Hpos ->]. destruct (decide (c = k)) as [<-|Hne].
      -- right. split; [done|].
         destruct (decide (c ∈ T.*1)) as [Hin|Hnotin].
         ++ right. exists (occurrences c ks). split; [|done].
            apply Hcount. split; [|done]. by apply Hkeys.
         ++ left. split; [done|]. rewrite Hkeys in Hnotin. lia.
      -- left. split; [done|]. apply Hcount. split; lia.
  + intros i j k1 k2 Hij. rewrite count_company_keys.
    assert (∀ p k, T.*1 !! p = Some k → ∃ q, first_at k ks = Some q)
      as Hseen.
    { intros p k Hk. apply first_at_elem, occurrences_pos, Hkeys.
      by eapply list_elem_of_lookup_2. }
    case_decide as Hin.
    * intros Hi Hj.
      destruct (Horder i j k1 k2) as (p1 & p2 & H1 & H2 & Hlt); [done..|].
      exists p1, p2. split_and!; [by apply first_at_snoc..|done].
    * intros Hi Hj.
      apply lookup_app_Some in Hj as [Hj|[Hlen Hj]].
      -- rewrite lookup_app_l in Hi by (apply lookup_lt_Some in Hj; lia).
         destruct (Horder i j k1 k2) as (p1 & p2 & H1 & H2 & Hlt); [done..|].
         exists p1, p2. split_and!; [by apply first_at_snoc..|done].
      -- apply list_lookup_singleton_Some in Hj as [Hj0 <-].
         rewrite lookup_app_l in Hi by lia.
         destruct (Hseen i k1 Hi) as (p1 & Hp1).
         exists p1, (length ks). split_and!.
         ++ by apply first_at_snoc.
         ++ apply first_at_new. rewrite Hkeys in Hin. lia.
         ++ by eapply first_at_lt.
Qed.

Lemma sorted_tally_ranking ks :
ranking_of ks (sorted_reverse snd (tally ks)).
Proof.
destruct (tally_spec ks) as (Hnd & Hcount & Horder).
pose proof (sorted_reverse_perm snd (tally ks)) as Hperm.
split_and!.
- by rewrite Hperm.
- intros k n. by rewrite Hperm.
- intros i j k1 n1 k2 n2 Hij Hi Hj.
  destruct (StronglySorted_lookup _ _ _ _ _ _
              (sorted_reverse_sorted snd (tally ks)) Hij Hi Hj)
    as [Hlt|[Heq (i' & j' & Hij' & Hi' & Hj')]]; simpl in *; [by left|].
  right. split; [done|].
  apply (Horder i' j'); [done|by rewrite list_lookup_fmap, ?Hi', ?Hj'..].
Qed.

End tally_facts.

(** * The route functions *)

Section routes_facts.
Context `{!Datetime} `{!SetIteration}.
Implicit Types (lead new old : Lead) (lead_data : LeadBase) (now : datetime).
Implicit Types (leads : list Lead) (st : Store) (lead_id : string).

Lemma E_bind_run {A B} (m : main.E A) (f : A → main.E B) st :
(m ≫= f) st
= match m st with
  | (main.Return a, st') => f a st'
  | (main.Raised r, st') => (main.Raised r, st')
  end.
Proof. done. Qed.

Lemma call_Ok {A} (m : M A) st a st' :
m st = (Ok a, st') → main.call m st = (main.Return a, st').
Proof. intros Hm. unfold main.call. by rewrite Hm. Qed.

Lemma call_Raise {A} (m : M A) st e st' :
m st = (Raise e, st') →
main.call m st = (main.Raised (main.Uncaught e), st').
Proof. intros Hm. unfold main.call. by rewrite Hm. Qed.

Lemma LeadBase_validate_Raise d e :
LeadBase_validate d = Raise e → e = ValidationError.
Proof.
unfold LeadBase_validate, check_length_opt, check_length, validate_email.
repeat (match goal with
        | |- context [if ?b then _ else _] => destruct b
        | |- context [match ?o with Some _ => _ | None => _ end] =>
            destruct o
        end; simpl); try done; by intros [= <-].
Qed.

Lemma update_entry_Raise old lead_data now e :
update_entry old lead_data now = Raise e →
e = ValidationError ∧ ¬ validated lead_data.
Proof.
rewrite update_entry_parts. unfold Lead_new.
destruct (LeadBase_validate lead_data) as [d|e'] eqn:Hd; [done|].
simpl. intros [= <-]. split; [by eapply LeadBase_validate_Raise|].
unfold validated. by rewrite Hd.
Qed.

Lemma loaded_emails_lower st leads st1 lead :
load_leads st = (Ok leads, st1) → lead ∈ leads →
Str.lower (email lead) = email lead.
Proof.
rewrite load_leads_run. intros [= Hparse _] Hin.
unfold parse_document in Hparse.
apply result_bind_Ok in Hparse as (data & _ & Hparse).
apply result_bind_Ok in Hparse as (items & _ & Hitems).
apply mapM_Ok_Forall2 in Hitems.
apply list_elem_of_lookup in Hin as [i Hi].
destruct (Forall2_lookup_r _ _ _ _ _ Hitems Hi) as (item & _ & Hitem).
apply load_lead_model_object in Hitem.
by apply model_object_normal in Hitem as [? _].
Qed.

Lemma duplicate_loop_stored mail exclude_id st leads st1 :
load_leads st = (Ok leads, st1) →
check_duplicate_email_loop mail exclude_id leads = true
↔ ∃ lead, lead ∈ leads ∧ email lead = mail ∧ Some (id lead) ≠ exclude_id.
Proof.
intros Hload. rewrite check_duplicate_email_loop_true.
split; intros (lead & Hin & Hm & Hid); exists lead;
  (split_and!; [done| |done]);
  by rewrite <-Hm, ?(loaded_emails_lower _ _ _ _ Hload Hin).
Qed.

End routes_facts.

Section routes_claims.
Context `{!Datetime} `{!SetIteration}.
Implicit Types (lead new old : Lead) (lead_data : LeadBase) (now : datetime).
Implicit Types (leads : list Lead) (st : Store) (lead_id : string).

(** X23: the three routes that take an identifier answer 404, with the
  detail [Lead not found], exactly when no lead of the file carries it,
  and then leave the store as loading left it; when a lead carries it,
  [get_lead] returns the first such lead and [delete_lead] answers
  204. *)
Theorem not_found_exactly_when_absent lead_id lead_data now st leads st1 :
load_leads st = (Ok leads, st1) →
let not_found := main.HTTPException 404 (main.Text "Lead not found") in
let absent := ∀ lead, lead ∈ leads → id lead ≠ lead_id in
((main.get_lead lead_id st).1 = main.Raised not_found ↔ absent)
∧ ((main.update_lead lead_id lead_data now st).1 = main.Raised not_found ↔ absent)
∧ ((main.delete_lead lead_id st).1 = main.Raised not_found ↔ absent)
∧ (absent →
   (main.get_lead lead_id st).2 = st1
   ∧ (main.update_lead lead_id lead_data now st).2 = st1
   ∧ (main.delete_lead lead_id st).2 = st1)
∧ (¬ absent →
   (∃ found, main.get_lead lead_id st = (main.Return found, st1)
             ∧ get_lead_by_id lead_id st = (Ok (Some found), st1))
   ∧ (main.delete_lead lead_id st).1
     = main.Return {| main.content := None; main.status_code := 204;
                      main.media_type := None; main.headers := [] |}).
Proof.
intros Hload not_found absent.
pose proof (get_lead_by_id_run lead_id _ _ _ Hload) as Hget.
pose proof (load_leads_again _ _ _ Hload) as Hload1.
pose proof (get_lead_by_id_loop_None lead_id leads) as Hnone.
rewrite Forall_forall in Hnone. fold absent in Hnone.
assert (main.get_lead lead_id st
        = match get_lead_by_id_loop lead_id leads with
          | Some found => (main.Return found, st1)
          | None => (main.Raised not_found, st1)
          end) as Hroute_get.
{ unfold main.get_lead. rewrite E_bind_run, (call_Ok _ _ _ _ Hget).
  by destruct (get_lead_by_id_loop lead_id leads). }
assert (main.delete_lead lead_id st
        = match get_lead_by_id_loop lead_id leads with
          | Some _ =>
              (main.Return {| main.content := None; main.status_code := 204;
                              main.media_type := None; main.headers := [] |},
               {| leads_file :=
                    Some (leads_data (filter (λ lead, id lead ≠ lead_id) leads));
                  saves := S (saves st) |})
          | None => (main.Raised not_found, st1)
          end) as Hroute_delete.
{ unfold main.delete_lead. rewrite E_bind_run. unfold main.call.
  rewrite (delete_lead_run _ _ _ _ Hload).
  by destruct (get_lead_by_id_loop lead_id leads). }
assert (match get_lead_by_id_loop lead_id leads with
        | Some _ =>
            (main.update_lead lead_id lead_data now st).1 ≠ main.Raised not_found
        | None =>
            main.update_lead lead_id lead_data now st
            = (main.Raised not_found, st1)
        end) as Hroute_update.
{ unfold main.update_lead, main.except_HTTPException_ValueError.
  rewrite E_bind_run, (call_Ok _ _ _ _ Hget).
  destruct (get_lead_by_id_loop lead_id leads) as [old|] eqn:Hold; [|done].
  rewrite E_bind_run.
  rewrite (call_Ok _ _ _ _
             (check_duplicate_email_run _ _ _ _ _ Hload1)).
  rewrite E_bind_run.
  pose proof (update_lead_run lead_id lead_data now _ _ _ Hload1) as Hupd.
  rewrite Hold in Hupd. destruct Hupd as (i & _ & _ & _ & Hupd).
  destruct (update_entry old lead_data now) as [new|e].
  - by rewrite (call_Ok _ _ _ _ Hupd).
  - rewrite (call_Raise _ _ _ _ Hupd). simpl. by destruct e. }
destruct (get_lead_by_id_loop lead_id leads) as [old|] eqn:Hold.
- assert (¬ absent) as Hpresent by (by intros ?%Hnone).
  rewrite Hroute_get, Hroute_delete. simpl. split_and!; try done.
  split; [|done]. by exists old.
- assert absent as Habsent by (by apply Hnone).
  rewrite Hroute_get, Hroute_delete, Hroute_update. simpl.
  split_and!; done.
Qed.

(** X24: the route [create_lead], given an object of the model class on a
  file that loads, creates the lead whether or not the address is taken:
  it returns the new lead, saved after the others, with a warning exactly
  when a lead of the file has the same address. The one failure is the
  object whose URL outgrew its bound: the answer is 400 and nothing is
  saved. *)
Theorem create_route_outcome lead_data now uuid st leads st1 :
load_leads st = (Ok leads, st1) →
model_object lead_data →
let taken := ∃ lead, lead ∈ leads ∧ email lead = email lead_data in
match main.create_lead lead_data now uuid st with
| (main.Return response, st') =>
    validated lead_data
    ∧ base (main.lead response) = lead_data
    ∧ id (main.lead response) = uuid
    ∧ leads_file st' = Some (leads_data (leads ++ [main.lead response]))
    ∧ saves st' = S (saves st)
    ∧ (main.warning response
       = Some ("Warning: A lead with email " +:+ email lead_data
               +:+ " already exists") ∧ taken
       ∨ main.warning response = None ∧ ¬ taken)
| (main.Raised r, st') =>
    ¬ validated lead_data
    ∧ r = main.HTTPException 400 (main.str_of ValidationError)
    ∧ st' = st1
end.
Proof.
intros Hload Hm taken.
pose proof (load_leads_again _ _ _ Hload) as Hload1.
pose proof (duplicate_loop_stored (email lead_data) None _ _ _ Hload) as Hdup.
assert (Str.lower (email lead_data) = email lead_data) as Hlower
  by (by apply model_object_normal in Hm as [? _]).
unfold main.create_lead, main.except_ValueError.
rewrite bind_run, (check_duplicate_email_run _ _ _ _ _ Hload), Hlower.
rewrite bind_run, (create_lead_run _ _ _ _ _ _ Hload1). unfold Lead_new.
destruct (LeadBase_validate lead_data) as [d|e] eqn:Hd; simpl.
- destruct (model_object_validated _ _ Hm Hd) as [Hv ->].
  split_and!; [done|done|done|done|by rewrite (load_leads_saves _ _ _ Hload)|].
  destruct (check_duplicate_email_loop _ _ _) eqn:Hloop.
  + left. split; [done|]. destruct (proj1 Hdup eq_refl) as (lead & ? & ? & _).
    by exists lead.
  + right. split; [done|]. intros (lead & Hin & Hmail).
    assert (false = true) as Htrue; [|done].
    apply Hdup. by exists lead.
- apply LeadBase_validate_Raise in Hd as Hval. subst e. simpl.
  split_and!; [|done|done]. unfold validated. by rewrite Hd.
Qed.

(** X25: the route [update_lead], given an object of the model class and
  an identifier that [get_lead_by_id] finds, returns the updated lead,
  saved in the place of the old one, with a warning exactly when a lead
  with another identifier has the same address; it never fails for want
  of a lead to return. The one failure is the object whose URL outgrew
  its bound: the answer is 400 and nothing is saved. *)
Theorem update_route_outcome lead_id lead_data now st leads st1 old :
load_leads st = (Ok leads, st1) →
model_object lead_data →
get_lead_by_id lead_id st = (Ok (Some old), st1) →
let taken :=
  ∃ lead, lead ∈ leads ∧ email lead = email lead_data
          ∧ id lead ≠ lead_id in
match main.update_lead lead_id lead_data now st with
| (main.Return response, st') =>
    validated lead_data
    ∧ update_entry old lead_data now = Ok (main.lead response)
    ∧ (∃ i, leads !! i = Some old
            ∧ leads_file st'
              = Some (leads_data (<[i := main.lead response]> leads)))
    ∧ saves st' = S (saves st)
    ∧ (main.warning response
       = Some ("Warning: Another lead with email " +:+ email lead_data
               +:+ " already exists") ∧ taken
       ∨ main.warning response = None ∧ ¬ taken)
| (main.Raised r, st') =>
    ¬ validated lead_data
    ∧ r = main.HTTPException 400 (main.str_of ValidationError)
    ∧ st' = st1
end.
Proof.
intros Hload Hm Hget taken.
pose proof (load_leads_again _ _ _ Hload) as Hload1.
pose proof (duplicate_loop_stored (email lead_data) (Some lead_id)
              _ _ _ Hload) as Hdup.
assert (Str.lower (email lead_data) = email lead_data) as Hlower
  by (by apply model_object_normal in Hm as [? _]).
assert (get_lead_by_id_loop lead_id leads = Some old) as Hold.
{ rewrite (get_lead_by_id_run _ _ _ _ Hload) in Hget. by injection Hget. }
pose proof (update_lead_run lead_id lead_data now _ _ _ Hload1) as Hupd.
rewrite Hold in Hupd. destruct Hupd as (i & Hi & _ & _ & Hupd).
unfold main.update_lead, main.except_HTTPException_ValueError.
rewrite E_bind_run, (call_Ok _ _ _ _ Hget).
rewrite E_bind_run,
  (call_Ok _ _ _ _ (check_duplicate_email_run _ _ _ _ _ Hload1)), Hlower.
rewrite E_bind_run.
destruct (update_entry old lead_data now) as [new|e] eqn:Hnew.
- rewrite (call_Ok _ _ _ _ Hupd). simpl.
  pose proof Hnew as (_ & _ & _ & _ & Hbase)%update_entry_inv.
  destruct (model_object_validated _ _ Hm Hbase) as [Hv _].
  split_and!; [done|done|by exists i
              |by rewrite (load_leads_saves _ _ _ Hload)|].
  destruct (check_duplicate_email_loop _ _ _) eqn:Hloop.
  + left. split; [done|].
    destruct (proj1 Hdup eq_refl) as (lead & ? & ? & Hne).
    exists lead. split_and!; [done|done|congruence].
  + right. split; [done|]. intros (lead & Hin & Hmail & Hne).
    assert (false = true) as Htrue; [|done].
    apply Hdup. exists lead. split_and!; [done|done|congruence].
- rewrite (call_Raise _ _ _ _ Hupd).
  apply update_entry_Raise in Hnew as [-> Hnv]. done.
Qed.

(** X26: when the file cannot be loaded, the routes that only read answer
  500, [create_lead] and [update_lead] answer 400 if loading raised a
  [ValueError] (a stored record that the model rejects, a date that does
  not parse) and 500 otherwise, and [get_lead] and [delete_lead], which
  have no [try], let the exception through; none saves anything. *)
Theorem load_failure_status_codes
  e st st1 search lead_id lead_data now uuid :
load_leads st = (Raise e, st1) →
let code := if main.is_ValueError e then 400 else 500 in
main.get_leads search st
= (main.Raised (main.HTTPException 500 (main.str_of e)), st1)
∧ main.get_statistics st
  = (main.Raised (main.HTTPException 500 (main.str_of e)), st1)
∧ main.get_all_tags st
  = (main.Raised (main.HTTPException 500 (main.str_of e)), st1)
∧ main.create_lead lead_data now uuid st
  = (main.Raised (main.HTTPException code (main.str_of e)), st1)
∧ main.update_lead lead_id lead_data now st
  = (main.Raised (main.HTTPException code (main.str_of e)), st1)
∧ main.get_lead lead_id st = (main.Raised (main.Uncaught e), st1)
∧ main.delete_lead lead_id st = (main.Raised (main.Uncaught e), st1)
∧ saves st1 = saves st.
Proof.
intros Hload code. split_and!.
- assert (∀ q, search_leads q st = (Raise e, st1)) as Hs.
  { intros q. unfold search_leads.
    destruct (Str.truthy q); simpl; [by apply bind_raise|done]. }
  unfold main.get_leads, main.except_Exception, get_all_leads.
  destruct search as [q|]; [destruct (Str.truthy q)|];
    by rewrite ?Hs, ?Hload.
- unfold main.get_statistics, main.except_Exception, get_stats.
  by rewrite (bind_raise _ _ _ _ _ Hload).
- unfold main.get_all_tags, main.except_Exception.
  by rewrite (bind_raise _ _ _ _ _ Hload).
- assert (check_duplicate_email (email lead_data) None st = (Raise e, st1))
    as Hdup by (by apply bind_raise).
  unfold main.create_lead, main.except_ValueError.
  by rewrite (bind_raise _ _ _ _ _ Hdup).
- assert (get_lead_by_id lead_id st = (Raise e, st1)) as Hget
    by (by apply bind_raise).
  unfold main.update_lead, main.except_HTTPException_ValueError.
  by rewrite E_bind_run, (call_Raise _ _ _ _ Hget).
- assert (get_lead_by_id lead_id st = (Raise e, st1)) as Hget
    by (by apply bind_raise).
  unfold main.get_lead. by rewrite E_bind_run, (call_Raise _ _ _ _ Hget).
- assert (delete_lead lead_id st = (Raise e, st1)) as Hdel
    by (by apply bind_raise).
  unfold main.delete_lead. by rewrite E_bind_run, (call_Raise _ _ _ _ Hdel).
- by eapply load_leads_saves.
Qed.

Lemma tag_counts_of_tally leads : main.tag_counts_of leads = tally (all_tags leads).
Proof.
unfold main.tag_counts_of, tally, all_tags.
generalize (@nil (string * nat)). induction leads as [|lead leads IH]; intros T.
- done.
- rewrite fmap_cons. simpl. by rewrite foldl_app, IH.
Qed.

(** X27: on a file that loads, the route [get_all_tags] returns every
  tag of the leads once, with the number of its occurrences in their tag
  lists (a tag repeated in one list counts each time), the larger number
  first and, among equal numbers, the tag met first in the file first. *)
Theorem tags_route_ranks_tags st leads st1 :
load_leads st = (Ok leads, st1) →
∃ ranking,
  main.get_all_tags st = (main.Return ranking, st1)
  ∧ ranking_of (all_tags leads) ranking
  ∧ (leads = [] → ranking = []).
Proof.
intros Hload. unfold main.get_all_tags, main.except_Exception, get_all_leads.
rewrite (bind_ok _ _ _ _ _ Hload). simpl. eexists. split; [done|].
rewrite tag_counts_of_tally. split; [apply sorted_tally_ranking|].
by intros ->.
Qed.

End routes_claims.

(** * The export *)

Section csv_facts.
Import Str.
Implicit Types (s r f : string) (c : ascii) (v : option string).

Lemma chars_app s s' : chars (s +:+ s') = chars s ++ chars s'.
Proof.
unfold chars. induction s as [|c s IH]; [done|].
rewrite append_cons. simpl. by rewrite IH.
Qed.

Lemma append_inj_l s r r' : s +:+ r = s +:+ r' → r = r'.
Proof.
induction s as [|c s IH]; [done|]. rewrite !append_cons. intros [= ?]. auto.
Qed.

Lemma line_feeds_app s s' : line_feeds (s +:+ s') = line_feeds s + line_feeds s'.
Proof. unfold line_feeds. by rewrite chars_app, filter_app, length_app. Qed.

Lemma line_feeds_cons c s :
line_feeds (String c s) = (if decide (c = csv.LF) then 1 else 0) + line_feeds s.
Proof.
unfold line_feeds. simpl. rewrite filter_cons. by case_decide.
Qed.

Lemma line_feeds_double_quotes s :
line_feeds (csv.double_quotes s) = line_feeds s.
Proof.
induction s as [|c s IH]; [done|]. simpl.
destruct (Ascii.eqb c csv.quotechar) eqn:Hc.
- apply Ascii.eqb_eq in Hc as ->. rewrite !line_feeds_cons, IH.
  by rewrite !decide_False by done.
- by rewrite !line_feeds_cons, IH.
Qed.

Lemma line_feeds_quoted s : line_feeds (csv.quoted s) = line_feeds s.
Proof.
unfold csv.quoted. rewrite line_feeds_cons, line_feeds_app.
rewrite line_feeds_double_quotes, decide_False by done.
change (line_feeds (String csv.quotechar "")) with 0. lia.
Qed.

Lemma line_feeds_field v :
line_feeds (csv.field v) = line_feeds (default "" v).
Proof.
unfold csv.field. destruct (existsb _ _); [|done]. apply line_feeds_quoted.
Qed.

Lemma join_cons f g l :
csv.join (f :: g :: l) = f +:+ String csv.delimiter (csv.join (g :: l)).
Proof. done. Qed.

Lemma line_feeds_join (l : list string) :
line_feeds (csv.join l) = sum_list (line_feeds <$> l).
Proof.
induction l as [|f [|g l] IH]; [done|simpl; lia|].
rewrite join_cons, line_feeds_app, line_feeds_cons, IH.
rewrite decide_False by done. rewrite !fmap_cons. simpl. lia.
Qed.

Lemma line_feeds_writerow (row : list (option string)) :
line_feeds (csv.writerow row)
= 1 + sum_list (line_feeds <$> (default "" <$> row)).
Proof.
assert (line_feeds (csv.join (csv.field <$> row) +:+ csv.lineterminator)
        = 1 + sum_list (line_feeds <$> (default "" <$> row))) as Hrow.
{ rewrite line_feeds_app, line_feeds_join.
  change (line_feeds csv.lineterminator) with 1.
  rewrite <-!list_fmap_compose.
  rewrite (list_fmap_ext (line_feeds ∘ csv.field) (line_feeds ∘ default "") row)
    by (intros; apply line_feeds_field).
  lia. }
unfold csv.writerow.
destruct (csv.join (csv.field <$> row)) as [|c record] eqn:Hj; [|done].
destruct row as [|v [|w row]]; [done| |done].
rewrite <-Hrow. by rewrite line_feeds_app, line_feeds_quoted.
Qed.

Lemma line_feeds_concat_str (l : list string) :
line_feeds (concat_str l) = sum_list (line_feeds <$> l).
Proof.
induction l as [|s l IH]; [done|]. simpl. by rewrite line_feeds_app, IH.
Qed.

(** *** Reading a field back *)

Lemma plain_cons c s : plain (String c s) ↔ csv.special c = false ∧ plain s.
Proof. unfold plain. simpl. by rewrite orb_false_iff. Qed.

Lemma after_field_special r c r' :
after_field r → r = String c r' → csv.special c = true.
Proof. intros (? & ? & -> & [->| ->]) [= <- _]; done. Qed.

Lemma plain_field_inj f1 f2 r1 r2 :
plain f1 → plain f2 → after_field r1 → after_field r2 →
f1 +:+ r1 = f2 +:+ r2 → f1 = f2 ∧ r1 = r2.
Proof.
intros H1 H2 Hr1 Hr2. revert f2 H2.
induction f1 as [|c f1 IH]; intros [|c' f2] H2 Heq.
- done.
- simpl in Heq. rewrite append_cons in Heq.
  apply plain_cons in H2 as [Hc' _].
  by rewrite (after_field_special _ _ _ Hr1 Heq) in Hc'.
- rewrite append_cons in Heq. simpl in Heq. symmetry in Heq.
  apply plain_cons in H1 as [Hc _].
  by rewrite (after_field_special _ _ _ Hr2 Heq) in Hc.
- rewrite !append_cons in Heq. injection Heq as <- Heq.
  apply plain_cons in H1 as [_ H1]. apply plain_cons in H2 as [_ H2].
  destruct (IH H1 f2 H2 Heq) as [-> ->]. done.
Qed.

Lemma after_field_no_quote r c r' :
after_field r → r = String c r' → c ≠ csv.quotechar.
Proof. intros (? & ? & -> & [->| ->]) [= <- _]; done. Qed.

Lemma double_quotes_inj f1 f2 r1 r2 :
after_field r1 → after_field r2 →
csv.double_quotes f1 +:+ String csv.quotechar r1
= csv.double_quotes f2 +:+ String csv.quotechar r2 →
f1 = f2 ∧ r1 = r2.
Proof.
intros Hr1 Hr2. revert f2.
induction f1 as [|c f1 IH]; intros [|c' f2]; simpl.
- by intros [= ->].
- destruct (Ascii.eqb c' csv.quotechar) eqn:Hc'.
  + rewrite !append_cons. intros [= Heq].
    destruct Hr1 as (c1 & r1' & -> & Hc1). injection Heq as -> _.
    by destruct Hc1.
  + rewrite append_cons. intros [= Hq _]. apply Ascii.eqb_neq in Hc'. done.
- destruct (Ascii.eqb c csv.quotechar) eqn:Hc.
  + rewrite !append_cons. intros [= Heq].
    destruct Hr2 as (c2 & r2' & -> & Hc2). injection Heq as <- _.
    by destruct Hc2.
  + rewrite append_cons. intros [= Hq _]. apply Ascii.eqb_neq in Hc. done.
- destruct (Ascii.eqb c csv.quotechar) eqn:Hc,
    (Ascii.eqb c' csv.quotechar) eqn:Hc'; rewrite !append_cons.
  + apply Ascii.eqb_eq in Hc as ->. apply Ascii.eqb_eq in Hc' as ->.
    intros [= Heq]. by destruct (IH f2 Heq) as [-> ->].
  + intros [= Hq _]. apply Ascii.eqb_neq in Hc'. done.
  + intros [= Hq _]. apply Ascii.eqb_neq in Hc. done.
  + intros [= -> Heq]. by destruct (IH f2 Heq) as [-> ->].
Qed.

Lemma field_plain v :
existsb csv.special (chars (default "" v)) = false →
csv.field v = default "" v ∧ plain (default "" v).
Proof. intros Hv. unfold csv.field, plain. by rewrite Hv. Qed.

Lemma field_quoted v :
existsb csv.special (chars (default "" v)) = true →
csv.field v = csv.quoted (default "" v).
Proof. intros Hv. unfold csv.field. by rewrite Hv. Qed.

Lemma quoted_app s r :
csv.quoted s +:+ r
= String csv.quotechar (csv.double_quotes s +:+ String csv.quotechar r).
Proof. unfold csv.quoted. by rewrite append_cons, append_assoc. Qed.

Lemma plain_not_quoted f s r r' :
plain f → after_field r → f +:+ r ≠ csv.quoted s +:+ r'.
Proof.
intros Hf Hr. rewrite quoted_app. destruct f as [|c f].
- simpl. intros Heq. by eapply after_field_no_quote.
- rewrite append_cons. intros [= -> _]. by apply plain_cons in Hf as [? _].
Qed.

(** A field followed by a comma or a carriage return is read back in one
  way only. *)
Lemma field_inj v1 v2 r1 r2 :
after_field r1 → after_field r2 →
csv.field v1 +:+ r1 = csv.field v2 +:+ r2 →
default "" v1 = default "" v2 ∧ r1 = r2.
Proof.
intros Hr1 Hr2.
destruct (existsb csv.special (chars (default "" v1))) eqn:H1,
  (existsb csv.special (chars (default "" v2))) eqn:H2.
- rewrite !field_quoted, !quoted_app by done. intros [= Heq].
  by apply double_quotes_inj.
- rewrite (field_quoted _ H1). destruct (field_plain _ H2) as [-> Hp].
  intros Heq. symmetry in Heq. by apply plain_not_quoted in Heq.
- rewrite (field_quoted _ H2). destruct (field_plain _ H1) as [-> Hp].
  intros Heq. by apply plain_not_quoted in Heq.
- destruct (field_plain _ H1) as [-> Hp1], (field_plain _ H2) as [-> Hp2].
  by apply plain_field_inj.
Qed.

Lemma record_inj (row1 row2 : list (option string)) r1 r2 :
length row1 = length row2 → row1 ≠ [] →
csv.join (csv.field <$> row1) +:+ String csv.CR r1
= csv.join (csv.field <$> row2) +:+ String csv.CR r2 →
default "" <$> row1 = default "" <$> row2 ∧ r1 = r2.
Proof.
revert row2. induction row1 as [|v [|v' row1] IH];
  intros [|w [|w' row2]] Hlen Hne; try done.
- simpl. intros Heq.
  destruct (field_inj v w (String csv.CR r1) (String csv.CR r2))
    as [Hv [= ->]]; [by eexists _, _; split; [|right]..|done|].
  by rewrite Hv.
- rewrite !fmap_cons, !join_cons, !append_assoc, !append_cons.
  intros Heq.
  destruct (field_inj v w _ _ ltac:(by eexists _, _; split; [|left])
              ltac:(by eexists _, _; split; [|left]) Heq) as [Hv [= Hrest]].
  destruct (IH (w' :: row2)) as [Hrows ->];
    [simpl in *; lia|done|exact Hrest|].
  rewrite ?fmap_cons in Hrows. by rewrite ?fmap_cons, Hv, Hrows.
Qed.

Lemma writerow_long (row : list (option string)) :
length row ≠ 1 →
csv.writerow row = csv.join (csv.field <$> row) +:+ csv.lineterminator.
Proof.
intros Hlen. unfold csv.writerow.
destruct (csv.join (csv.field <$> row)); [|done].
by destruct row as [|? [|? ?]].
Qed.

End csv_facts.

Section export_claims.
Context `{!Datetime} `{!SetIteration} `{!Strftime}.
Implicit Types (lead : Lead) (leads : list Lead).

Lemma line_feeds_strftime (d : datetime) : line_feeds (strftime d) = 0.
Proof.
unfold line_feeds. pose proof (strftime_chars d) as Hall.
induction Hall as [|c l Hc _ IH]; [done|].
rewrite filter_cons_False; [done|]. intros ->.
destruct Hc as [Hc|Hc]; [done|]. set_solver.
Qed.

Lemma line_feeds_columns lead :
sum_list (line_feeds <$> columns lead)
= sum_list (line_feeds <$> free_text lead).
Proof.
unfold columns, free_text, row_of. rewrite !fmap_cons. simpl.
rewrite line_feeds_strftime.
assert (line_feeds (LeadStatus_.value (status lead)) = 0) as ->
  by (by destruct (status lead)).
lia.
Qed.

Lemma line_feeds_record lead :
line_feeds (csv.writerow (row_of lead))
= 1 + sum_list (line_feeds <$> free_text lead).
Proof.
rewrite line_feeds_writerow. fold (columns lead).
by rewrite line_feeds_columns.
Qed.

Lemma sum_list_succ {A} (g : A → nat) (l : list A) :
sum_list ((λ x, S (g x)) <$> l) = length l + sum_list (g <$> l).
Proof.
induction l as [|x l IH]; [done|].
rewrite !fmap_cons. simpl. rewrite IH. lia.
Qed.

(** X28: on a file that loads, the route [export_leads] answers 200 with
  the export of the leads as [text/csv]. The export starts with the
  header record and has one line feed for the header, one for each lead,
  and one for every line feed in the text of a lead: it has as many
  lines as there are leads, and one more, exactly when no identifier,
  name, title, email, URL or note holds a line feed. *)
Theorem export_line_feeds st leads st1 :
load_leads st = (Ok leads, st1) →
∃ text,
  main.export_leads st
  = (main.Return
       {| main.content := Some text; main.status_code := 200;
          main.media_type := Some "text/csv";
          main.headers := [("Content-Disposition",
                            "attachment; filename=leads_export.csv")] |},
     st1)
  ∧ text = export_leads_to_csv leads
  ∧ (leads = [] →
     text = "ID,Company Name,Contact Name,Title,Email,LinkedIn URL,Date Added,Status,Notes"
            +:+ csv.lineterminator)
  ∧ line_feeds text
    = 1 + length leads
      + sum_list ((λ lead, sum_list (line_feeds <$> free_text lead))
                  <$> leads)
  ∧ (line_feeds text = 1 + length leads
     ↔ Forall (λ lead, Forall (λ s, line_feeds s = 0) (free_text lead))
         leads).
Proof.
intros Hload. exists (export_leads_to_csv leads). split.
{ unfold main.export_leads, main.except_Exception, get_all_leads.
  by rewrite (bind_ok _ _ _ _ _ Hload). }
assert (line_feeds (export_leads_to_csv leads)
        = 1 + length leads
          + sum_list ((λ lead, sum_list (line_feeds <$> free_text lead))
                      <$> leads)) as Hcount.
{ unfold export_leads_to_csv. rewrite line_feeds_app.
  change (line_feeds (csv.writerow (Some <$> fieldnames))) with 1.
  rewrite line_feeds_concat_str, <-list_fmap_compose.
  rewrite (list_fmap_ext _ (λ lead, S (sum_list (line_feeds <$> free_text lead)))
             leads) by (intros; apply line_feeds_record).
  rewrite sum_list_succ. lia. }
split_and!; [done|by intros ->|done|]. rewrite Hcount.
assert (∀ l : list nat, sum_list l = 0 ↔ Forall (λ n, n = 0) l) as Hzero.
{ induction l as [|n l IH]; simpl; [by split|].
  rewrite Forall_cons, <-IH. lia. }
split.
- intros Hsum.
  assert (sum_list ((λ lead, sum_list (line_feeds <$> free_text lead))
                    <$> leads) = 0) as Hz by lia.
  apply Hzero, Forall_fmap in Hz. eapply Forall_impl; [done|].
  intros lead Hl.
  by apply (Hzero (line_feeds <$> free_text lead)), Forall_fmap in Hl.
- intros Hall.
  assert (sum_list ((λ lead, sum_list (line_feeds <$> free_text lead))
                    <$> leads) = 0) as ->; [|lia].
  apply Hzero, Forall_fmap. eapply Forall_impl; [done|].
  intros lead Hl.
  by apply (Hzero (line_feeds <$> free_text lead)), Forall_fmap.
Qed.

Lemma writerow_row_of lead r :
csv.writerow (row_of lead) +:+ r
= csv.join (csv.field <$> row_of lead)
  +:+ String csv.CR (String csv.LF r).
Proof. by rewrite writerow_long, append_assoc. Qed.

Lemma records_inj leads1 leads2 :
concat_str ((λ lead, csv.writerow (row_of lead)) <$> leads1)
= concat_str ((λ lead, csv.writerow (row_of lead)) <$> leads2) →
columns <$> leads1 = columns <$> leads2.
Proof.
revert leads2. induction leads1 as [|x leads1 IH]; intros [|y leads2].
- done.
- rewrite fmap_cons. simpl. rewrite writerow_row_of. intros Heq.
  symmetry in Heq. by destruct (csv.join _).
- rewrite fmap_cons. simpl. rewrite writerow_row_of. intros Heq.
  by destruct (csv.join _).
- rewrite !fmap_cons. simpl. rewrite !writerow_row_of. intros Heq.
  destruct (record_inj (row_of x) (row_of y) _ _ eq_refl ltac:(done) Heq)
    as [Hrow [= Hrest]].
  unfold columns at 1 3. rewrite Hrow. f_equal. by apply IH.
Qed.

(** X29: the export loses nothing: two collections whose exports are the
  same text have the same nine values in every record, in the same
  order, however many commas, quotes and line breaks the values hold
  ([None] and the empty string are both written as the empty field). *)
Theorem export_is_lossless leads1 leads2 :
export_leads_to_csv leads1 = export_leads_to_csv leads2 →
columns <$> leads1 = columns <$> leads2.
Proof.
unfold export_leads_to_csv. intros Heq%append_inj_l. by apply records_inj.
Qed.

End export_claims.

(** * The model run on the scenario *)

Module Run.
Import IsoText Scenario.

(** C1: the update of [lead1] to [jane_moved] changes the company name and
    nothing else, and appends no activity at all. The history of [lead1]
    ends with a [status_changed] entry, and the test that guards the
    [updated] entry reads the last entry of the whole list, old history
    included. *)
Theorem company_only_update_appends_nothing :
  update_entry lead0 jane_contacted t1 = Ok lead1
  ∧ status jane_moved = status lead1
  ∧ notes jane_moved = notes lead1
  ∧ tags jane_moved = tags lead1
  ∧ company_name jane_moved ≠ company_name lead1
  ∧ ∃ new, update_entry lead1 jane_moved t2 = Ok new
           ∧ appended lead1 new = [].
Proof.
  split_and!; [reflexivity|done|done|done|done|].
  eexists. split; reflexivity.
Qed.

Lemma status_change_recorded_witness :
  validated jane_contacted
  ∧ ∃ new, update_entry lead0 jane_contacted t1 = Ok new
           ∧ length (filter (has_type STATUS_CHANGED) (appended lead0 new)) = 1
           ∧ last_contacted new = Some t1.
Proof.
  split; [reflexivity|].
  destruct (status_change_recorded lead0 jane_contacted t1 eq_refl)
    as (new & Hok & Hchanged & _).
  exists new. destruct Hchanged as (Hlen & Hcontact & _); [discriminate|].
  split; [exact Hok|]. split; [exact Hlen|]. apply Hcontact. left. reflexivity.
Defined.

Lemma tag_changes_recorded_witness :
  validated jane_noted
  ∧ ∃ new, update_entry lead0 jane_noted t1 = Ok new
           ∧ length (filter (λ a, description a = "Tag added: c")
                       (filter (has_type TAG_ADDED) (appended lead0 new))) = 1
           ∧ length (filter (λ a, description a = "Tag removed: a")
                       (filter (has_type TAG_REMOVED) (appended lead0 new))) = 1.
Proof.
  split; [reflexivity|].
  destruct (tag_changes_recorded lead0 jane_noted t1 eq_refl)
    as (new & Hok & Hadded & _ & Hremoved & _).
  exists new. split; [exact Hok|]. split.
  - apply (Hadded "c"); vm_compute; set_solver.
  - apply (Hremoved "a"); vm_compute; set_solver.
Defined.

Lemma note_change_recorded_witness :
  validated jane_noted
  ∧ ∃ new a d rest,
      update_entry lead0 jane_noted t1 = Ok new
      ∧ filter (has_type NOTE_ADDED) (appended lead0 new) = [a]
      ∧ details a = Some d
      ∧ "called back" = d +:+ rest.
Proof.
  split; [reflexivity|].
  destruct (note_change_recorded lead0 jane_noted t1 eq_refl)
    as (new & Hok & _ & Hnote).
  destruct (Hnote "called back") as (a & d & rest & Hf & Hd & Hs & _);
    [reflexivity|discriminate|discriminate|].
  exists new, a, d, rest. split; [exact Hok|]. split; [exact Hf|].
  split; [exact Hd|exact Hs].
Defined.

Lemma update_keeps_identity_and_history_witness :
  validated jane_noted
  ∧ ∃ new, update_entry lead0 jane_noted t1 = Ok new
           ∧ id new = "lead-1"
           ∧ date_added new = t0
           ∧ activity_history new = activity_history lead0 ++ appended lead0 new.
Proof.
  split; [reflexivity|].
  destruct (update_keeps_identity_and_history lead0 jane_noted t1 eq_refl)
    as (new & Hok & Hid & Hadded & Hhist & _).
  exists new. split; [exact Hok|]. split; [exact Hid|].
  split; [exact Hadded|exact Hhist].
Defined.

Lemma create_lead_seeds_history_witness :
  validated jane
  ∧ load_leads no_file = (Ok [], with_file no_file)
  ∧ ∃ lead st' a,
      create_lead jane t0 "lead-1" no_file = (Ok lead, st')
      ∧ activity_history lead = [a]
      ∧ type a = CREATED
      ∧ Str.contains "Jane Doe" (description a)
      ∧ last_contacted lead = None
      ∧ date_added lead = t0.
Proof.
  split; [reflexivity|]. split; [reflexivity|].
  destruct (create_lead_seeds_history jane t0 "lead-1" no_file []
              (with_file no_file) eq_refl eq_refl)
    as (lead & st' & a & Hok & Hh & Ht & Hc & Hl & Hd & _).
  exists lead, st', a. split; [exact Hok|]. split; [exact Hh|].
  split; [exact Ht|]. split; [exact Hc|]. split; [exact Hl|exact Hd].
Defined.

Lemma get_stats_counts_witness :
  load_leads two_leads = (Ok [lead1; lead_bob], two_leads)
  ∧ ∃ stats,
      get_stats two_leads = (Ok stats, two_leads)
      ∧ total stats = 2
      ∧ by_status stats !! "contacted" = Some 1
      ∧ ∃ ranking, ranked [lead1; lead_bob] ranking
                   ∧ top_companies stats = take 5 ranking.
Proof.
  split; [reflexivity|].
  destruct (get_stats_counts two_leads [lead1; lead_bob] two_leads eq_refl)
    as (stats & Hok & Htotal & _ & Hstatus & _ & _ & Hrank & _).
  exists stats. split; [exact Hok|]. split; [exact Htotal|].
  split; [exact (Hstatus CONTACTED)|exact Hrank].
Defined.

Lemma save_then_load_witness :
  Forall (λ lead : Lead, validated (base lead)) [lead1; lead_bob]
  ∧ ∃ st', save_leads [lead1; lead_bob] no_file = (Ok (), st')
           ∧ load_leads st' = (Ok [lead1; lead_bob], st').
Proof.
  assert (Forall (λ lead : Lead, validated (base lead)) [lead1; lead_bob])
    as Hvalid by (repeat constructor).
  split; [exact Hvalid|].
  exact (save_then_load [lead1; lead_bob] no_file Hvalid).
Defined.

Lemma delete_lead_removes_matching_witness :
  load_leads two_leads = (Ok [lead1; lead_bob], two_leads)
  ∧ ∃ st', delete_lead "lead-2" two_leads = (Ok true, st')
           ∧ ∃ remaining, leads_file st' = Some (leads_data remaining)
                          ∧ ∀ lead, lead ∈ remaining
                                    ↔ lead ∈ [lead1; lead_bob] ∧ id lead ≠ "lead-2".
Proof.
  split; [reflexivity|].
  destruct (delete_lead_removes_matching "lead-2" two_leads [lead1; lead_bob]
              two_leads eq_refl)
    as (deleted & st' & Hok & Hiff & _ & Hdeleted).
  assert (deleted = true) as Htrue.
  { apply Hiff. exists lead_bob. split; [|reflexivity]. right. left. }
  exists st'. split; [by subst deleted|].
  destruct (Hdeleted Htrue) as (remaining & Hfile & _ & _ & Hin & _).
  exists remaining. split; [exact Hfile|exact Hin].
Defined.

Lemma update_lead_leaves_others_witness :
  load_leads two_leads = (Ok [lead1; lead_bob], two_leads)
  ∧ (∃ lead, lead ∈ [lead1; lead_bob] ∧ id lead = "lead-1")
  ∧ ∃ r st', update_lead "lead-1" jane_moved t2 two_leads = (r, st')
             ∧ ∀ o, r = Ok o →
                 ∃ updated leads',
                   o = Some updated
                   ∧ leads_file st' = Some (leads_data leads')
                   ∧ length leads' = 2
                   ∧ leads' !! 1 = Some lead_bob.
Proof.
  assert (∃ lead, lead ∈ [lead1; lead_bob] ∧ id lead = "lead-1") as Hex.
  { exists lead1. split; [left|reflexivity]. }
  split; [reflexivity|]. split; [exact Hex|].
  destruct (update_lead_leaves_others "lead-1" jane_moved t2 two_leads
              [lead1; lead_bob] two_leads eq_refl Hex)
    as (r & st' & Hrun & _ & _ & Hok).
  exists r, st'. split; [exact Hrun|]. intros o Ho.
  destruct (Hok o Ho) as (updated & leads' & Hsome & Hfile & Hlen & Hothers & _).
  exists updated, leads'. split; [exact Hsome|]. split; [exact Hfile|].
  split; [exact Hlen|]. apply Hothers; [reflexivity|discriminate].
Defined.

(** The bound on [linkedin_url] is checked before the validator adds the
    scheme, and checked again when [create_lead] builds the [Lead]: a field
    set that a model class accepted can be rejected there, and is then no
    field set that satisfies the model. *)
Lemma normalised_url_can_outgrow_bound :
  ∃ lead_data,
    LeadBase_validate jane_long_url = Ok lead_data
    ∧ LeadBase_validate lead_data = Raise ValidationError
    ∧ (create_lead lead_data t0 "lead-3" no_file).1 = Raise ValidationError
    ∧ (update_lead "lead-1" lead_data t2 two_leads).1 = Raise ValidationError.
Proof. eexists. split_and!; reflexivity. Qed.

End Run.

(** * The queries and the routes run on the cases *)

Module Checks.
Import IsoText Scenario Cases.

Lemma model_object_fields_witness :
LeadBase_validate bob_raw = Ok bob_as_jane
∧ email bob_as_jane = Str.lower (email bob_raw)
∧ EmailPattern.re_match (email bob_as_jane) = true.
Proof.
split; [reflexivity|].
destruct (model_object_fields bob_raw bob_as_jane eq_refl)
  as (_ & _ & _ & (Hlower & _ & Hmatch) & _).
split; [exact Hlower|exact Hmatch].
Defined.

Lemma load_failure_stops_every_operation_witness :
load_leads null_file = (Raise AttributeError, null_file)
∧ create_lead jane t0 "lead-1" null_file = (Raise AttributeError, null_file)
∧ delete_lead "lead-1" null_file = (Raise AttributeError, null_file).
Proof.
split; [reflexivity|].
destruct (load_failure_stops_every_operation AttributeError null_file
            null_file "lead-1" jane t0 "lead-1" "acme" "jane@acme.com" None
            eq_refl)
  as (_ & _ & _ & _ & _ & _ & Hcreate & _ & Hdelete).
split; [exact Hcreate|exact Hdelete].
Defined.

Lemma first_run_is_empty_witness :
leads_file no_file = None
∧ get_all_leads no_file
  = (Ok [], {| leads_file := Some empty_document; saves := 0 |})
∧ delete_lead "lead-1" no_file
  = (Ok false, {| leads_file := Some empty_document; saves := 0 |}).
Proof.
split; [reflexivity|].
destruct (first_run_is_empty no_file "lead-1" jane t0 "acme" "jane@acme.com"
            None eq_refl)
  as (Hall & _ & _ & _ & _ & _ & Hdelete).
split; [exact Hall|exact Hdelete].
Defined.

Lemma get_lead_by_id_first_match_witness :
load_leads two_leads = (Ok [lead1; lead_bob], two_leads)
∧ ∃ found, get_lead_by_id "lead-2" two_leads = (Ok found, two_leads)
           ∧ (found = None ↔ ∀ lead, lead ∈ [lead1; lead_bob] →
                                     id lead ≠ "lead-2").
Proof.
split; [reflexivity|].
destruct (get_lead_by_id_first_match "lead-2" two_leads [lead1; lead_bob]
            two_leads eq_refl)
  as (found & Hrun & Hnone & _).
exists found. split; [exact Hrun|exact Hnone].
Defined.


Lemma check_duplicate_email_ignores_case_witness :
load_leads two_leads = (Ok [lead1; lead_bob], two_leads)
∧ ∃ dup, check_duplicate_email "Jane@Acme.com" None two_leads
         = (Ok dup, two_leads)
         ∧ check_duplicate_email "jane@acme.com" None two_leads
           = (Ok dup, two_leads).
Proof.
split; [reflexivity|].
destruct (check_duplicate_email_ignores_case "Jane@Acme.com" None two_leads
            [lead1; lead_bob] two_leads eq_refl)
  as (dup & Hrun & _ & Hcase & _).
exists dup. split; [exact Hrun|]. apply Hcase. reflexivity.
Defined.

Lemma loaded_leads_pass_the_model_witness :
load_leads two_leads = (Ok [lead1; lead_bob], two_leads)
∧ Forall (λ lead : Lead, Str.lower (email lead) = email lead)
    [lead1; lead_bob].
Proof.
split; [reflexivity|].
pose proof (loaded_leads_pass_the_model two_leads [lead1; lead_bob]
              two_leads eq_refl) as Hall.
eapply Forall_impl; [exact Hall|]. intros lead (_ & Hlower & _). exact Hlower.
Defined.

Lemma record_without_optional_keys_witness :
LeadBase_validate
  {| company_name := "Acme"; contact_name := "Jane Doe"; title := "CTO";
     email := "Jane@Acme.com"; linkedin_url := Some "";
     status := NOT_CONTACTED; notes := Some ""; tags := [] |}
= Ok bare_fields
∧ load_lead (JObj bare_record)
  = Ok {| base := bare_fields; id := "lead-9"; date_added := t0;
          last_contacted := None; activity_history := [] |}.
Proof.
split; [reflexivity|].
exact (proj1 (record_without_optional_keys bare_record "lead-9" "Acme"
                "Jane Doe" "CTO" "Jane@Acme.com" "2024-01-02T03:04:05" t0
                bare_fields eq_refl eq_refl eq_refl eq_refl eq_refl eq_refl
                eq_refl eq_refl eq_refl eq_refl eq_refl eq_refl eq_refl
                eq_refl)).
Defined.

Lemma first_bad_record_fails_the_load_witness :
mapM load_lead [dump_lead lead1] = Ok [lead1]
∧ load_lead JNull = Raise AttributeError
∧ load_leads damaged_file = (Raise AttributeError, damaged_file).
Proof.
split; [reflexivity|]. split; [reflexivity|].
exact (first_bad_record_fails_the_load damaged_file second_record_null
         [dump_lead lead1] JNull [] [lead1] AttributeError
         eq_refl eq_refl eq_refl eq_refl).
Defined.

Lemma two_leads_validated :
Forall (λ lead : Lead, validated (base lead)) [lead1; lead_bob].
Proof. repeat constructor. Qed.

Lemma created_lead_is_found_witness :
validated jane_noted
∧ load_leads two_leads = (Ok [lead1; lead_bob], two_leads)
∧ ∃ lead st',
    create_lead jane_noted t2 "lead-3" two_leads = (Ok lead, st')
    ∧ get_all_leads st' = (Ok [lead1; lead_bob; lead], st')
    ∧ get_lead_by_id "lead-3" st' = (Ok (Some lead), st').
Proof.
split; [reflexivity|]. split; [reflexivity|].
destruct (created_lead_is_found jane_noted t2 "lead-3" two_leads
            [lead1; lead_bob] two_leads eq_refl eq_refl two_leads_validated)
  as (lead & st' & Hrun & Hall & Hget & _).
exists lead, st'. split; [exact Hrun|]. split; [exact Hall|].
apply Hget. intros l Hl Hid.
apply elem_of_cons in Hl as [->|Hl]; [discriminate|].
apply elem_of_cons in Hl as [->|Hl]; [discriminate|].
by apply elem_of_nil in Hl.
Defined.



Lemma update_lead_finds_what_get_finds_witness :
load_leads two_leads = (Ok [lead1; lead_bob], two_leads)
∧ update_lead "lead-7" jane_noted t2 two_leads = (Ok None, two_leads).
Proof.
split; [reflexivity|].
destruct (update_lead_finds_what_get_finds "lead-7" jane_noted t2 two_leads
            [lead1; lead_bob] two_leads eq_refl)
  as (found & Hget & Hnone & _).
apply Hnone.
assert (get_lead_by_id "lead-7" two_leads = (Ok None, two_leads)) as Hrun
  by reflexivity.
congruence.
Defined.

Lemma update_leaves_no_entry_iff_witness :
update_entry lead1 jane_moved t2
= Ok {| base := jane_moved; id := "lead-1"; date_added := t0;
        last_contacted := Some t1;
        activity_history := activity_history lead1 |}
∧ ∃ a, last (activity_history lead1) = Some a ∧ type a ∈ tracked_types.
Proof.
split; [reflexivity|].
destruct (update_leaves_no_entry_iff lead1 jane_moved t2 _ eq_refl)
  as [Hnothing _].
destruct (Hnothing eq_refl) as (_ & _ & _ & Hlast). exact Hlast.
Defined.

Lemma fallback_entry_stands_alone_witness :
∃ new, update_entry lead0 jane_noted t1 = Ok new
       ∧ Forall (λ a, timestamp a = t1 ∧ type a ≠ CREATED
                      ∧ (is_Some (details a) → type a = NOTE_ADDED))
           (appended lead0 new).
Proof.
eexists. split; [reflexivity|].
exact (proj1 (fallback_entry_stands_alone lead0 jane_noted t1 _ eq_refl)).
Defined.

Lemma one_lead_reachable : reachable one_lead.
Proof.
exists no_file. split; [reflexivity|].
eapply rtc_l; [|apply rtc_refl].
eapply (step_create jane t0 "lead-1" no_file (Ok lead0)).
- exists jane. reflexivity.
- reflexivity.
Qed.

Lemma reachable_store_is_sound_witness :
reachable one_lead
∧ ∃ leads, load_leads one_lead = (Ok leads, with_file one_lead)
           ∧ Forall well_formed leads.
Proof.
split; [exact one_lead_reachable|].
destruct (reachable_store_is_sound one_lead one_lead_reachable)
  as (leads & Hload & Hwf & _).
exists leads. split; [exact Hload|exact Hwf].
Defined.

Lemma two_leads_unique : NoDup (id <$> [lead1; lead_bob]).
Proof.
apply NoDup_cons. split.
- intros Hin. apply list_elem_of_singleton in Hin. discriminate.
- apply NoDup_singleton.
Qed.

Lemma identifiers_stay_unique_witness :
load_leads two_leads = (Ok [lead1; lead_bob], two_leads)
∧ ∃ st', delete_lead "lead-2" two_leads = (Ok true, st')
         ∧ ∃ leads', load_leads st' = (Ok leads', st')
                     ∧ NoDup (id <$> leads').
Proof.
split; [reflexivity|].
destruct (identifiers_stay_unique two_leads [lead1; lead_bob] two_leads
            eq_refl two_leads_validated two_leads_unique)
  as (_ & _ & Hdelete).
exists {| leads_file := Some (leads_data [lead1]); saves := 4 |}.
split; [reflexivity|].
destruct (Hdelete "lead-2" _ eq_refl) as (leads' & Hload & _ & Hnd).
exists leads'. split; [exact Hload|exact Hnd].
Defined.

Lemma not_found_exactly_when_absent_witness :
load_leads two_leads = (Ok [lead1; lead_bob], two_leads)
∧ (main.get_lead "lead-7" two_leads).1
  = main.Raised (main.HTTPException 404 (main.Text "Lead not found"))
∧ (main.delete_lead "lead-7" two_leads).2 = two_leads.
Proof.
split; [reflexivity|].
destruct (not_found_exactly_when_absent "lead-7" jane_noted t2 two_leads
            [lead1; lead_bob] two_leads eq_refl)
  as (Hget & _ & _ & Hstore & _).
assert (∀ lead : Lead, lead ∈ [lead1; lead_bob] → id lead ≠ "lead-7")
  as Habsent.
{ intros l Hl Hid.
  apply elem_of_cons in Hl as [->|Hl]; [discriminate|].
  apply elem_of_cons in Hl as [->|Hl]; [discriminate|].
  by apply elem_of_nil in Hl. }
split; [exact (proj2 Hget Habsent)|].
exact (proj2 (proj2 (Hstore Habsent))).
Defined.

Lemma bob_as_jane_model_object : model_object bob_as_jane.
Proof. exists bob_raw. reflexivity. Qed.

Lemma create_route_outcome_witness :
load_leads two_leads = (Ok [lead1; lead_bob], two_leads)
∧ model_object bob_as_jane
∧ match main.create_lead bob_as_jane t2 "lead-3" two_leads with
  | (main.Return response, st') =>
      main.warning response
      = Some "Warning: A lead with email jane@acme.com already exists"
      ∧ leads_file st'
        = Some (leads_data [lead1; lead_bob; main.lead response])
  | (main.Raised _, _) => False
  end.
Proof.
split; [reflexivity|]. split; [exact bob_as_jane_model_object|].
pose proof (create_route_outcome bob_as_jane t2 "lead-3" two_leads
              [lead1; lead_bob] two_leads eq_refl bob_as_jane_model_object)
  as Hroute.
destruct (main.create_lead bob_as_jane t2 "lead-3" two_leads)
  as [[response|r] st'].
- destruct Hroute as (_ & _ & _ & Hfile & _ & [[Hwarn _]|[_ Hfree]]).
  + split; [exact Hwarn|exact Hfile].
  + exfalso. apply Hfree. exists lead1. split; [left|reflexivity].
- destruct Hroute as (Hrejected & _). apply Hrejected. reflexivity.
Defined.

Lemma update_route_outcome_witness :
load_leads two_leads = (Ok [lead1; lead_bob], two_leads)
∧ model_object bob_as_jane
∧ get_lead_by_id "lead-2" two_leads = (Ok (Some lead_bob), two_leads)
∧ match main.update_lead "lead-2" bob_as_jane t2 two_leads with
  | (main.Return response, st') =>
      update_entry lead_bob bob_as_jane t2 = Ok (main.lead response)
      ∧ main.warning response
        = Some "Warning: Another lead with email jane@acme.com already exists"
  | (main.Raised _, _) => False
  end.
Proof.
split; [reflexivity|]. split; [exact bob_as_jane_model_object|].
split; [reflexivity|].
pose proof (update_route_outcome "lead-2" bob_as_jane t2 two_leads
              [lead1; lead_bob] two_leads lead_bob eq_refl
              bob_as_jane_model_object eq_refl)
  as Hroute.
destruct (main.update_lead "lead-2" bob_as_jane t2 two_leads)
  as [[response|r] st'].
- destruct Hroute as (_ & Hentry & _ & _ & [[Hwarn _]|[_ Hfree]]).
  + split; [exact Hentry|exact Hwarn].
  + exfalso. apply Hfree. exists lead1.
    split; [left|]. split; [reflexivity|discriminate].
- destruct Hroute as (Hrejected & _). apply Hrejected. reflexivity.
Defined.

Lemma load_failure_status_codes_witness :
load_leads null_file = (Raise AttributeError, null_file)
∧ main.get_leads None null_file
  = (main.Raised (main.HTTPException 500 (main.str_of AttributeError)),
     null_file)
∧ main.create_lead jane t0 "lead-1" null_file
  = (main.Raised (main.HTTPException 500 (main.str_of AttributeError)),
     null_file)
∧ main.delete_lead "lead-1" null_file
  = (main.Raised (main.Uncaught AttributeError), null_file).
Proof.
split; [reflexivity|].
destruct (load_failure_status_codes AttributeError null_file null_file None
            "lead-1" jane t0 "lead-1" eq_refl)
  as (Hleads & _ & _ & Hcreate & _ & _ & Hdelete & _).
split; [exact Hleads|]. split; [exact Hcreate|exact Hdelete].
Defined.

Lemma tags_route_ranks_tags_witness :
load_leads two_leads = (Ok [lead1; lead_bob], two_leads)
∧ ∃ ranking, main.get_all_tags two_leads = (main.Return ranking, two_leads)
             ∧ ranking_of ["a"; "b"] ranking.
Proof.
split; [reflexivity|].
destruct (tags_route_ranks_tags two_leads [lead1; lead_bob] two_leads
            eq_refl)
  as (ranking & Hrun & Hrank & _).
exists ranking. split; [exact Hrun|exact Hrank].
Defined.

Lemma repeated_update_witness :
update_entry lead0 jane_contacted t1 = Ok lead1
∧ ∃ new', update_entry lead1 jane_contacted t2 = Ok new'
          ∧ base new' = base lead1
          ∧ appended lead1 new' = [].
Proof.
assert (update_entry lead0 jane_contacted t1 = Ok lead1) as Hfirst
  by reflexivity.
split; [exact Hfirst|].
destruct (repeated_update lead0 jane_contacted t1 t2 lead1 Hfirst)
  as (new' & Hrun & Hbase & _ & _ & _ & Hspecific).
exists new'. split; [exact Hrun|]. split; [exact Hbase|].
apply Hspecific. eexists. split; [left|]. discriminate.
Defined.

Lemma export_line_feeds_witness :
load_leads two_leads = (Ok [lead1; lead_bob], two_leads)
∧ ∃ text,
    main.export_leads two_leads
    = (main.Return
         {| main.content := Some text; main.status_code := 200;
            main.media_type := Some "text/csv";
            main.headers := [("Content-Disposition",
                              "attachment; filename=leads_export.csv")] |},
       two_leads)
    ∧ line_feeds text = 3.
Proof.
split; [reflexivity|].
destruct (export_line_feeds two_leads [lead1; lead_bob] two_leads eq_refl)
  as (text & Hrun & _ & _ & _ & Hlines).
exists text. split; [exact Hrun|].
apply Hlines. repeat constructor.
Defined.

Lemma export_is_lossless_witness :
export_leads_to_csv [lead1; lead_bob]
= export_leads_to_csv [lead1; lead_bob_blank]
∧ columns <$> [lead1; lead_bob] = columns <$> [lead1; lead_bob_blank].
Proof.
assert (export_leads_to_csv [lead1; lead_bob]
        = export_leads_to_csv [lead1; lead_bob_blank]) as Hsame
  by reflexivity.
split; [exact Hsame|].
exact (export_is_lossless [lead1; lead_bob] [lead1; lead_bob_blank] Hsame).
Defined.

End Checks.
